(** * The secure endpoint of src/core/security/secure_endpoint.c

    A shallow embedding of the encrypting/decrypting endpoint adapter and
    the properties of its read pipeline, write pipeline and reference
    counted lifecycle.

    Layout of the development:
    - the collaborators the C file only calls (slices and slice buffers,
      the TSI frame protector, the wrapped endpoint, closures, the mutex),
      as data and as interfaces;
    - the [secure_endpoint] record and the functions of the C file, in a
      state monad over the endpoint and the trace of calls it makes to its
      collaborators;
    - the theorems. *)

From Stdlib Require Import List Arith ZArith Lia Bool Wf_nat.
Import ListNotations.

Set Implicit Arguments.

(* ------------------------------------------------------------------ *)
(** ** Slices and slice buffers (grpc/support/slice.h, slice_buffer.h) *)
(* ------------------------------------------------------------------ *)

Definition gpr_uint8 := Byte.byte.

(** A [gpr_slice] is a byte range; reference counts of the backing store
    are not tracked, only the bytes. *)
Definition gpr_slice := list gpr_uint8.

(** A [gpr_slice_buffer] is the ordered list of its slices;
    [count] is its length. *)
Definition gpr_slice_buffer := list gpr_slice.

Definition GPR_SLICE_LENGTH (s : gpr_slice) : nat := length s.

(** Modelled from the spec: gpr_slice_malloc is declared in slice.h, which
    is not part of the sources; it returns a freshly allocated region of
    the requested capacity (its bytes are not initialised, here zero). *)
Definition gpr_slice_malloc (n : nat) : gpr_slice := repeat Byte.x00 n.

(** Modelled from the spec: gpr_slice_split_head is declared in slice.h;
    it splits a prefix of the given length off the front of a segment and
    returns it, the segment keeping the rest. *)
Definition gpr_slice_split_head (s : gpr_slice) (n : nat)
  : gpr_slice * gpr_slice := (firstn n s, skipn n s).

(** Modelled from the spec: gpr_slice_buffer_add is declared in
    slice_buffer.h; it appends a segment to the list. *)
Definition gpr_slice_buffer_add (sb : gpr_slice_buffer) (s : gpr_slice)
  : gpr_slice_buffer := sb ++ [s].

(** Modelled from the spec: gpr_slice_buffer_reset_and_unref drops all
    references and empties the list. *)
Definition gpr_slice_buffer_reset_and_unref (sb : gpr_slice_buffer)
  : gpr_slice_buffer := [].

(** Modelled from the spec: gpr_slice_buffer_swap exchanges the contents
    of two lists. *)
Definition gpr_slice_buffer_swap (a b : gpr_slice_buffer)
  : gpr_slice_buffer * gpr_slice_buffer := (b, a).

(** The bytes of a slice buffer, in order. *)
Definition bytes_of (sb : gpr_slice_buffer) : list gpr_uint8 := concat sb.

(** What a callee that is handed the pointer [cur] into a buffer and reports
    [length out] bytes written leaves in the buffer. *)
Definition write_at (buf : gpr_slice) (cur : nat) (out : list gpr_uint8)
  : gpr_slice := firstn cur buf ++ out ++ skipn (cur + length out) buf.

(* ------------------------------------------------------------------ *)
(** ** Results, statuses, closures                                     *)
(* ------------------------------------------------------------------ *)

(** Modelled from the spec: the tsi_result enumeration lives in
    transport_security_interface.h; the C file only compares with TSI_OK.
    Every other value is a crypto failure with its reason. *)
Inductive tsi_result : Type :=
| TSI_OK
| CryptoFailure (reason : nat).

Definition tsi_ok (r : tsi_result) : bool :=
  match r with TSI_OK => true | CryptoFailure _ => false end.

Inductive grpc_endpoint_op_status : Type :=
| GRPC_ENDPOINT_DONE
| GRPC_ENDPOINT_PENDING
| GRPC_ENDPOINT_ERROR.

(** A [grpc_iomgr_closure] is identified by a number; invoking it is an
    event of the trace. *)
Definition grpc_iomgr_closure := nat.

(** Modelled from the spec: the frame protector is an external
    collaborator.  Each call gets the protector state, the (pointer,
    length) view of its input and the size of the output region; it
    returns the result, the new state, the number of input bytes consumed
    and the bytes written (flush: the bytes written and the number of
    bytes still pending). *)
Class tsi_frame_protector_vtable (P : Type) : Type := {
  tsi_protect :
    P -> list gpr_uint8 -> nat -> tsi_result * P * nat * list gpr_uint8;
  tsi_protect_flush :
    P -> nat -> tsi_result * P * list gpr_uint8 * nat;
  tsi_unprotect :
    P -> list gpr_uint8 -> nat -> tsi_result * P * nat * list gpr_uint8
}.

(** Modelled from the spec: the wrapped transport endpoint is an external
    collaborator.  [read] is handed the source list and the resumption
    closure and answers Done, Pending or Error, leaving what it received
    in the list; [write] is handed the list to send and the completion. *)
Class grpc_endpoint_vtable (T : Type) : Type := {
  wrapped_read :
    T -> gpr_slice_buffer -> T * gpr_slice_buffer * grpc_endpoint_op_status;
  wrapped_write :
    T -> gpr_slice_buffer -> grpc_iomgr_closure -> T * grpc_endpoint_op_status;
  wrapped_shutdown : T -> T;
  wrapped_destroy : T -> T
}.

(* ------------------------------------------------------------------ *)
(** ** Matching protector instances                                    *)
(* ------------------------------------------------------------------ *)

(** What it means for the protector of a sender and the protector of a
    receiver to match.  [in_flight s wire r q] reads: with the sender in
    state [s], the ciphertext [wire] on its way and the receiver in state
    [r], the plaintext that the sender has accepted and the receiver has
    not delivered yet is [q].  The sender and the receiver then behave
    as the two ends of a queue of plaintext bytes:
    - protect succeeds, respects the sizes it is given, and moves the
      bytes it consumed into the queue; when it consumes nothing of a
      non-empty input it makes room ([pending_output] decreases);
    - flush succeeds, leaves the queue as it is, decreases
      [pending_output] as long as it reports bytes pending, and leaves
      the sender [flushed] when it reports none;
    - unprotect succeeds on the ciphertext in flight, respects the sizes
      it is given, delivers the front of the queue, consumes or delivers
      something when given input, and leaves the receiver [drained] when
      it delivers nothing;
    - nothing is in flight between a flushed sender and a drained
      receiver when the wire is empty. *)
Record matching_protectors (P : Type) (PV : tsi_frame_protector_vtable P)
  : Type := {
  in_flight : P -> list gpr_uint8 -> P -> list gpr_uint8 -> Prop;
  pending_output : P -> nat;
  flushed : P -> Prop;
  drained : P -> Prop;
  protect_spec : forall s wire r q msg cap,
    in_flight s wire r q -> 0 < cap ->
    exists s' n out,
      tsi_protect s msg cap = (TSI_OK, s', n, out) /\
      n <= length msg /\ length out <= cap /\
      in_flight s' (wire ++ out) r (q ++ firstn n msg) /\
      (msg <> [] -> n = 0 -> pending_output s' < pending_output s);
  flush_spec : forall s wire r q cap,
    in_flight s wire r q -> 0 < cap ->
    exists s' out still_pending,
      tsi_protect_flush s cap = (TSI_OK, s', out, still_pending) /\
      length out <= cap /\
      in_flight s' (wire ++ out) r q /\
      (still_pending = 0 -> flushed s') /\
      (0 < still_pending -> pending_output s' < pending_output s);
  unprotect_spec : forall s wire r q msg cap,
    in_flight s (msg ++ wire) r q -> 0 < cap ->
    exists r' n out q',
      tsi_unprotect r msg cap = (TSI_OK, r', n, out) /\
      n <= length msg /\ length out <= cap /\
      q = out ++ q' /\
      in_flight s (skipn n msg ++ wire) r' q' /\
      (out = [] -> drained r') /\
      (msg <> [] -> n = 0 -> out <> []);
  drained_spec : forall s r q,
    in_flight s [] r q -> flushed s -> drained r -> q = []
}.


(* ------------------------------------------------------------------ *)
(** ** Test doubles for the collaborators                              *)
(* ------------------------------------------------------------------ *)

(** A protector double that replays scripted answers, one per call and
    whatever its input.  Once a script is spent, protect and unprotect
    consume their whole input and write nothing, and flush writes nothing
    and reports nothing pending. *)
Record scripted_protector : Type := {
  protect_script : list (tsi_result * nat * list gpr_uint8);
  flush_script : list (tsi_result * list gpr_uint8 * nat);
  unprotect_script : list (tsi_result * nat * list gpr_uint8)
}.

#[export] Instance scripted_protector_vtable
  : tsi_frame_protector_vtable scripted_protector := {
  tsi_protect s msg cap :=
    match protect_script s with
    | [] => (TSI_OK, s, length msg, [])
    | (r, n, out) :: rest =>
      (r, {| protect_script := rest; flush_script := flush_script s;
             unprotect_script := unprotect_script s |}, n, out)
    end;
  tsi_protect_flush s cap :=
    match flush_script s with
    | [] => (TSI_OK, s, [], 0)
    | (r, out, pending) :: rest =>
      (r, {| protect_script := protect_script s; flush_script := rest;
             unprotect_script := unprotect_script s |}, out, pending)
    end;
  tsi_unprotect s msg cap :=
    match unprotect_script s with
    | [] => (TSI_OK, s, length msg, [])
    | (r, n, out) :: rest =>
      (r, {| protect_script := protect_script s;
             flush_script := flush_script s;
             unprotect_script := rest |}, n, out)
    end
}.

(** A protector double without framing: every call copies as many bytes
    as fit in the output region, and nothing is ever pending. *)
Definition copy_protector : Type := unit.

#[export] Instance copy_protector_vtable
  : tsi_frame_protector_vtable copy_protector := {
  tsi_protect s msg cap :=
    (TSI_OK, s, Nat.min (length msg) cap, firstn cap msg);
  tsi_protect_flush s cap := (TSI_OK, s, [], 0);
  tsi_unprotect s msg cap :=
    (TSI_OK, s, Nat.min (length msg) cap, firstn cap msg)
}.

(** A transport double: each read replays a scripted answer, leaving the
    scripted slices in the source list; each write records the list it
    was handed and answers [write_status]. *)
Record scripted_transport : Type := {
  read_script : list (gpr_slice_buffer * grpc_endpoint_op_status);
  write_status : grpc_endpoint_op_status;
  written : list gpr_slice_buffer;
  is_shutdown : bool
}.

#[export] Instance scripted_transport_vtable
  : grpc_endpoint_vtable scripted_transport := {
  wrapped_read t sb :=
    match read_script t with
    | [] => (t, sb, GRPC_ENDPOINT_ERROR)
    | (data, status) :: rest =>
      ({| read_script := rest; write_status := write_status t;
          written := written t; is_shutdown := is_shutdown t |},
       data, status)
    end;
  wrapped_write t sb cb :=
    ({| read_script := read_script t; write_status := write_status t;
        written := written t ++ [sb]; is_shutdown := is_shutdown t |},
     write_status t);
  wrapped_shutdown t :=
    {| read_script := read_script t; write_status := write_status t;
       written := written t; is_shutdown := true |};
  wrapped_destroy t := t
}.

(** Concrete doubles used in the examples below. *)

(** A protector whose second protect call fails, after a first one that
    consumed one byte and wrote one. *)
Definition second_protect_fails : scripted_protector :=
  {| protect_script :=
       [(TSI_OK, 1, [Byte.x0a]); (CryptoFailure 3, 0, [])];
     flush_script := [];
     unprotect_script := [] |}.

(** A protector whose first unprotect call fails. *)
Definition first_unprotect_fails : scripted_protector :=
  {| protect_script := [];
     flush_script := [];
     unprotect_script := [(CryptoFailure 5, 0, [])] |}.

(** A protector whose scripts are empty. *)
Definition silent_protector : scripted_protector :=
  {| protect_script := []; flush_script := []; unprotect_script := [] |}.

(** A transport whose first read stays pending. *)
Definition pending_transport : scripted_transport :=
  {| read_script := [([], GRPC_ENDPOINT_PENDING)];
     write_status := GRPC_ENDPOINT_DONE;
     written := [];
     is_shutdown := false |}.

(** A transport whose first read fails at once and leaves one byte in
    the source list. *)
Definition failing_transport : scripted_transport :=
  {| read_script := [([[Byte.x01]], GRPC_ENDPOINT_ERROR)];
     write_status := GRPC_ENDPOINT_DONE;
     written := [];
     is_shutdown := false |}.

(** A transport whose first read completes at once with one byte. *)
Definition delivering_transport : scripted_transport :=
  {| read_script := [([[Byte.x01]], GRPC_ENDPOINT_DONE)];
     write_status := GRPC_ENDPOINT_DONE;
     written := [];
     is_shutdown := false |}.


(** The value of STAGING_BUFFER_SIZE in the C file. *)
Definition source_staging_buffer_size : nat := 8 * 1024.


(** [copy_protector] on both sides is a matching pair: what is in flight
    is what is on the wire. *)
Definition copy_protectors_match
  : matching_protectors copy_protector_vtable.
Proof.
  refine {| in_flight := fun _ wire _ q => q = wire;
            pending_output := fun _ => 0;
            flushed := fun _ => True;
            drained := fun _ => True |}.
  - intros s wire r q msg cap -> Hcap. cbn.
    exists s, (Nat.min (length msg) cap), (firstn cap msg).
    split; [reflexivity|]. split; [apply Nat.le_min_l|].
    split; [rewrite length_firstn; apply Nat.le_min_l|].
    split.
    + f_equal. destruct (Nat.le_ge_cases (length msg) cap) as [H|H].
      * rewrite Nat.min_l by exact H.
        rewrite !firstn_all2 by lia. reflexivity.
      * rewrite Nat.min_r by exact H. reflexivity.
    + intros Hmsg Hn. exfalso. destruct msg; [contradiction|].
      cbn [length] in Hn. lia.
  - intros s wire r q cap -> Hcap. cbn.
    exists s, [], 0. rewrite app_nil_r.
    split; [reflexivity|]. split; [cbn; lia|].
    split; [reflexivity|]. split; [auto|intros H; exact H].
  - intros s wire r q msg cap -> Hcap. cbn.
    exists r, (Nat.min (length msg) cap), (firstn cap msg),
      (skipn (Nat.min (length msg) cap) msg ++ wire).
    split; [reflexivity|]. split; [apply Nat.le_min_l|].
    split; [rewrite length_firstn; apply Nat.le_min_l|].
    split; [|split; [reflexivity|split; [auto|]]].
    + rewrite app_assoc. f_equal.
      destruct (Nat.le_ge_cases (length msg) cap) as [H|H].
      * rewrite Nat.min_l by exact H.
        rewrite firstn_all2, skipn_all2, app_nil_r by lia. reflexivity.
      * rewrite Nat.min_r by exact H. symmetry. apply firstn_skipn.
    + intros Hmsg Hn. exfalso. destruct msg; [contradiction|].
      cbn [length] in Hn. lia.
  - intros s r q -> _ _. reflexivity.
Defined.

(** A protector double that buffers in both directions.  As a sender it
    takes all its input and writes nothing until it is flushed; a flush
    writes as much of what it holds as fits and reports the rest as
    pending.  As a receiver it takes all its input and delivers as much
    of what it holds as fits, the rest on later calls. *)
Record buffering_protector : Type := {
  to_send : list gpr_uint8;
  to_deliver : list gpr_uint8
}.

#[export] Instance buffering_protector_vtable
  : tsi_frame_protector_vtable buffering_protector := {
  tsi_protect s msg cap :=
    (TSI_OK,
     {| to_send := to_send s ++ msg; to_deliver := to_deliver s |},
     length msg, []);
  tsi_protect_flush s cap :=
    (TSI_OK,
     {| to_send := skipn cap (to_send s); to_deliver := to_deliver s |},
     firstn cap (to_send s), length (to_send s) - cap);
  tsi_unprotect s msg cap :=
    (TSI_OK,
     {| to_send := to_send s;
        to_deliver := skipn cap (to_deliver s ++ msg) |},
     length msg, firstn cap (to_deliver s ++ msg))
}.

(** A buffering protector that holds nothing. *)
Definition empty_buffers : buffering_protector :=
  {| to_send := []; to_deliver := [] |}.

(** [buffering_protector] on both sides is a matching pair: what is in
    flight is what the receiver holds, then the wire, then what the
    sender holds. *)
Definition buffering_protectors_match
  : matching_protectors buffering_protector_vtable.
Proof.
  refine {| in_flight := fun s wire r q =>
                           q = to_deliver r ++ wire ++ to_send s;
            pending_output := fun s => length (to_send s);
            flushed := fun s => to_send s = [];
            drained := fun r => to_deliver r = [] |}.
  - intros s wire r q msg cap -> Hcap. cbn.
    do 3 eexists. split; [reflexivity|].
    split; [apply Nat.le_refl|]. split; [cbn; lia|].
    split.
    + rewrite firstn_all, app_nil_r, <- !app_assoc. reflexivity.
    + intros Hmsg Hn. exfalso. destruct msg; [contradiction|].
      cbn [length] in Hn. lia.
  - intros s wire r q cap -> Hcap. cbn.
    do 3 eexists. split; [reflexivity|].
    split; [rewrite length_firstn; apply Nat.le_min_l|].
    split; [|split].
    + rewrite <- (firstn_skipn cap (to_send s)) at 1.
      rewrite <- !app_assoc. reflexivity.
    + intros Hp. cbn. apply skipn_all2. lia.
    + intros Hp. cbn. rewrite length_skipn. lia.
  - intros s wire r q msg cap -> Hcap. cbn.
    do 4 eexists. split; [reflexivity|].
    split; [apply Nat.le_refl|].
    split; [rewrite length_firstn; apply Nat.le_min_l|].
    split; [|split; [reflexivity|split]].
    + cbn [to_deliver]. rewrite skipn_all. cbn [app].
      rewrite (app_assoc (firstn cap (to_deliver r ++ msg))).
      rewrite (firstn_skipn cap (to_deliver r ++ msg)).
      rewrite <- !app_assoc. reflexivity.
    + intros Hout.
      assert (Hlen : length (firstn cap (to_deliver r ++ msg)) = 0)
        by (rewrite Hout; reflexivity).
      rewrite length_firstn in Hlen.
      assert (Hz : length (to_deliver r ++ msg) = 0) by lia.
      apply length_zero_iff_nil in Hz. rewrite Hz. apply skipn_nil.
    + intros Hmsg Hn. exfalso. destruct msg; [contradiction|].
      cbn [length] in Hn. lia.
  - intros s r q -> Hs Hr. rewrite Hs, Hr. reflexivity.
Defined.


(* ------------------------------------------------------------------ *)
(** ** The endpoint, the trace and the monad                           *)
(* ------------------------------------------------------------------ *)

Section Endpoint.

Context {P T : Type}.
Context {PV : tsi_frame_protector_vtable P}.
Context {TV : grpc_endpoint_vtable T}.

(** #define STAGING_BUFFER_SIZE 8192 in the C file; kept as a parameter
    so that the results hold for every capacity. *)
Variable STAGING_BUFFER_SIZE : nat.

(** typedef struct { ... } secure_endpoint.  [base] (the vtable pointer)
    and [on_read] (the closure that calls [on_read_cb] on this endpoint)
    are fixed at creation and not stored; [protector_mu] is [true] while
    the mutex is held; [read_buffer] tells whether the pointer designates
    the caller's destination list ([destination] of the world below) or is
    NULL. *)
Record secure_endpoint : Type := {
  wrapped_ep : T;
  protector : P;
  protector_mu : bool;
  read_cb : option grpc_iomgr_closure;
  write_cb : option grpc_iomgr_closure;
  read_buffer : bool;
  source_buffer : gpr_slice_buffer;
  leftover_bytes : gpr_slice_buffer;
  read_staging_buffer : gpr_slice;
  write_staging_buffer : gpr_slice;
  output_buffer : gpr_slice_buffer;
  ref : Z
}.

(** Calls the endpoint makes to its collaborators, in the order made. *)
Inductive event : Type :=
| EvMuLock
| EvMuUnlock
| EvUnprotect (message_size cap : nat) (result : tsi_result)
              (processed written : nat)
| EvProtect (message_size cap : nat) (result : tsi_result)
            (processed written : nat)
| EvProtectFlush (cap : nat) (result : tsi_result)
                 (written still_pending : nat)
| EvWrappedRead (status : grpc_endpoint_op_status)
| EvWrappedWrite (slices : gpr_slice_buffer) (cb : grpc_iomgr_closure)
                 (status : grpc_endpoint_op_status)
| EvWrappedShutdown
| EvWrappedDestroy
| EvProtectorDestroy
| EvMuDestroy
| EvClosure (cb : grpc_iomgr_closure) (success : Z)
| EvRef
| EvUnref
| EvFree.

(** The endpoint in memory: its fields, the caller's slice buffer that
    the last read was given as destination, whether [destroy] has freed
    the endpoint, and the trace so far. *)
Record world : Type := {
  ep : secure_endpoint;
  destination : gpr_slice_buffer;
  freed : bool;
  trace : list event
}.

(** A C function either returns, or is still running when the fuel of a
    loop is spent, or stops at a failed GPR_ASSERT or a NULL pointer.  The
    world reached is kept in every case. *)
Inductive outcome (A : Type) : Type :=
| Returns (a : A)
| OutOfFuel
| Aborted.
Arguments OutOfFuel {A}.
Arguments Aborted {A}.

Definition M (A : Type) : Type := world -> world * outcome A.

Definition ret {A} (a : A) : M A := fun w => (w, Returns a).

Definition bind {A B} (m : M A) (k : A -> M B) : M B :=
  fun w =>
    match m w with
    | (w', Returns a) => k a w'
    | (w', OutOfFuel) => (w', OutOfFuel)
    | (w', Aborted) => (w', Aborted)
    end.

Definition out_of_fuel {A} : M A := fun w => (w, OutOfFuel).

Definition GPR_ASSERT (b : bool) : M unit :=
  fun w => if b then (w, Returns tt) else (w, Aborted).

Definition get_ep : M secure_endpoint := fun w => (w, Returns (ep w)).

Definition modify_ep (f : secure_endpoint -> secure_endpoint) : M unit :=
  fun w => ({| ep := f (ep w); destination := destination w;
               freed := freed w; trace := trace w |}, Returns tt).

Definition modify_destination (f : gpr_slice_buffer -> gpr_slice_buffer)
  : M unit :=
  fun w => ({| ep := ep w; destination := f (destination w);
               freed := freed w; trace := trace w |}, Returns tt).

Definition emit (e : event) : M unit :=
  fun w => ({| ep := ep w; destination := destination w;
               freed := freed w; trace := trace w ++ [e] |}, Returns tt).

Definition set_freed : M unit :=
  fun w => ({| ep := ep w; destination := destination w;
               freed := true; trace := trace w |}, Returns tt).

(** Field assignments [e->f = v]. *)
Definition set_wrapped_ep (v : T) (e : secure_endpoint)
  : secure_endpoint :=
  {| wrapped_ep := v;
     protector := protector e;
     protector_mu := protector_mu e;
     read_cb := read_cb e;
     write_cb := write_cb e;
     read_buffer := read_buffer e;
     source_buffer := source_buffer e;
     leftover_bytes := leftover_bytes e;
     read_staging_buffer := read_staging_buffer e;
     write_staging_buffer := write_staging_buffer e;
     output_buffer := output_buffer e;
     ref := ref e |}.

Definition set_protector (v : P) (e : secure_endpoint)
  : secure_endpoint :=
  {| wrapped_ep := wrapped_ep e;
     protector := v;
     protector_mu := protector_mu e;
     read_cb := read_cb e;
     write_cb := write_cb e;
     read_buffer := read_buffer e;
     source_buffer := source_buffer e;
     leftover_bytes := leftover_bytes e;
     read_staging_buffer := read_staging_buffer e;
     write_staging_buffer := write_staging_buffer e;
     output_buffer := output_buffer e;
     ref := ref e |}.

Definition set_protector_mu (v : bool) (e : secure_endpoint)
  : secure_endpoint :=
  {| wrapped_ep := wrapped_ep e;
     protector := protector e;
     protector_mu := v;
     read_cb := read_cb e;
     write_cb := write_cb e;
     read_buffer := read_buffer e;
     source_buffer := source_buffer e;
     leftover_bytes := leftover_bytes e;
     read_staging_buffer := read_staging_buffer e;
     write_staging_buffer := write_staging_buffer e;
     output_buffer := output_buffer e;
     ref := ref e |}.

Definition set_read_cb (v : option grpc_iomgr_closure) (e : secure_endpoint)
  : secure_endpoint :=
  {| wrapped_ep := wrapped_ep e;
     protector := protector e;
     protector_mu := protector_mu e;
     read_cb := v;
     write_cb := write_cb e;
     read_buffer := read_buffer e;
     source_buffer := source_buffer e;
     leftover_bytes := leftover_bytes e;
     read_staging_buffer := read_staging_buffer e;
     write_staging_buffer := write_staging_buffer e;
     output_buffer := output_buffer e;
     ref := ref e |}.

Definition set_read_buffer (v : bool) (e : secure_endpoint)
  : secure_endpoint :=
  {| wrapped_ep := wrapped_ep e;
     protector := protector e;
     protector_mu := protector_mu e;
     read_cb := read_cb e;
     write_cb := write_cb e;
     read_buffer := v;
     source_buffer := source_buffer e;
     leftover_bytes := leftover_bytes e;
     read_staging_buffer := read_staging_buffer e;
     write_staging_buffer := write_staging_buffer e;
     output_buffer := output_buffer e;
     ref := ref e |}.

Definition set_source_buffer (v : gpr_slice_buffer) (e : secure_endpoint)
  : secure_endpoint :=
  {| wrapped_ep := wrapped_ep e;
     protector := protector e;
     protector_mu := protector_mu e;
     read_cb := read_cb e;
     write_cb := write_cb e;
     read_buffer := read_buffer e;
     source_buffer := v;
     leftover_bytes := leftover_bytes e;
     read_staging_buffer := read_staging_buffer e;
     write_staging_buffer := write_staging_buffer e;
     output_buffer := output_buffer e;
     ref := ref e |}.

Definition set_leftover_bytes (v : gpr_slice_buffer) (e : secure_endpoint)
  : secure_endpoint :=
  {| wrapped_ep := wrapped_ep e;
     protector := protector e;
     protector_mu := protector_mu e;
     read_cb := read_cb e;
     write_cb := write_cb e;
     read_buffer := read_buffer e;
     source_buffer := source_buffer e;
     leftover_bytes := v;
     read_staging_buffer := read_staging_buffer e;
     write_staging_buffer := write_staging_buffer e;
     output_buffer := output_buffer e;
     ref := ref e |}.

Definition set_read_staging_buffer (v : gpr_slice) (e : secure_endpoint)
  : secure_endpoint :=
  {| wrapped_ep := wrapped_ep e;
     protector := protector e;
     protector_mu := protector_mu e;
     read_cb := read_cb e;
     write_cb := write_cb e;
     read_buffer := read_buffer e;
     source_buffer := source_buffer e;
     leftover_bytes := leftover_bytes e;
     read_staging_buffer := v;
     write_staging_buffer := write_staging_buffer e;
     output_buffer := output_buffer e;
     ref := ref e |}.

Definition set_write_staging_buffer (v : gpr_slice) (e : secure_endpoint)
  : secure_endpoint :=
  {| wrapped_ep := wrapped_ep e;
     protector := protector e;
     protector_mu := protector_mu e;
     read_cb := read_cb e;
     write_cb := write_cb e;
     read_buffer := read_buffer e;
     source_buffer := source_buffer e;
     leftover_bytes := leftover_bytes e;
     read_staging_buffer := read_staging_buffer e;
     write_staging_buffer := v;
     output_buffer := output_buffer e;
     ref := ref e |}.

Definition set_output_buffer (v : gpr_slice_buffer) (e : secure_endpoint)
  : secure_endpoint :=
  {| wrapped_ep := wrapped_ep e;
     protector := protector e;
     protector_mu := protector_mu e;
     read_cb := read_cb e;
     write_cb := write_cb e;
     read_buffer := read_buffer e;
     source_buffer := source_buffer e;
     leftover_bytes := leftover_bytes e;
     read_staging_buffer := read_staging_buffer e;
     write_staging_buffer := write_staging_buffer e;
     output_buffer := v;
     ref := ref e |}.

Definition set_ref (v : Z) (e : secure_endpoint)
  : secure_endpoint :=
  {| wrapped_ep := wrapped_ep e;
     protector := protector e;
     protector_mu := protector_mu e;
     read_cb := read_cb e;
     write_cb := write_cb e;
     read_buffer := read_buffer e;
     source_buffer := source_buffer e;
     leftover_bytes := leftover_bytes e;
     read_staging_buffer := read_staging_buffer e;
     write_staging_buffer := write_staging_buffer e;
     output_buffer := output_buffer e;
     ref := v |}.


Local Notation "x <- m ;; k" := (bind m (fun x => k))
  (at level 61, m at next level, right associativity).
Local Notation "' pat <- m ;; k" :=
  (bind m (fun x => match x with pat => k end))
  (at level 61, pat pattern, m at next level, right associativity).
Local Notation "m ;; k" := (bind m (fun _ => k))
  (at level 61, right associativity).

(* ------------------------------------------------------------------ *)
(** ** Calls to the collaborators                                      *)
(* ------------------------------------------------------------------ *)

Definition gpr_mu_lock : M unit :=
  modify_ep (set_protector_mu true) ;; emit EvMuLock.

Definition gpr_mu_unlock : M unit :=
  modify_ep (set_protector_mu false) ;; emit EvMuUnlock.

(** tsi_frame_protector_unprotect(ep->protector, message_bytes,
    &processed_message_size, cur, &unprotected_buffer_size_written), with
    [cur] pointing into the read staging buffer. *)
Definition tsi_frame_protector_unprotect
    (message_bytes : list gpr_uint8) (cur cap : nat)
  : M (tsi_result * nat * list gpr_uint8) :=
  e <- get_ep ;;
  let '(result, p, processed, out) :=
    tsi_unprotect (protector e) message_bytes cap in
  modify_ep (set_protector p) ;;
  modify_ep (set_read_staging_buffer
               (write_at (read_staging_buffer e) cur out)) ;;
  emit (EvUnprotect (length message_bytes) cap result processed
                    (length out)) ;;
  ret (result, processed, out).

(** tsi_frame_protector_protect, with [cur] pointing into the write
    staging buffer. *)
Definition tsi_frame_protector_protect
    (message_bytes : list gpr_uint8) (cur cap : nat)
  : M (tsi_result * nat * list gpr_uint8) :=
  e <- get_ep ;;
  let '(result, p, processed, out) :=
    tsi_protect (protector e) message_bytes cap in
  modify_ep (set_protector p) ;;
  modify_ep (set_write_staging_buffer
               (write_at (write_staging_buffer e) cur out)) ;;
  emit (EvProtect (length message_bytes) cap result processed
                  (length out)) ;;
  ret (result, processed, out).

(** tsi_frame_protector_protect_flush. *)
Definition tsi_frame_protector_protect_flush (cur cap : nat)
  : M (tsi_result * list gpr_uint8 * nat) :=
  e <- get_ep ;;
  let '(result, p, out, still_pending) :=
    tsi_protect_flush (protector e) cap in
  modify_ep (set_protector p) ;;
  modify_ep (set_write_staging_buffer
               (write_at (write_staging_buffer e) cur out)) ;;
  emit (EvProtectFlush cap result (length out) still_pending) ;;
  ret (result, out, still_pending).

(** grpc_endpoint_read(ep->wrapped_ep, &ep->source_buffer, &ep->on_read) *)
Definition grpc_endpoint_read : M grpc_endpoint_op_status :=
  e <- get_ep ;;
  let '(t, sb, status) := wrapped_read (wrapped_ep e) (source_buffer e) in
  modify_ep (set_wrapped_ep t) ;;
  modify_ep (set_source_buffer sb) ;;
  emit (EvWrappedRead status) ;;
  ret status.

(** grpc_endpoint_write(ep->wrapped_ep, &ep->output_buffer, cb) *)
Definition grpc_endpoint_write (cb : grpc_iomgr_closure)
  : M grpc_endpoint_op_status :=
  e <- get_ep ;;
  let '(t, status) := wrapped_write (wrapped_ep e) (output_buffer e) cb in
  modify_ep (set_wrapped_ep t) ;;
  emit (EvWrappedWrite (output_buffer e) cb status) ;;
  ret status.

(** An access through [ep->read_buffer]; a NULL pointer stops the run. *)
Definition with_read_buffer (f : gpr_slice_buffer -> gpr_slice_buffer)
  : M unit :=
  e <- get_ep ;;
  if read_buffer e then modify_destination f
  else fun w => (w, Aborted).

(* ------------------------------------------------------------------ *)
(** ** Reference counting and destruction                              *)
(* ------------------------------------------------------------------ *)

(** static void destroy(secure_endpoint *secure_ep) *)
Definition destroy : M unit :=
  e <- get_ep ;;
  modify_ep (set_wrapped_ep (wrapped_destroy (wrapped_ep e))) ;;
  emit EvWrappedDestroy ;;
  emit EvProtectorDestroy ;;
  modify_ep (set_leftover_bytes []) ;;
  modify_ep (set_read_staging_buffer []) ;;
  modify_ep (set_write_staging_buffer []) ;;
  modify_ep (set_output_buffer []) ;;
  modify_ep (set_source_buffer []) ;;
  emit EvMuDestroy ;;
  emit EvFree ;;
  set_freed.

(** gpr_unref: decrements and tells whether the count reached zero. *)
Definition gpr_unref : M bool :=
  e <- get_ep ;;
  modify_ep (set_ref (ref e - 1)) ;;
  ret (ref e =? 1)%Z.

Definition gpr_ref : M unit :=
  e <- get_ep ;;
  modify_ep (set_ref (ref e + 1)).

(** static void secure_endpoint_unref(secure_endpoint *ep, ...) *)
Definition secure_endpoint_unref : M unit :=
  emit EvUnref ;;
  last <- gpr_unref ;;
  if last then destroy else ret tt.

(** static void secure_endpoint_ref(secure_endpoint *ep, ...) *)
Definition secure_endpoint_ref : M unit :=
  emit EvRef ;;
  gpr_ref.

(* ------------------------------------------------------------------ *)
(** ** The read pipeline                                               *)
(* ------------------------------------------------------------------ *)

(** static void flush_read_staging_buffer(ep, &cur, &end): the new
    values of [cur] and [end] are offsets into the new staging buffer. *)
Definition flush_read_staging_buffer : M (nat * nat) :=
  e <- get_ep ;;
  with_read_buffer (fun sb =>
    gpr_slice_buffer_add sb (read_staging_buffer e)) ;;
  modify_ep (set_read_staging_buffer
               (gpr_slice_malloc STAGING_BUFFER_SIZE)) ;;
  e <- get_ep ;;
  ret (0, length (read_staging_buffer e)).

(** static void call_read_cb(secure_endpoint *ep, int success)
    (the dump under grpc_trace_secure_endpoint only logs). *)
Definition call_read_cb (success : Z) : M unit :=
  modify_ep (set_read_buffer false) ;;
  e <- get_ep ;;
  match read_cb e with
  | Some cb => emit (EvClosure cb success)
  | None => fun w => (w, Aborted)
  end ;;
  secure_endpoint_unref.

(** The [while (message_size > 0 || keep_looping)] loop of on_read for
    one slice.  [message_bytes] is the part of the slice from the pointer
    on, so that [message_size] is its length; [cur] and [end_] are offsets
    from the start of the current read staging buffer.  One unit of fuel
    is spent per iteration; [break] returns with the failed result.
    Lines 171 and 172 move the pointer by [processed_message_size] and
    subtract it from [message_size]; [skipn] follows both as long as the
    call reports no more bytes consumed than it was handed.  For a call
    that reports more, the [size_t] subtraction wraps around and the
    pointer leaves the slice, so that the C loop goes on; [skipn] stops
    at the end of the slice instead. *)
Fixpoint on_read_while (fuel : nat) (message_bytes : list gpr_uint8)
    (cur end_ : nat) (keep_looping : bool) (result : tsi_result)
  : M (nat * nat * bool * tsi_result) :=
  if (0 <? length message_bytes) || keep_looping then
    match fuel with
    | 0 => out_of_fuel
    | S fuel' =>
      let unprotected_buffer_size_written := end_ - cur in
      gpr_mu_lock ;;
      '(result, processed_message_size, out) <-
        tsi_frame_protector_unprotect message_bytes cur
          unprotected_buffer_size_written ;;
      gpr_mu_unlock ;;
      if negb (tsi_ok result) then
        ret (cur, end_, keep_looping, result)
      else
        let message_bytes := skipn processed_message_size message_bytes in
        let cur := cur + length out in
        if cur =? end_ then
          '(cur, end_) <- flush_read_staging_buffer ;;
          on_read_while fuel' message_bytes cur end_ true result
        else if 0 <? length out then
          on_read_while fuel' message_bytes cur end_ true result
        else
          on_read_while fuel' message_bytes cur end_ false result
    end
  else ret (cur, end_, keep_looping, result).

(** The [for (i = 0; i < ep->source_buffer.count; i++)] loop of on_read. *)
Fixpoint on_read_for (fuel : nat) (slices : list gpr_slice)
    (cur end_ : nat) (keep_looping : bool) (result : tsi_result)
  : M (nat * nat * bool * tsi_result) :=
  match slices with
  | [] => ret (cur, end_, keep_looping, result)
  | encrypted :: rest =>
    '(cur, end_, keep_looping, result) <-
      on_read_while fuel encrypted cur end_ keep_looping result ;;
    if negb (tsi_ok result) then ret (cur, end_, keep_looping, result)
    else on_read_for fuel rest cur end_ keep_looping result
  end.

(** static int on_read(void *user_data, int success) *)
Definition on_read (fuel : nat) (success : Z) : M Z :=
  e <- get_ep ;;
  let cur := 0 in
  let end_ := length (read_staging_buffer e) in
  if (success =? 0)%Z then
    with_read_buffer gpr_slice_buffer_reset_and_unref ;;
    ret 0%Z
  else
    '(cur, end_, keep_looping, result) <-
      on_read_for fuel (source_buffer e) cur end_ false TSI_OK ;;
    (if negb (cur =? 0) then
       e <- get_ep ;;
       let '(head, tail) :=
         gpr_slice_split_head (read_staging_buffer e) cur in
       modify_ep (set_read_staging_buffer tail) ;;
       with_read_buffer (fun sb => gpr_slice_buffer_add sb head)
     else ret tt) ;;
    modify_ep (set_source_buffer
                 (gpr_slice_buffer_reset_and_unref (source_buffer e))) ;;
    if negb (tsi_ok result) then
      with_read_buffer gpr_slice_buffer_reset_and_unref ;;
      ret 0%Z
    else ret 1%Z.

(** static void on_read_cb(void *user_data, int success) *)
Definition on_read_cb (fuel : nat) (success : Z) : M unit :=
  r <- on_read fuel success ;;
  call_read_cb r.

(** Lines 244 to 247 of endpoint_read, reached from the Done and Error
    cases of the switch. *)
Definition endpoint_read_immediate (immediate_read_success : Z)
  : M grpc_endpoint_op_status :=
  GPR_ASSERT (negb (immediate_read_success =? -1)%Z) ;;
  secure_endpoint_unref ;;
  ret (if (immediate_read_success =? 0)%Z
       then GRPC_ENDPOINT_ERROR else GRPC_ENDPOINT_DONE).

(** static grpc_endpoint_op_status endpoint_read(secure_ep, slices, cb) *)
Definition endpoint_read (fuel : nat) (slices : gpr_slice_buffer)
    (cb : grpc_iomgr_closure) : M grpc_endpoint_op_status :=
  modify_ep (set_read_cb (Some cb)) ;;
  modify_ep (set_read_buffer true) ;;
  modify_destination (fun _ => slices) ;;
  with_read_buffer gpr_slice_buffer_reset_and_unref ;;
  e <- get_ep ;;
  if negb (length (leftover_bytes e) =? 0) then
    (let '(l, s) :=
       gpr_slice_buffer_swap (leftover_bytes e) (source_buffer e) in
     modify_ep (set_leftover_bytes l) ;;
     modify_ep (set_source_buffer s)) ;;
    e <- get_ep ;;
    GPR_ASSERT (length (leftover_bytes e) =? 0) ;;
    r <- on_read fuel 1 ;;
    ret (if (r =? 0)%Z then GRPC_ENDPOINT_ERROR else GRPC_ENDPOINT_DONE)
  else
    secure_endpoint_ref ;;
    status <- grpc_endpoint_read ;;
    match status with
    | GRPC_ENDPOINT_DONE =>
      immediate_read_success <- on_read fuel 1 ;;
      endpoint_read_immediate immediate_read_success
    | GRPC_ENDPOINT_PENDING => ret GRPC_ENDPOINT_PENDING
    | GRPC_ENDPOINT_ERROR =>
      immediate_read_success <- on_read fuel 0 ;;
      endpoint_read_immediate immediate_read_success
    end.

(* ------------------------------------------------------------------ *)
(** ** The write pipeline                                              *)
(* ------------------------------------------------------------------ *)

(** static void flush_write_staging_buffer(ep, &cur, &end) *)
Definition flush_write_staging_buffer : M (nat * nat) :=
  e <- get_ep ;;
  modify_ep (set_output_buffer
               (gpr_slice_buffer_add (output_buffer e)
                                     (write_staging_buffer e))) ;;
  modify_ep (set_write_staging_buffer
               (gpr_slice_malloc STAGING_BUFFER_SIZE)) ;;
  e <- get_ep ;;
  ret (0, length (write_staging_buffer e)).

(** The [while (message_size > 0)] loop of endpoint_write for one slice.
    As in on_read, [skipn] follows lines 295 and 296 as long as the call
    reports no more bytes consumed than it was handed; for a call that
    reports more, the [size_t] subtraction wraps around and the C loop
    goes on, where [skipn] stops at the end of the slice. *)
Fixpoint endpoint_write_while (fuel : nat) (message_bytes : list gpr_uint8)
    (cur end_ : nat) (result : tsi_result)
  : M (nat * nat * tsi_result) :=
  if 0 <? length message_bytes then
    match fuel with
    | 0 => out_of_fuel
    | S fuel' =>
      let protected_buffer_size_to_send := end_ - cur in
      gpr_mu_lock ;;
      '(result, processed_message_size, out) <-
        tsi_frame_protector_protect message_bytes cur
          protected_buffer_size_to_send ;;
      gpr_mu_unlock ;;
      if negb (tsi_ok result) then ret (cur, end_, result)
      else
        let message_bytes := skipn processed_message_size message_bytes in
        let cur := cur + length out in
        if cur =? end_ then
          '(cur, end_) <- flush_write_staging_buffer ;;
          endpoint_write_while fuel' message_bytes cur end_ result
        else
          endpoint_write_while fuel' message_bytes cur end_ result
    end
  else ret (cur, end_, result).

(** The [for (i = 0; i < slices->count; i++)] loop of endpoint_write. *)
Fixpoint endpoint_write_for (fuel : nat) (slices : list gpr_slice)
    (cur end_ : nat) (result : tsi_result)
  : M (nat * nat * tsi_result) :=
  match slices with
  | [] => ret (cur, end_, result)
  | plain :: rest =>
    '(cur, end_, result) <-
      endpoint_write_while fuel plain cur end_ result ;;
    if negb (tsi_ok result) then ret (cur, end_, result)
    else endpoint_write_for fuel rest cur end_ result
  end.

(** The [do { ... } while (still_pending_size > 0)] loop of
    endpoint_write: the body runs before the test, and one unit of fuel
    is spent each time the test sends control back. *)
Fixpoint endpoint_write_flush (fuel : nat) (cur end_ : nat)
  : M (nat * nat * tsi_result) :=
  let protected_buffer_size_to_send := end_ - cur in
  gpr_mu_lock ;;
  '(result, out, still_pending_size) <-
    tsi_frame_protector_protect_flush cur protected_buffer_size_to_send ;;
  gpr_mu_unlock ;;
  if negb (tsi_ok result) then ret (cur, end_, result)
  else
    let cur := cur + length out in
    '(cur, end_) <-
      (if cur =? end_ then flush_write_staging_buffer
       else ret (cur, end_)) ;;
    if 0 <? still_pending_size then
      match fuel with
      | 0 => out_of_fuel
      | S fuel' => endpoint_write_flush fuel' cur end_
      end
    else ret (cur, end_, result).

(** static grpc_endpoint_op_status endpoint_write(secure_ep, slices, cb)
    (the dump under grpc_trace_secure_endpoint only logs). *)
Definition endpoint_write (fuel : nat) (slices : gpr_slice_buffer)
    (cb : grpc_iomgr_closure) : M grpc_endpoint_op_status :=
  e <- get_ep ;;
  let cur := 0 in
  let end_ := length (write_staging_buffer e) in
  modify_ep (set_output_buffer
               (gpr_slice_buffer_reset_and_unref (output_buffer e))) ;;
  '(cur, end_, result) <- endpoint_write_for fuel slices cur end_ TSI_OK ;;
  '(cur, end_, result) <-
    (if tsi_ok result then
       '(cur, end_, result) <- endpoint_write_flush fuel cur end_ ;;
       (if negb (cur =? 0) then
          e <- get_ep ;;
          let '(head, tail) :=
            gpr_slice_split_head (write_staging_buffer e) cur in
          modify_ep (set_write_staging_buffer tail) ;;
          modify_ep (set_output_buffer
                       (gpr_slice_buffer_add (output_buffer e) head))
        else ret tt) ;;
       ret (cur, end_, result)
     else ret (cur, end_, result)) ;;
  if negb (tsi_ok result) then
    e <- get_ep ;;
    modify_ep (set_output_buffer
                 (gpr_slice_buffer_reset_and_unref (output_buffer e))) ;;
    ret GRPC_ENDPOINT_ERROR
  else grpc_endpoint_write cb.

(* ------------------------------------------------------------------ *)
(** ** The rest of the vtable, and creation                            *)
(* ------------------------------------------------------------------ *)

(** static void endpoint_shutdown(grpc_endpoint *secure_ep) *)
Definition endpoint_shutdown : M unit :=
  e <- get_ep ;;
  modify_ep (set_wrapped_ep (wrapped_shutdown (wrapped_ep e))) ;;
  emit EvWrappedShutdown.

(** static void endpoint_destroy(grpc_endpoint *secure_ep) *)
Definition endpoint_destroy : M unit := secure_endpoint_unref.

(** grpc_endpoint *grpc_secure_endpoint_create(protector, transport,
    leftover_slices, leftover_nslices): the saved callbacks are not
    initialised, the destination pointer is NULL, the count is 1. *)
Definition grpc_secure_endpoint_create (protector0 : P) (transport : T)
    (leftover_slices : list gpr_slice) : world :=
  {| ep := {| wrapped_ep := transport;
              protector := protector0;
              protector_mu := false;
              read_cb := None;
              write_cb := None;
              read_buffer := false;
              source_buffer := [];
              leftover_bytes :=
                fold_left gpr_slice_buffer_add leftover_slices [];
              read_staging_buffer := gpr_slice_malloc STAGING_BUFFER_SIZE;
              write_staging_buffer := gpr_slice_malloc STAGING_BUFFER_SIZE;
              output_buffer := [];
              ref := 1 |};
     destination := [];
     freed := false;
     trace := [] |}.

(* ------------------------------------------------------------------ *)
(** ** Worlds reached by the steps of the loops                        *)
(* ------------------------------------------------------------------ *)

(** The world after [gpr_mu_lock; unprotect; gpr_mu_unlock]. *)
Definition after_unprotect (w : world) (message_bytes : list gpr_uint8)
    (cur cap : nat) : world :=
  let '(result, p, processed, out) :=
    tsi_unprotect (protector (ep w)) message_bytes cap in
  {| ep := set_protector_mu false
             (set_read_staging_buffer
                (write_at (read_staging_buffer (ep w)) cur out)
                (set_protector p (ep w)));
     destination := destination w;
     freed := freed w;
     trace := trace w ++
              [EvMuLock;
               EvUnprotect (length message_bytes) cap result processed
                           (length out);
               EvMuUnlock] |}.

(** The world after [gpr_mu_lock; protect; gpr_mu_unlock]. *)
Definition after_protect (w : world) (message_bytes : list gpr_uint8)
    (cur cap : nat) : world :=
  let '(result, p, processed, out) :=
    tsi_protect (protector (ep w)) message_bytes cap in
  {| ep := set_protector_mu false
             (set_write_staging_buffer
                (write_at (write_staging_buffer (ep w)) cur out)
                (set_protector p (ep w)));
     destination := destination w;
     freed := freed w;
     trace := trace w ++
              [EvMuLock;
               EvProtect (length message_bytes) cap result processed
                         (length out);
               EvMuUnlock] |}.

(** The world after [gpr_mu_lock; protect_flush; gpr_mu_unlock]. *)
Definition after_protect_flush (w : world) (cur cap : nat) : world :=
  let '(result, p, out, still_pending) :=
    tsi_protect_flush (protector (ep w)) cap in
  {| ep := set_protector_mu false
             (set_write_staging_buffer
                (write_at (write_staging_buffer (ep w)) cur out)
                (set_protector p (ep w)));
     destination := destination w;
     freed := freed w;
     trace := trace w ++
              [EvMuLock;
               EvProtectFlush cap result (length out) still_pending;
               EvMuUnlock] |}.

(** The world after flush_read_staging_buffer, when the destination
    pointer is set. *)
Definition sealed_read (w : world) : world :=
  {| ep := set_read_staging_buffer (gpr_slice_malloc STAGING_BUFFER_SIZE)
                                   (ep w);
     destination :=
       gpr_slice_buffer_add (destination w) (read_staging_buffer (ep w));
     freed := freed w;
     trace := trace w |}.

(** The world after flush_write_staging_buffer. *)
Definition sealed_write (w : world) : world :=
  {| ep := set_write_staging_buffer (gpr_slice_malloc STAGING_BUFFER_SIZE)
             (set_output_buffer
                (gpr_slice_buffer_add (output_buffer (ep w))
                                      (write_staging_buffer (ep w)))
                (ep w));
     destination := destination w;
     freed := freed w;
     trace := trace w |}.

(* ------------------------------------------------------------------ *)
(** ** Reading traces                                                  *)
(* ------------------------------------------------------------------ *)

(** The events of a run from [w] to [w']. *)
Definition trace_since (w w' : world) : list event :=
  skipn (length (trace w)) (trace w').

Definition is_call (e : event) : bool :=
  match e with
  | EvUnprotect _ _ _ _ _ | EvProtect _ _ _ _ _ | EvProtectFlush _ _ _ _ =>
    true
  | _ => false
  end.

Definition is_unprotect (e : event) : bool :=
  match e with EvUnprotect _ _ _ _ _ => true | _ => false end.

Definition is_protect_flush (e : event) : bool :=
  match e with EvProtectFlush _ _ _ _ => true | _ => false end.

Definition is_wrapped_write (e : event) : bool :=
  match e with EvWrappedWrite _ _ _ => true | _ => false end.

Definition is_closure (cb : grpc_iomgr_closure) (e : event) : bool :=
  match e with EvClosure cb' _ => cb' =? cb | _ => false end.

Definition is_ref_change (e : event) : bool :=
  match e with EvRef | EvUnref => true | _ => false end.

(** The result of a protector call; [TSI_OK] for the other events. *)
Definition call_result (e : event) : tsi_result :=
  match e with
  | EvUnprotect _ _ r _ _ | EvProtect _ _ r _ _ | EvProtectFlush _ r _ _ => r
  | _ => TSI_OK
  end.

Definition call_failed (e : event) : bool :=
  is_call e && negb (tsi_ok (call_result e)).

(** The protector calls of a trace, in order. *)
Definition calls (evs : list event) : list event := filter is_call evs.

(** One protector call under the mutex. *)
Definition locked (c : event) : list event := [EvMuLock; c; EvMuUnlock].

(** What the read loops leave alone. *)
Definition frame_read (w w' : world) : Prop :=
  wrapped_ep (ep w') = wrapped_ep (ep w) /\
  read_cb (ep w') = read_cb (ep w) /\
  write_cb (ep w') = write_cb (ep w) /\
  read_buffer (ep w') = read_buffer (ep w) /\
  source_buffer (ep w') = source_buffer (ep w) /\
  leftover_bytes (ep w') = leftover_bytes (ep w) /\
  write_staging_buffer (ep w') = write_staging_buffer (ep w) /\
  output_buffer (ep w') = output_buffer (ep w) /\
  ref (ep w') = ref (ep w) /\
  freed w' = freed w.

(** What the write loops leave alone. *)
Definition frame_write (w w' : world) : Prop :=
  wrapped_ep (ep w') = wrapped_ep (ep w) /\
  read_cb (ep w') = read_cb (ep w) /\
  write_cb (ep w') = write_cb (ep w) /\
  read_buffer (ep w') = read_buffer (ep w) /\
  source_buffer (ep w') = source_buffer (ep w) /\
  leftover_bytes (ep w') = leftover_bytes (ep w) /\
  read_staging_buffer (ep w') = read_staging_buffer (ep w) /\
  destination w' = destination w /\
  ref (ep w') = ref (ep w) /\
  freed w' = freed w.

Definition call_ok (c : event) : Prop := tsi_ok (call_result c) = true.

(** The calls [cs] of a loop that stopped with [result]: every call
    succeeded, except the last one when the result is a failure. *)
Definition stopped_with (cs : list event) (result : tsi_result) : Prop :=
  if tsi_ok result then Forall call_ok cs
  else exists pre c, cs = pre ++ [c] /\ Forall call_ok pre /\
                     call_result c = result.

(** The world on_read leaves after its loops stopped in [w1] with the
    cursor at [cur] and with [result] (lines 191 to 206), when the
    destination pointer is set. *)
Definition on_read_finish (w1 : world) (cur : nat) (result : tsi_result)
  : world :=
  {| ep := set_source_buffer []
             (if cur =? 0 then ep w1
              else set_read_staging_buffer
                     (skipn cur (read_staging_buffer (ep w1))) (ep w1));
     destination :=
       if tsi_ok result then
         if cur =? 0 then destination w1
         else gpr_slice_buffer_add (destination w1)
                (firstn cur (read_staging_buffer (ep w1)))
       else [];
     freed := freed w1;
     trace := trace w1 |}.

(** The world with the destination list emptied. *)
Definition reset_destination (w : world) : world :=
  {| ep := ep w; destination := []; freed := freed w; trace := trace w |}.

(** The world with the output list emptied. *)
Definition reset_output (w : world) : world :=
  {| ep := set_output_buffer [] (ep w); destination := destination w;
     freed := freed w; trace := trace w |}.

(** The world after lines 320 to 326 of endpoint_write. *)
Definition write_split (w : world) (cur : nat) : world :=
  if cur =? 0 then w
  else
    {| ep := set_output_buffer
               (gpr_slice_buffer_add (output_buffer (ep w))
                  (firstn cur (write_staging_buffer (ep w))))
               (set_write_staging_buffer
                  (skipn cur (write_staging_buffer (ep w))) (ep w));
       destination := destination w;
       freed := freed w;
       trace := trace w |}.

(** The world after grpc_endpoint_write(ep->wrapped_ep,
    &ep->output_buffer, cb). *)
Definition after_wrapped_write (w : world) (cb : grpc_iomgr_closure)
  : world :=
  {| ep := set_wrapped_ep
             (fst (wrapped_write (wrapped_ep (ep w))
                                 (output_buffer (ep w)) cb))
             (ep w);
     destination := destination w;
     freed := freed w;
     trace := trace w ++
              [EvWrappedWrite (output_buffer (ep w)) cb
                 (snd (wrapped_write (wrapped_ep (ep w))
                                     (output_buffer (ep w)) cb))] |}.

(** The number of bytes a flush call reported as still pending. *)
Definition still_pending_of (e : event) : nat :=
  match e with EvProtectFlush _ _ _ n => n | _ => 0 end.

(** A flush call after which the [do ... while] loop goes round again. *)
Definition flush_again (c : event) : Prop :=
  is_protect_flush c = true /\ call_ok c /\ 0 < still_pending_of c.

(** A flush call after which the loop is left without a failure. *)
Definition flush_done (c : event) : Prop :=
  is_protect_flush c = true /\ call_ok c /\ still_pending_of c = 0.

Definition is_protect (e : event) : bool :=
  match e with EvProtect _ _ _ _ _ => true | _ => false end.

(** The runs of endpoint_write from [w] to [w'] with completion [cb]:
    - sent: every protect call succeeded, then every flush call but the
      last succeeded with bytes pending, the last one succeeded with
      nothing pending, and the output list went to the wrapped write;
    - failed: every call but the last succeeded, the last one failed,
      the output list is empty and the result is an error;
    - still running when the fuel was spent: every call so far
      succeeded. *)
Inductive write_run (w w' : world) (cb : grpc_iomgr_closure)
  : outcome grpc_endpoint_op_status -> Prop :=
| write_sent ps pre c status :
    Forall (fun e => is_protect e = true) ps ->
    Forall call_ok ps ->
    Forall flush_again pre ->
    flush_done c ->
    trace w' = trace w ++ flat_map locked (ps ++ pre ++ [c]) ++
               [EvWrappedWrite (output_buffer (ep w')) cb status] ->
    write_run w w' cb (Returns status)
| write_failed pre c :
    Forall (fun e => is_call e = true) pre ->
    Forall call_ok pre ->
    is_call c = true ->
    tsi_ok (call_result c) = false ->
    trace w' = trace w ++ flat_map locked (pre ++ [c]) ->
    output_buffer (ep w') = [] ->
    wrapped_ep (ep w') = wrapped_ep (ep w) ->
    write_run w w' cb (Returns GRPC_ENDPOINT_ERROR)
| write_running cs :
    Forall (fun e => is_call e = true) cs ->
    Forall call_ok cs ->
    trace w' = trace w ++ flat_map locked cs ->
    write_run w w' cb OutOfFuel.

(** What endpoint_write leaves alone. *)
Definition write_keeps (w w' : world) : Prop :=
  read_cb (ep w') = read_cb (ep w) /\
  write_cb (ep w') = write_cb (ep w) /\
  read_buffer (ep w') = read_buffer (ep w) /\
  source_buffer (ep w') = source_buffer (ep w) /\
  leftover_bytes (ep w') = leftover_bytes (ep w) /\
  read_staging_buffer (ep w') = read_staging_buffer (ep w) /\
  destination w' = destination w /\
  ref (ep w') = ref (ep w) /\
  freed w' = freed w.

(** What on_read leaves alone. *)
Definition read_keeps (w w' : world) : Prop :=
  wrapped_ep (ep w') = wrapped_ep (ep w) /\
  read_cb (ep w') = read_cb (ep w) /\
  write_cb (ep w') = write_cb (ep w) /\
  read_buffer (ep w') = read_buffer (ep w) /\
  leftover_bytes (ep w') = leftover_bytes (ep w) /\
  write_staging_buffer (ep w') = write_staging_buffer (ep w) /\
  output_buffer (ep w') = output_buffer (ep w) /\
  ref (ep w') = ref (ep w) /\
  freed w' = freed w.

(** The runs of on_read from [w] to [w'] when the transport succeeded:
    - drained: every unprotect call succeeded, the source list is empty
      and the result is 1;
    - failed: every call but the last succeeded, the last one failed,
      the source and destination lists are empty and the result is 0;
    - still running when the fuel was spent. *)
Inductive drain_run (w w' : world) : outcome Z -> Prop :=
| drain_done cs :
    Forall (fun e => is_unprotect e = true) cs ->
    Forall call_ok cs ->
    trace w' = trace w ++ flat_map locked cs ->
    source_buffer (ep w') = [] ->
    drain_run w w' (Returns 1%Z)
| drain_failed pre c :
    Forall (fun e => is_unprotect e = true) (pre ++ [c]) ->
    Forall call_ok pre ->
    tsi_ok (call_result c) = false ->
    trace w' = trace w ++ flat_map locked (pre ++ [c]) ->
    source_buffer (ep w') = [] ->
    destination w' = [] ->
    drain_run w w' (Returns 0%Z)
| drain_running cs :
    Forall (fun e => is_unprotect e = true) cs ->
    Forall call_ok cs ->
    trace w' = trace w ++ flat_map locked cs ->
    drain_run w w' OutOfFuel.

(** The world after destroy(ep). *)
Definition after_destroy (w : world) : world :=
  {| ep := set_source_buffer []
             (set_output_buffer []
                (set_write_staging_buffer []
                   (set_read_staging_buffer []
                      (set_leftover_bytes []
                         (set_wrapped_ep (wrapped_destroy (wrapped_ep (ep w)))
                                         (ep w))))));
     destination := destination w;
     freed := true;
     trace := trace w ++
              [EvWrappedDestroy; EvProtectorDestroy; EvMuDestroy; EvFree] |}.

(** The world after SECURE_ENDPOINT_UNREF(ep, ...). *)
Definition after_unref (w : world) : world :=
  let w1 := {| ep := set_ref (ref (ep w) - 1) (ep w);
               destination := destination w;
               freed := freed w;
               trace := trace w ++ [EvUnref] |} in
  if (ref (ep w) =? 1)%Z then after_destroy w1 else w1.

(** The world after SECURE_ENDPOINT_REF(ep, ...). *)
Definition after_ref (w : world) : world :=
  {| ep := set_ref (ref (ep w) + 1) (ep w);
     destination := destination w;
     freed := freed w;
     trace := trace w ++ [EvRef] |}.

(** The world after lines 220 to 222 of endpoint_read. *)
Definition read_started (w : world) (cb : grpc_iomgr_closure) : world :=
  {| ep := set_read_buffer true (set_read_cb (Some cb) (ep w));
     destination := [];
     freed := freed w;
     trace := trace w |}.

(** The world after gpr_slice_buffer_swap(&ep->leftover_bytes,
    &ep->source_buffer). *)
Definition swapped (w : world) : world :=
  {| ep := set_source_buffer (leftover_bytes (ep w))
             (set_leftover_bytes (source_buffer (ep w)) (ep w));
     destination := destination w;
     freed := freed w;
     trace := trace w |}.

(** The world after grpc_endpoint_read(ep->wrapped_ep,
    &ep->source_buffer, &ep->on_read), and its answer. *)
Definition wrapped_read_status (w : world) : grpc_endpoint_op_status :=
  snd (wrapped_read (wrapped_ep (ep w)) (source_buffer (ep w))).

Definition after_wrapped_read (w : world) : world :=
  let '(t, sb, status) :=
    wrapped_read (wrapped_ep (ep w)) (source_buffer (ep w)) in
  {| ep := set_source_buffer sb (set_wrapped_ep t (ep w));
     destination := destination w;
     freed := freed w;
     trace := trace w ++ [EvWrappedRead status] |}.

(** The status endpoint_read makes of the result of on_read. *)
Definition status_of (r : Z) : grpc_endpoint_op_status :=
  if (r =? 0)%Z then GRPC_ENDPOINT_ERROR else GRPC_ENDPOINT_DONE.

Definition is_mu (e : event) : bool :=
  match e with EvMuLock | EvMuUnlock => true | _ => false end.

Definition is_any_closure (e : event) : bool :=
  match e with EvClosure _ _ => true | _ => false end.

(** An event that is neither a protector call, nor a mutex operation,
    nor the invocation of a closure. *)
Definition quiet (e : event) : Prop :=
  is_call e = false /\ is_mu e = false /\ is_any_closure e = false.

(* ------------------------------------------------------------------ *)
(** ** The endpoint in use                                             *)
(* ------------------------------------------------------------------ *)

(** Modelled from the spec: the wrapped transport completes a pending
    read by leaving what it received in the source list it was handed
    and invoking the resumption closure, which runs on_read_cb. *)
Definition transport_delivers (received : gpr_slice_buffer) (w : world)
  : world :=
  {| ep := set_source_buffer received (ep w);
     destination := destination w;
     freed := freed w;
     trace := trace w |}.

(** The calls made on an endpoint by its two users: the application
    (read, write, shutdown, destroy) and the wrapped transport, which
    completes a pending read with what it received and a success flag. *)
Inductive api_call : Type :=
| CallRead (slices : gpr_slice_buffer) (cb : grpc_iomgr_closure)
| CallWrite (slices : gpr_slice_buffer) (cb : grpc_iomgr_closure)
| CallShutdown
| CallDestroy
| ReadCompletes (received : gpr_slice_buffer) (success : Z).

(** An endpoint in use: its world, whether a read is pending in the
    wrapped transport, and whether the application has called destroy. *)
Record session : Type := {
  sw : world;
  read_pending : bool;
  destroy_called : bool
}.

(** One call on a session.  The endpoint contract of the spec is the
    side condition: the application issues no read while one is pending,
    calls destroy at most once and nothing after it; the transport
    completes a read only when one is pending.  A call outside the
    contract, or one that does not return, ends the session ([None]). *)
Definition api_step (fuel : nat) (s : session) (c : api_call)
  : option session :=
  match c with
  | CallRead slices cb =>
    if read_pending s || destroy_called s then None
    else
      match endpoint_read fuel slices cb (sw s) with
      | (w', Returns status) =>
        Some {| sw := w';
                read_pending :=
                  match status with
                  | GRPC_ENDPOINT_PENDING => true
                  | _ => false
                  end;
                destroy_called := false |}
      | _ => None
      end
  | CallWrite slices cb =>
    if destroy_called s then None
    else
      match endpoint_write fuel slices cb (sw s) with
      | (w', Returns _) =>
        Some {| sw := w'; read_pending := read_pending s;
                destroy_called := false |}
      | _ => None
      end
  | CallShutdown =>
    if destroy_called s then None
    else
      Some {| sw := fst (endpoint_shutdown (sw s));
              read_pending := read_pending s;
              destroy_called := false |}
  | CallDestroy =>
    if destroy_called s then None
    else
      Some {| sw := fst (endpoint_destroy (sw s));
              read_pending := read_pending s;
              destroy_called := true |}
  | ReadCompletes received success =>
    if read_pending s then
      match on_read_cb fuel success (transport_delivers received (sw s)) with
      | (w', Returns _) =>
        Some {| sw := w'; read_pending := false;
                destroy_called := destroy_called s |}
      | _ => None
      end
    else None
  end.

(** A sequence of calls, from the left. *)
Fixpoint api_run (fuel : nat) (s : session) (cs : list api_call)
  : option session :=
  match cs with
  | [] => Some s
  | c :: rest =>
    match api_step fuel s c with
    | Some s' => api_run fuel s' rest
    | None => None
    end
  end.

(** The session that starts at grpc_secure_endpoint_create. *)
Definition api_create (protector0 : P) (transport : T)
    (leftover_slices : list gpr_slice) : session :=
  {| sw := grpc_secure_endpoint_create protector0 transport leftover_slices;
     read_pending := false;
     destroy_called := false |}.

Definition is_read_call (c : api_call) : bool :=
  match c with CallRead _ _ => true | _ => false end.

(** The sentence of the spec on the completion of a read, for one run of
    on_read: when it returns, the source scratch list is empty. *)
Definition completion_releases_source (fuel : nat) (success : Z)
    (w : world) : Prop :=
  forall w' r, on_read fuel success w = (w', Returns r) ->
               source_buffer (ep w') = [].

(** What holds of every session reached from grpc_secure_endpoint_create:
    the count is one for the application until it calls destroy, plus one
    for a pending read; the endpoint is freed when and only when the
    count is zero; while a read is pending the destination pointer and
    the saved callback are set and the leftover list is empty; and the
    leftover list or the source list is empty. *)
Definition session_inv (s : session) : Prop :=
  ref (ep (sw s)) =
    ((if destroy_called s then 0 else 1) +
     (if read_pending s then 1 else 0))%Z /\
  freed (sw s) = (ref (ep (sw s)) =? 0)%Z /\
  (read_pending s = true ->
   read_buffer (ep (sw s)) = true /\
   (exists cb, read_cb (ep (sw s)) = Some cb) /\
   leftover_bytes (ep (sw s)) = []) /\
  (leftover_bytes (ep (sw s)) = [] \/ source_buffer (ep (sw s)) = []).

(* ------------------------------------------------------------------ *)
(** ** The mutex and the two directions                                *)
(* ------------------------------------------------------------------ *)

(** A trace in which the mutex is taken only around one protector call
    at a time: every call stands between a lock and an unlock, and no
    other lock or unlock occurs. *)
Fixpoint well_locked (evs : list event) : bool :=
  match evs with
  | [] => true
  | EvMuLock :: c :: EvMuUnlock :: rest => is_call c && well_locked rest
  | e :: rest => negb (is_mu e) && negb (is_call e) && well_locked rest
  end.

(** The read direction of an endpoint runs endpoint_read and on_read_cb,
    the write direction runs endpoint_write; they may run on two
    threads. *)
Inductive direction : Type := ReadDirection | WriteDirection.

Definition direction_eqb (a b : direction) : bool :=
  match a, b with
  | ReadDirection, ReadDirection | WriteDirection, WriteDirection => true
  | _, _ => false
  end.

(** An operation of the read direction and its world at the end. *)
Inductive read_operation : Type :=
| OpRead (slices : gpr_slice_buffer) (cb : grpc_iomgr_closure)
| OpReadCompletes (success : Z).

Definition run_read_operation (fuel : nat) (op : read_operation)
    (w : world) : world :=
  match op with
  | OpRead slices cb => fst (endpoint_read fuel slices cb w)
  | OpReadCompletes success => fst (on_read_cb fuel success w)
  end.

(** An execution of the two directions side by side: their events, each
    with the direction that made it, in the order they happened. *)
Definition execution : Type := list (direction * event).

(** The events of one direction. *)
Definition events_of (d : direction) (tr : execution) : list event :=
  map snd (filter (fun x => direction_eqb (fst x) d) tr).

(** Modelled from the spec: gpr_mu is declared in sync.h; a mutex is
    held by at most one thread, so a lock is possible only while the
    mutex is free and an unlock only by its holder. *)
Fixpoint mutex_respected (holder : option direction) (tr : execution)
  : bool :=
  match tr with
  | [] => true
  | (d, EvMuLock) :: rest =>
    match holder with
    | None => mutex_respected (Some d) rest
    | Some _ => false
    end
  | (d, EvMuUnlock) :: rest =>
    match holder with
    | Some d' => direction_eqb d d' && mutex_respected None rest
    | None => false
    end
  | _ :: rest => mutex_respected holder rest
  end.

(** Where the protector stands in an execution: free, locked by a
    direction that has not called yet, or locked by a direction whose
    call is over. *)
Inductive phase : Type :=
| Free
| Locked (d : direction)
| Called (d : direction).

(** The lock, call and unlock events of an execution come in triples of
    one and the same direction. *)
Fixpoint serial (ph : phase) (tr : execution) : bool :=
  match tr with
  | [] => match ph with Free => true | _ => false end
  | (d, e) :: rest =>
    match ph with
    | Free =>
      match e with EvMuLock => serial (Locked d) rest | _ => false end
    | Locked d' =>
      is_call e && direction_eqb d d' && serial (Called d) rest
    | Called d' =>
      match e with
      | EvMuUnlock => direction_eqb d d' && serial Free rest
      | _ => false
      end
    end
  end.

(** The protector calls of an execution are serialized: once the other
    events are left out, it is a sequence of lock, call, unlock by one
    direction. *)
Definition serialized (tr : execution) : bool :=
  serial Free (filter (fun x => is_mu (snd x) || is_call (snd x)) tr).

Definition holder_of (ph : phase) : option direction :=
  match ph with Free => None | Locked d | Called d => Some d end.

(** What is left of the trace of direction [d] in phase [ph]. *)
Definition rest_of_direction (ph : phase) (d : direction)
    (evs : list event) : bool :=
  match ph with
  | Free => well_locked evs
  | Locked d' =>
    if direction_eqb d d' then
      match evs with
      | c :: EvMuUnlock :: rest => is_call c && well_locked rest
      | _ => false
      end
    else well_locked evs
  | Called d' =>
    if direction_eqb d d' then
      match evs with
      | EvMuUnlock :: rest => well_locked rest
      | _ => false
      end
    else well_locked evs
  end.

(* ------------------------------------------------------------------ *)
(** ** Bytes written and bytes delivered                               *)
(* ------------------------------------------------------------------ *)

(** The bytes written so far by the current write: the sealed slices of
    the output list and the staging buffer up to the cursor. *)
Definition wire_of (w : world) (cur : nat) : list gpr_uint8 :=
  bytes_of (output_buffer (ep w)) ++ firstn cur (write_staging_buffer (ep w)).

(** The bytes delivered so far by the current read: the sealed slices of
    the destination list and the staging buffer up to the cursor. *)
Definition plain_of (w : world) (cur : nat) : list gpr_uint8 :=
  bytes_of (destination w) ++ firstn cur (read_staging_buffer (ep w)).

(** The write cursor is inside the staging buffer. *)
Definition write_cursor_ok (w : world) (cur end_ : nat) : Prop :=
  end_ = length (write_staging_buffer (ep w)) /\ cur < end_.

(** The read cursor is inside the staging buffer, and the destination
    pointer is set. *)
Definition read_cursor_ok (w : world) (cur end_ : nat) : Prop :=
  end_ = length (read_staging_buffer (ep w)) /\ cur < end_ /\
  read_buffer (ep w) = true.

(** What endpoint_read guarantees from [w] to [w'] with outcome [o]:
    the shape of its trace, the saved callback and destination pointer,
    the leftover list, the count and the memory. *)
Definition endpoint_read_post (w w' : world) (cb : grpc_iomgr_closure)
    (o : outcome grpc_endpoint_op_status) : Prop :=
  (exists head cs tail,
     trace w' = trace w ++ head ++ flat_map locked cs ++ tail /\
     Forall quiet head /\ Forall quiet tail /\
     Forall (fun e => is_unprotect e = true) cs /\
     match o with
     | Returns GRPC_ENDPOINT_DONE => Forall call_ok cs
     | Returns GRPC_ENDPOINT_ERROR =>
       destination w' = [] /\
       (cs = [] \/
        exists pre c, cs = pre ++ [c] /\ Forall call_ok pre /\
                      tsi_ok (call_result c) = false)
     | Returns GRPC_ENDPOINT_PENDING => cs = []
     | OutOfFuel => Forall call_ok cs
     | Aborted => cs = []
     end) /\
  read_cb (ep w') = Some cb /\
  read_buffer (ep w') = true /\
  (leftover_bytes (ep w) = [] \/ source_buffer (ep w) = [] ->
   o <> Aborted /\ leftover_bytes (ep w') = []) /\
  match o with
  | Returns GRPC_ENDPOINT_PENDING =>
    ref (ep w') = (ref (ep w) + 1)%Z /\ freed w' = freed w
  | Returns _ =>
    ref (ep w') = ref (ep w) /\ (ref (ep w) <> 0%Z -> freed w' = freed w)
  | _ => True
  end.

(* ------------------------------------------------------------------ *)
(** ** Sizes of the protector calls                                    *)
(* ------------------------------------------------------------------ *)

(** The size of the output region a protector call was offered. *)
Definition cap_of (e : event) : nat :=
  match e with
  | EvUnprotect _ cap _ _ _ | EvProtect _ cap _ _ _
  | EvProtectFlush cap _ _ _ => cap
  | _ => 0
  end.

(** The number of bytes a protector call reported as written. *)
Definition written_of (e : event) : nat :=
  match e with
  | EvUnprotect _ _ _ _ n | EvProtect _ _ _ _ n | EvProtectFlush _ _ n _ => n
  | _ => 0
  end.

(** The number of input bytes a protector call reported as consumed. *)
Definition processed_of (e : event) : nat :=
  match e with
  | EvUnprotect _ _ _ n _ | EvProtect _ _ _ n _ => n
  | _ => 0
  end.

(** The number of input bytes a protector call was handed. *)
Definition message_size_of (e : event) : nat :=
  match e with
  | EvUnprotect n _ _ _ _ | EvProtect n _ _ _ _ => n
  | _ => 0
  end.

Definition written_sum (cs : list event) : nat :=
  list_sum (map written_of cs).

Definition processed_sum (cs : list event) : nat :=
  list_sum (map processed_of cs).

(** Modelled from the spec: a protector call reports how many input
    bytes it consumed and how many output bytes it produced.  The C file
    advances its pointers by these sizes without a check, so it relies on
    a call consuming no more than the input it is handed and writing no
    more than the output region it is offered. *)
Definition respects_sizes : Prop :=
  (forall s msg cap,
     let '(_, _, n, out) := tsi_protect s msg cap in
     n <= length msg /\ length out <= cap) /\
  (forall s cap,
     let '(_, _, out, _) := tsi_protect_flush s cap in
     length out <= cap) /\
  (forall s msg cap,
     let '(_, _, n, out) := tsi_unprotect s msg cap in
     n <= length msg /\ length out <= cap).

(** The output region a call was offered is not empty and no larger than
    a staging buffer, and the call kept to the sizes. *)
Definition capacity_in_bounds (e : event) : Prop :=
  0 < cap_of e /\ cap_of e <= STAGING_BUFFER_SIZE /\
  written_of e <= cap_of e /\ processed_of e <= message_size_of e.

(** A staging buffer is not empty and no larger than STAGING_BUFFER_SIZE. *)
Definition staging_in_bounds (s : gpr_slice) : Prop :=
  0 < length s /\ length s <= STAGING_BUFFER_SIZE.

(** The events of destroy(ep). *)
Definition is_teardown (e : event) : bool :=
  match e with
  | EvWrappedDestroy | EvProtectorDestroy | EvMuDestroy | EvFree => true
  | _ => false
  end.

Definition is_wrapped_read (e : event) : bool :=
  match e with EvWrappedRead _ => true | _ => false end.


(** What the sessions keep of the staging buffers: every protector call
    so far was offered an output region in bounds, and as long as the
    endpoint is not freed both staging buffers are in bounds. *)
Definition staging_inv (w : world) : Prop :=
  Forall capacity_in_bounds (calls (trace w)) /\
  (freed w = false ->
   staging_in_bounds (read_staging_buffer (ep w)) /\
   staging_in_bounds (write_staging_buffer (ep w))).


(** The events of SECURE_ENDPOINT_UNREF on a count of [r]: the count is
    dropped, and destroy runs when it was the last reference. *)
Definition unref_events (r : Z) : list event :=
  EvUnref ::
  (if (r =? 1)%Z
   then [EvWrappedDestroy; EvProtectorDestroy; EvMuDestroy; EvFree]
   else []).

(** The answer of the wrapped transport to the read that endpoint_read
    issues in [w]. *)
Definition transport_answer (w : world) : grpc_endpoint_op_status :=
  snd (wrapped_read (wrapped_ep (ep w)) (source_buffer (ep w))).


(** What the sessions keep of destroy: its events are in the trace when
    and only when the endpoint is freed, once and in the order of the C
    function. *)
Definition teardown_inv (w : world) : Prop :=
  filter is_teardown (trace w) =
  if freed w
  then [EvWrappedDestroy; EvProtectorDestroy; EvMuDestroy; EvFree]
  else [].

(* ================================================================== *)
(** * Facts                                                            *)
(* ================================================================== *)

Unset Implicit Arguments.

Lemma gpr_slice_malloc_length n : length (gpr_slice_malloc n) = n.
Proof. apply repeat_length. Qed.

(** ** The loops, one iteration at a time *)

Lemma on_read_while_eq fuel msg cur end_ keep res w :
  on_read_while (S fuel) msg cur end_ keep res w =
  if (0 <? length msg) || keep then
    let w1 := after_unprotect w msg cur (end_ - cur) in
    let '(r, _, n, out) :=
      tsi_unprotect (protector (ep w)) msg (end_ - cur) in
    if negb (tsi_ok r) then (w1, Returns (cur, end_, keep, r))
    else if cur + length out =? end_ then
      if read_buffer (ep w) then
        on_read_while fuel (skipn n msg) 0
          (length (gpr_slice_malloc STAGING_BUFFER_SIZE)) true r
          (sealed_read w1)
      else (w1, Aborted)
    else
      on_read_while fuel (skipn n msg) (cur + length out) end_
        (0 <? length out) r w1
  else (w, Returns (cur, end_, keep, res)).
Proof.
  cbn [on_read_while].
  destruct ((0 <? length msg) || keep); [|reflexivity].
  unfold after_unprotect, bind, gpr_mu_lock, gpr_mu_unlock,
    tsi_frame_protector_unprotect, get_ep, modify_ep, emit, ret; cbn -[Nat.ltb Nat.eqb Nat.sub].
  destruct (tsi_unprotect (protector (ep w)) msg (end_ - cur))
    as [[[r p] n] out]; cbn -[Nat.ltb Nat.eqb Nat.sub].
  rewrite <- !app_assoc; cbn -[Nat.ltb Nat.eqb Nat.sub].
  destruct (tsi_ok r); cbn -[Nat.ltb Nat.eqb Nat.sub]; [|reflexivity].
  destruct (cur + length out =? end_); cbn -[Nat.ltb Nat.eqb Nat.sub].
  - unfold flush_read_staging_buffer, with_read_buffer, bind, get_ep,
      modify_destination, modify_ep, ret; cbn -[Nat.ltb Nat.eqb Nat.sub].
    destruct (read_buffer (ep w)); reflexivity.
  - destruct (0 <? length out); reflexivity.
Qed.


Lemma frame_read_refl w : frame_read w w.
Proof. unfold frame_read; intuition. Qed.

Lemma frame_read_trans w1 w2 w3 :
  frame_read w1 w2 -> frame_read w2 w3 -> frame_read w1 w3.
Proof. unfold frame_read; intuition congruence. Qed.

Lemma frame_read_after_unprotect w msg cur cap :
  frame_read w (after_unprotect w msg cur cap).
Proof.
  unfold frame_read, after_unprotect.
  destruct (tsi_unprotect _ _ _) as [[[r p] n] out]; cbn; intuition.
Qed.

Lemma frame_read_sealed w : frame_read w (sealed_read w).
Proof. unfold frame_read, sealed_read; cbn; intuition. Qed.

Lemma trace_after_unprotect w msg cur cap :
  exists c, trace (after_unprotect w msg cur cap) = trace w ++ locked c /\
            is_unprotect c = true /\
            call_result c =
              fst (fst (fst (tsi_unprotect (protector (ep w)) msg cap))).
Proof.
  unfold after_unprotect.
  destruct (tsi_unprotect _ _ _) as [[[r p] n] out]; cbn.
  eexists; split; [reflexivity|]; split; reflexivity.
Qed.

Lemma stopped_with_nil : stopped_with [] TSI_OK.
Proof. unfold stopped_with; cbn; constructor. Qed.

Lemma stopped_with_cons c cs r :
  call_ok c -> stopped_with cs r -> stopped_with (c :: cs) r.
Proof.
  unfold stopped_with; destruct (tsi_ok r); intros Hc H.
  - constructor; assumption.
  - destruct H as (pre & c' & -> & Hpre & Hr).
    exists (c :: pre), c'; repeat split; auto.
Qed.

Lemma stopped_with_fail c :
  tsi_ok (call_result c) = false -> stopped_with [c] (call_result c).
Proof.
  unfold stopped_with; intros ->. exists [], c; repeat split; constructor.
Qed.

Lemma stopped_with_app cs1 cs2 r :
  Forall call_ok cs1 -> stopped_with cs2 r -> stopped_with (cs1 ++ cs2) r.
Proof.
  induction 1; cbn; auto using stopped_with_cons.
Qed.

(** Summary of the [while] loop of on_read: what it leaves alone and the
    calls it makes. *)
Lemma on_read_while_summary fuel : forall msg cur end_ keep res w,
  tsi_ok res = true ->
  let '(w', o) := on_read_while fuel msg cur end_ keep res w in
  frame_read w w' /\
  exists cs, trace w' = trace w ++ flat_map locked cs /\
             Forall (fun c => is_unprotect c = true) cs /\
             match o with
             | Returns (_, _, _, r) => stopped_with cs r
             | _ => Forall call_ok cs
             end.
Proof.
  induction fuel as [|fuel IH]; intros msg cur end_ keep res w Hres.
  - cbn [on_read_while].
    destruct ((0 <? length msg) || keep); unfold out_of_fuel, ret.
    + split; [apply frame_read_refl|]. exists []; cbn [flat_map].
      rewrite app_nil_r; repeat split; constructor.
    + split; [apply frame_read_refl|]. exists []; cbn [flat_map].
      rewrite app_nil_r; repeat split; try constructor.
      unfold stopped_with; rewrite Hres; constructor.
  - rewrite on_read_while_eq.
    destruct ((0 <? length msg) || keep).
    2:{ split; [apply frame_read_refl|]. exists []; cbn.
        rewrite app_nil_r; repeat split; try constructor.
        unfold stopped_with; rewrite Hres; constructor. }
    cbv zeta.
    pose proof (frame_read_after_unprotect w msg cur (end_ - cur)) as Hf.
    destruct (trace_after_unprotect w msg cur (end_ - cur))
      as (c & Htr & Hc & Hcr).
    destruct (tsi_unprotect (protector (ep w)) msg (end_ - cur))
      as [[[r p] n] out]; cbn in Hcr.
    set (w1 := after_unprotect w msg cur (end_ - cur)) in *.
    destruct (tsi_ok r) eqn:Hr; cbn [negb].
    2:{ split; [exact Hf|]. exists [c]; cbn [flat_map]; rewrite app_nil_r.
        repeat split; auto. rewrite <- Hcr. apply stopped_with_fail.
        congruence. }
    assert (Hcok : call_ok c) by (unfold call_ok; congruence).
    destruct (cur + length out =? end_).
    + destruct (read_buffer (ep w)).
      * specialize (IH (skipn n msg) 0
                       (length (gpr_slice_malloc STAGING_BUFFER_SIZE))
                       true r (sealed_read w1) Hr).
        destruct (on_read_while _ _ _ _ _ _ (sealed_read w1)) as [w' o].
        destruct IH as (Hf' & cs & Htr' & Hcs & Ho).
        split.
        { eapply frame_read_trans; [exact Hf|].
          eapply frame_read_trans; [apply frame_read_sealed|exact Hf']. }
        exists (c :: cs). cbn [flat_map].
        rewrite Htr'. cbn [sealed_read trace]. rewrite Htr.
        rewrite <- app_assoc. repeat split; auto.
        destruct o as [[[[? ?] ?] r']| |]; auto using stopped_with_cons.
      * split; [exact Hf|]. exists [c]; cbn [flat_map]; rewrite app_nil_r.
        repeat split; auto.
    + specialize (IH (skipn n msg) (cur + length out) end_
                     (0 <? length out) r w1 Hr).
      destruct (on_read_while _ _ _ _ _ _ w1) as [w' o].
      destruct IH as (Hf' & cs & Htr' & Hcs & Ho).
      split; [eapply frame_read_trans; eauto|].
      exists (c :: cs). cbn [flat_map].
      rewrite Htr', Htr, <- app_assoc. repeat split; auto.
      destruct o as [[[[? ?] ?] r']| |]; auto using stopped_with_cons.
Qed.


(** Summary of the [for] loop of on_read. *)
Lemma on_read_for_summary fuel slices : forall cur end_ keep res w,
  tsi_ok res = true ->
  let '(w', o) := on_read_for fuel slices cur end_ keep res w in
  frame_read w w' /\
  exists cs, trace w' = trace w ++ flat_map locked cs /\
             Forall (fun c => is_unprotect c = true) cs /\
             match o with
             | Returns (_, _, _, r) => stopped_with cs r
             | _ => Forall call_ok cs
             end.
Proof.
  induction slices as [|encrypted rest IH]; intros cur end_ keep res w Hres.
  - cbn [on_read_for]; unfold ret.
    split; [apply frame_read_refl|]. exists []; cbn [flat_map].
    rewrite app_nil_r; repeat split; try constructor.
    unfold stopped_with; rewrite Hres; constructor.
  - cbn [on_read_for]; unfold bind.
    pose proof (on_read_while_summary fuel encrypted cur end_ keep res w Hres)
      as Hw.
    destruct (on_read_while fuel encrypted cur end_ keep res w)
      as [w1 [[[[cur1 end1] keep1] r1]| |]]; try exact Hw.
    destruct Hw as (Hf & cs & Htr & Hcs & Hst).
    destruct (tsi_ok r1) eqn:Hr1; cbn [negb]; unfold ret.
    + specialize (IH cur1 end1 keep1 r1 w1 Hr1).
      destruct (on_read_for fuel rest cur1 end1 keep1 r1 w1) as [w' o].
      destruct IH as (Hf' & cs' & Htr' & Hcs' & Ho).
      split; [eapply frame_read_trans; eauto|].
      exists (cs ++ cs'). rewrite flat_map_app, Htr', Htr, <- app_assoc.
      unfold stopped_with in Hst; rewrite Hr1 in Hst.
      repeat split; auto using Forall_app.
      * apply Forall_app; auto.
      * destruct o as [[[[? ?] ?] r']| |];
          auto using stopped_with_app; apply Forall_app; auto.
    + split; [exact Hf|]. exists cs; auto.
Qed.

Lemma on_read_eq fuel success w :
  read_buffer (ep w) = true ->
  on_read fuel success w =
  if (success =? 0)%Z then (reset_destination w, Returns 0%Z)
  else
    match on_read_for fuel (source_buffer (ep w)) 0
            (length (read_staging_buffer (ep w))) false TSI_OK w with
    | (w1, Returns (cur, _, _, result)) =>
      (on_read_finish w1 cur result,
       Returns (if tsi_ok result then 1%Z else 0%Z))
    | (w1, OutOfFuel) => (w1, OutOfFuel)
    | (w1, Aborted) => (w1, Aborted)
    end.
Proof.
  intros Hrb. unfold on_read, bind, get_ep at 1.
  destruct (success =? 0)%Z.
  - unfold with_read_buffer, bind, get_ep, modify_destination, ret.
    rewrite Hrb. reflexivity.
  - pose proof (on_read_for_summary fuel (source_buffer (ep w)) 0
                  (length (read_staging_buffer (ep w))) false TSI_OK w eq_refl)
      as Hs.
    destruct (on_read_for _ _ _ _ _ _ w)
      as [w1 [[[[cur end1] keep1] r1]| |]]; try reflexivity.
    destruct Hs as ((_ & _ & _ & Hrb1 & _) & _).
    rewrite Hrb in Hrb1.
    unfold on_read_finish, with_read_buffer, bind, get_ep, modify_ep,
      modify_destination, ret, gpr_slice_split_head.
    destruct (cur =? 0); cbn -[Nat.eqb]; rewrite ?Hrb1;
      destruct (tsi_ok r1); cbn; rewrite ?Hrb1; reflexivity.
Qed.


Lemma endpoint_write_while_eq fuel msg cur end_ res w :
  endpoint_write_while (S fuel) msg cur end_ res w =
  if 0 <? length msg then
    let w1 := after_protect w msg cur (end_ - cur) in
    let '(r, _, n, out) :=
      tsi_protect (protector (ep w)) msg (end_ - cur) in
    if negb (tsi_ok r) then (w1, Returns (cur, end_, r))
    else if cur + length out =? end_ then
      endpoint_write_while fuel (skipn n msg) 0
        (length (gpr_slice_malloc STAGING_BUFFER_SIZE)) r (sealed_write w1)
    else
      endpoint_write_while fuel (skipn n msg) (cur + length out) end_ r w1
  else (w, Returns (cur, end_, res)).
Proof.
  cbn [endpoint_write_while].
  destruct (0 <? length msg); [|reflexivity].
  unfold after_protect, bind, gpr_mu_lock, gpr_mu_unlock,
    tsi_frame_protector_protect, get_ep, modify_ep, emit, ret;
    cbn -[Nat.ltb Nat.eqb Nat.sub].
  destruct (tsi_protect (protector (ep w)) msg (end_ - cur))
    as [[[r p] n] out]; cbn -[Nat.ltb Nat.eqb Nat.sub].
  rewrite <- !app_assoc; cbn -[Nat.ltb Nat.eqb Nat.sub].
  destruct (tsi_ok r); cbn -[Nat.ltb Nat.eqb Nat.sub]; [|reflexivity].
  destruct (cur + length out =? end_); reflexivity.
Qed.

Lemma endpoint_write_flush_eq fuel cur end_ w :
  endpoint_write_flush fuel cur end_ w =
  let w1 := after_protect_flush w cur (end_ - cur) in
  let '(r, _, out, still_pending) :=
    tsi_protect_flush (protector (ep w)) (end_ - cur) in
  if negb (tsi_ok r) then (w1, Returns (cur, end_, r))
  else
    let '(w2, cur2, end2) :=
      if cur + length out =? end_
      then (sealed_write w1, 0,
            length (gpr_slice_malloc STAGING_BUFFER_SIZE))
      else (w1, cur + length out, end_) in
    if 0 <? still_pending then
      match fuel with
      | 0 => (w2, OutOfFuel)
      | S fuel' => endpoint_write_flush fuel' cur2 end2 w2
      end
    else (w2, Returns (cur2, end2, r)).
Proof.
  destruct fuel; cbn [endpoint_write_flush];
    unfold after_protect_flush, bind, gpr_mu_lock, gpr_mu_unlock,
      tsi_frame_protector_protect_flush, get_ep, modify_ep, emit, ret;
    cbn -[Nat.ltb Nat.eqb Nat.sub];
    destruct (tsi_protect_flush (protector (ep w)) (end_ - cur))
      as [[[r p] out] pending]; cbn -[Nat.ltb Nat.eqb Nat.sub];
    rewrite <- !app_assoc; cbn -[Nat.ltb Nat.eqb Nat.sub];
    (destruct (tsi_ok r); cbn -[Nat.ltb Nat.eqb Nat.sub]; [|reflexivity]);
    destruct (cur + length out =? end_); cbn -[Nat.ltb Nat.eqb Nat.sub];
    destruct (0 <? pending); reflexivity.
Qed.

Lemma frame_write_refl w : frame_write w w.
Proof. unfold frame_write; intuition. Qed.

Lemma frame_write_trans w1 w2 w3 :
  frame_write w1 w2 -> frame_write w2 w3 -> frame_write w1 w3.
Proof. unfold frame_write; intuition congruence. Qed.

Lemma frame_write_after_protect w msg cur cap :
  frame_write w (after_protect w msg cur cap).
Proof.
  unfold frame_write, after_protect.
  destruct (tsi_protect _ _ _) as [[[r p] n] out]; cbn; intuition.
Qed.

Lemma frame_write_after_protect_flush w cur cap :
  frame_write w (after_protect_flush w cur cap).
Proof.
  unfold frame_write, after_protect_flush.
  destruct (tsi_protect_flush _ _) as [[[r p] out] n]; cbn; intuition.
Qed.

Lemma frame_write_sealed w : frame_write w (sealed_write w).
Proof. unfold frame_write, sealed_write; cbn; intuition. Qed.

Lemma trace_after_protect w msg cur cap :
  exists c, trace (after_protect w msg cur cap) = trace w ++ locked c /\
            is_protect c = true /\
            call_result c =
              fst (fst (fst (tsi_protect (protector (ep w)) msg cap))).
Proof.
  unfold after_protect.
  destruct (tsi_protect _ _ _) as [[[r p] n] out]; cbn.
  eexists; split; [reflexivity|]; repeat split; reflexivity.
Qed.


Lemma trace_after_protect_flush w cur cap :
  exists c, trace (after_protect_flush w cur cap) = trace w ++ locked c /\
            is_protect_flush c = true /\
            call_result c =
              fst (fst (fst (tsi_protect_flush (protector (ep w)) cap))) /\
            still_pending_of c =
              snd (tsi_protect_flush (protector (ep w)) cap).
Proof.
  unfold after_protect_flush.
  destruct (tsi_protect_flush _ _) as [[[r p] out] n]; cbn.
  eexists; split; [reflexivity|]; repeat split; reflexivity.
Qed.

(** Summary of the [while] loop of endpoint_write. *)
Lemma endpoint_write_while_summary fuel : forall msg cur end_ res w,
  tsi_ok res = true ->
  let '(w', o) := endpoint_write_while fuel msg cur end_ res w in
  frame_write w w' /\ o <> Aborted /\
  exists cs, trace w' = trace w ++ flat_map locked cs /\
             Forall (fun c => is_protect c = true) cs /\
             match o with
             | Returns (_, _, r) => stopped_with cs r
             | _ => Forall call_ok cs
             end.
Proof.
  induction fuel as [|fuel IH]; intros msg cur end_ res w Hres.
  - cbn [endpoint_write_while].
    destruct (0 <? length msg); unfold out_of_fuel, ret;
      (split; [apply frame_write_refl|]); (split; [discriminate|]);
      exists []; cbn [flat_map]; rewrite app_nil_r;
      repeat split; try constructor.
    unfold stopped_with; rewrite Hres; constructor.
  - rewrite endpoint_write_while_eq.
    destruct (0 <? length msg).
    2:{ split; [apply frame_write_refl|]. split; [discriminate|].
        exists []; cbn [flat_map].
        rewrite app_nil_r; repeat split; try constructor.
        unfold stopped_with; rewrite Hres; constructor. }
    cbv zeta.
    pose proof (frame_write_after_protect w msg cur (end_ - cur)) as Hf.
    destruct (trace_after_protect w msg cur (end_ - cur))
      as (c & Htr & Hc & Hcr).
    destruct (tsi_protect (protector (ep w)) msg (end_ - cur))
      as [[[r p] n] out]; cbn in Hcr.
    set (w1 := after_protect w msg cur (end_ - cur)) in *.
    destruct (tsi_ok r) eqn:Hr; cbn [negb].
    2:{ split; [exact Hf|]. split; [discriminate|].
        exists [c]; cbn [flat_map]; rewrite app_nil_r.
        repeat split; auto. rewrite <- Hcr. apply stopped_with_fail.
        congruence. }
    assert (Hcok : call_ok c) by (unfold call_ok; congruence).
    destruct (cur + length out =? end_).
    + specialize (IH (skipn n msg) 0
                     (length (gpr_slice_malloc STAGING_BUFFER_SIZE))
                     r (sealed_write w1) Hr).
      destruct (endpoint_write_while _ _ _ _ _ (sealed_write w1))
        as [w' o].
      destruct IH as (Hf' & Hna & cs & Htr' & Hcs & Ho).
      split.
      { eapply frame_write_trans; [exact Hf|].
        eapply frame_write_trans; [apply frame_write_sealed|exact Hf']. }
      split; [exact Hna|].
      exists (c :: cs). cbn [flat_map].
      rewrite Htr'. cbn [sealed_write trace]. rewrite Htr.
      rewrite <- app_assoc. repeat split; auto.
      destruct o as [[[? ?] r']| |]; auto using stopped_with_cons.
    + specialize (IH (skipn n msg) (cur + length out) end_ r w1 Hr).
      destruct (endpoint_write_while _ _ _ _ _ w1) as [w' o].
      destruct IH as (Hf' & Hna & cs & Htr' & Hcs & Ho).
      split; [eapply frame_write_trans; eauto|].
      split; [exact Hna|].
      exists (c :: cs). cbn [flat_map].
      rewrite Htr', Htr, <- app_assoc. repeat split; auto.
      destruct o as [[[? ?] r']| |]; auto using stopped_with_cons.
Qed.

(** Summary of the [for] loop of endpoint_write. *)
Lemma endpoint_write_for_summary fuel slices : forall cur end_ res w,
  tsi_ok res = true ->
  let '(w', o) := endpoint_write_for fuel slices cur end_ res w in
  frame_write w w' /\ o <> Aborted /\
  exists cs, trace w' = trace w ++ flat_map locked cs /\
             Forall (fun c => is_protect c = true) cs /\
             match o with
             | Returns (_, _, r) => stopped_with cs r
             | _ => Forall call_ok cs
             end.
Proof.
  induction slices as [|plain rest IH]; intros cur end_ res w Hres.
  - cbn [endpoint_write_for]; unfold ret.
    split; [apply frame_write_refl|]. split; [discriminate|].
    exists []; cbn [flat_map].
    rewrite app_nil_r; repeat split; try constructor.
    unfold stopped_with; rewrite Hres; constructor.
  - cbn [endpoint_write_for]; unfold bind.
    pose proof (endpoint_write_while_summary fuel plain cur end_ res w Hres)
      as Hw.
    destruct (endpoint_write_while fuel plain cur end_ res w)
      as [w1 [[[cur1 end1] r1]| |]]; try exact Hw.
    destruct Hw as (Hf & _ & cs & Htr & Hcs & Hst).
    destruct (tsi_ok r1) eqn:Hr1; cbn [negb]; unfold ret.
    + specialize (IH cur1 end1 r1 w1 Hr1).
      destruct (endpoint_write_for fuel rest cur1 end1 r1 w1) as [w' o].
      destruct IH as (Hf' & Hna & cs' & Htr' & Hcs' & Ho).
      split; [eapply frame_write_trans; eauto|].
      split; [exact Hna|].
      exists (cs ++ cs'). rewrite flat_map_app, Htr', Htr, <- app_assoc.
      unfold stopped_with in Hst; rewrite Hr1 in Hst.
      repeat split; auto using Forall_app.
      * apply Forall_app; auto.
      * destruct o as [[[? ?] r']| |];
          auto using stopped_with_app; apply Forall_app; auto.
    + split; [exact Hf|]. split; [discriminate|]. exists cs; auto.
Qed.

(** Summary of the [do ... while] loop of endpoint_write: at least one
    flush call is made; every call but the last succeeded and reported
    pending bytes; the loop is left after a failed call, or after a call
    that reported nothing pending. *)
Lemma endpoint_write_flush_summary fuel : forall cur end_ w,
  let '(w', o) := endpoint_write_flush fuel cur end_ w in
  frame_write w w' /\
  exists pre c, trace w' = trace w ++ flat_map locked (pre ++ [c]) /\
                Forall flush_again pre /\
                is_protect_flush c = true /\
                match o with
                | Returns (_, _, r) =>
                  call_result c = r /\
                  (tsi_ok r = true -> still_pending_of c = 0)
                | OutOfFuel => flush_again c
                | Aborted => False
                end.
Proof.
  induction fuel as [|fuel IH]; intros cur end_ w;
    rewrite endpoint_write_flush_eq; cbv zeta;
    pose proof (frame_write_after_protect_flush w cur (end_ - cur)) as Hf;
    destruct (trace_after_protect_flush w cur (end_ - cur))
      as (c & Htr & Hc & Hcr & Hp);
    destruct (tsi_protect_flush (protector (ep w)) (end_ - cur))
      as [[[r p] out] pending]; cbn in Hcr, Hp;
    set (w1 := after_protect_flush w cur (end_ - cur)) in *;
    (destruct (tsi_ok r) eqn:Hr; cbn [negb];
     [|split; [exact Hf|]; exists [], c; cbn [app flat_map];
       rewrite app_nil_r; repeat split; auto; congruence]);
    assert (Hcok : call_ok c) by (unfold call_ok; congruence);
    assert (H2 : exists w2 cur2 end2,
               (if cur + length out =? end_
                then (sealed_write w1, 0,
                      length (gpr_slice_malloc STAGING_BUFFER_SIZE))
                else (w1, cur + length out, end_)) = (w2, cur2, end2) /\
               trace w2 = trace w1 /\ frame_write w1 w2)
      by (destruct (_ =? _); do 3 eexists;
          repeat split; auto using frame_write_sealed, frame_write_refl);
    destruct H2 as (w2 & cur2 & end2 & -> & Ht2 & Hf2);
    (destruct (0 <? pending) eqn:Hpend;
     [apply Nat.ltb_lt in Hpend
     |apply Nat.ltb_ge in Hpend;
      split; [eapply frame_write_trans; eauto|];
      exists [], c; cbn [app flat_map]; rewrite app_nil_r, Ht2;
      repeat split; auto; intros _; lia]).
  - split; [eapply frame_write_trans; eauto|].
    exists [], c; cbn [app flat_map]; rewrite app_nil_r, Ht2.
    repeat split; auto. lia.
  - specialize (IH cur2 end2 w2).
    destruct (endpoint_write_flush fuel cur2 end2 w2) as [w' o].
    destruct IH as (Hf' & pre & c' & Htr' & Hpre & Hc' & Ho).
    split; [eapply frame_write_trans; [exact Hf|];
            eapply frame_write_trans; eauto|].
    exists (c :: pre), c'. cbn [app flat_map].
    rewrite Htr', Ht2, Htr, <- app_assoc.
    repeat split; auto.
    constructor; auto. repeat split; auto. lia.
Qed.


Lemma endpoint_write_eq fuel slices cb w :
  endpoint_write fuel slices cb w =
  match endpoint_write_for fuel slices 0
          (length (write_staging_buffer (ep w))) TSI_OK (reset_output w) with
  | (w1, Returns (cur, end_, result)) =>
    if tsi_ok result then
      match endpoint_write_flush fuel cur end_ w1 with
      | (w2, Returns (cur2, _, result2)) =>
        let w3 := write_split w2 cur2 in
        if tsi_ok result2 then
          (after_wrapped_write w3 cb,
           Returns (snd (wrapped_write (wrapped_ep (ep w3))
                                       (output_buffer (ep w3)) cb)))
        else (reset_output w3, Returns GRPC_ENDPOINT_ERROR)
      | (w2, OutOfFuel) => (w2, OutOfFuel)
      | (w2, Aborted) => (w2, Aborted)
      end
    else (reset_output w1, Returns GRPC_ENDPOINT_ERROR)
  | (w1, OutOfFuel) => (w1, OutOfFuel)
  | (w1, Aborted) => (w1, Aborted)
  end.
Proof.
  unfold endpoint_write, bind, get_ep at 1, modify_ep at 1.
  change {| ep := set_output_buffer
                    (gpr_slice_buffer_reset_and_unref (output_buffer (ep w)))
                    (ep w);
            destination := destination w; freed := freed w;
            trace := trace w |} with (reset_output w).
  destruct (endpoint_write_for _ _ _ _ _ (reset_output w))
    as [w1 [[[cur end_] result]| |]]; try reflexivity.
  destruct (tsi_ok result) eqn:Hr; cbn [negb].
  - destruct (endpoint_write_flush fuel cur end_ w1)
      as [w2 [[[cur2 end2] result2]| |]]; try reflexivity.
    unfold write_split.
    destruct (cur2 =? 0); cbn -[Nat.eqb]; unfold ret;
      destruct (tsi_ok result2); cbn; try reflexivity;
      unfold grpc_endpoint_write, after_wrapped_write, bind, get_ep,
        modify_ep, emit, ret; cbn;
      match goal with
      | |- context [wrapped_write ?a ?b ?c] =>
        destruct (wrapped_write a b c); reflexivity
      end.
  - unfold ret; cbn. rewrite Hr; reflexivity.
Qed.


Lemma frame_write_keeps w w' : frame_write w w' -> write_keeps w w'.
Proof. unfold frame_write, write_keeps; intuition. Qed.

Lemma write_keeps_trans w1 w2 w3 :
  write_keeps w1 w2 -> write_keeps w2 w3 -> write_keeps w1 w3.
Proof. unfold write_keeps; intuition congruence. Qed.

Lemma write_keeps_reset_output w : write_keeps w (reset_output w).
Proof. unfold write_keeps, reset_output; cbn; intuition. Qed.

Lemma write_keeps_split w cur : write_keeps w (write_split w cur).
Proof.
  unfold write_keeps, write_split; destruct (cur =? 0); cbn; intuition.
Qed.

Lemma write_keeps_wrapped_write w cb :
  write_keeps w (after_wrapped_write w cb).
Proof. unfold write_keeps, after_wrapped_write; cbn; intuition. Qed.

Lemma trace_write_split w cur : trace (write_split w cur) = trace w.
Proof. unfold write_split; destruct (cur =? 0); reflexivity. Qed.

Lemma wrapped_ep_write_split w cur :
  wrapped_ep (ep (write_split w cur)) = wrapped_ep (ep w).
Proof. unfold write_split; destruct (cur =? 0); reflexivity. Qed.

Lemma Forall_is_protect_call cs :
  Forall (fun c => is_protect c = true) cs ->
  Forall (fun c => is_call c = true) cs.
Proof.
  apply Forall_impl; intros [] H; cbn in *; congruence.
Qed.

Lemma Forall_flush_again_call cs :
  Forall flush_again cs ->
  Forall (fun c => is_call c = true) cs /\ Forall call_ok cs.
Proof.
  induction 1 as [|c cs (Hf & Hok & _) _ [IH1 IH2]]; split; auto.
  constructor; auto. destruct c; cbn in *; congruence.
Qed.

Lemma is_protect_flush_call c : is_protect_flush c = true -> is_call c = true.
Proof. destruct c; cbn; congruence. Qed.

(** Summary of endpoint_write. *)
Lemma endpoint_write_summary fuel slices cb w :
  let '(w', o) := endpoint_write fuel slices cb w in
  write_run w w' cb o /\ write_keeps w w'.
Proof.
  rewrite endpoint_write_eq.
  pose proof (endpoint_write_for_summary fuel slices 0
                (length (write_staging_buffer (ep w))) TSI_OK
                (reset_output w) eq_refl) as H1.
  destruct (endpoint_write_for _ _ _ _ _ (reset_output w)) as [w1 o1].
  destruct H1 as (Hf1 & Hna1 & ps & Ht1 & Hps & Ho1).
  cbn [reset_output trace] in Ht1.
  assert (Hk1 : write_keeps w w1).
  { eapply write_keeps_trans; [apply write_keeps_reset_output|].
    apply frame_write_keeps, Hf1. }
  destruct o1 as [[[cur end_] r1]| |]; [| |congruence].
  2:{ split; [|exact Hk1].
      apply write_running with (cs := ps);
        auto using Forall_is_protect_call. }
  unfold stopped_with in Ho1.
  destruct (tsi_ok r1) eqn:Hr1.
  2:{ destruct Ho1 as (pre & c & -> & Hpre & Hc).
      apply Forall_app in Hps as [Hps1 Hps2].
      apply Forall_is_protect_call in Hps1, Hps2.
      split.
      - apply write_failed with (pre := pre) (c := c); auto.
        + inversion Hps2; auto.
        + congruence.
        + destruct Hf1 as (Hw & _). cbn in *. exact Hw.
      - eapply write_keeps_trans; [exact Hk1|].
        apply write_keeps_reset_output. }
  pose proof (endpoint_write_flush_summary fuel cur end_ w1) as H2.
  destruct (endpoint_write_flush fuel cur end_ w1) as [w2 o2].
  destruct H2 as (Hf2 & pre & c & Ht2 & Hpre & Hc & Ho2).
  assert (Hk2 : write_keeps w w2).
  { eapply write_keeps_trans; [exact Hk1|apply frame_write_keeps, Hf2]. }
  destruct (Forall_flush_again_call pre Hpre) as [Hprec Hpreok].
  destruct o2 as [[[cur2 end2] r2]| |]; [| |contradiction].
  2:{ split; [|exact Hk2].
      apply write_running with (cs := ps ++ pre ++ [c]).
      - apply Forall_app; split; [apply Forall_is_protect_call, Hps|].
        apply Forall_app; split; auto. constructor; auto.
        apply is_protect_flush_call, Ho2.
      - apply Forall_app; split; auto.
        apply Forall_app; split; auto. constructor; auto. apply Ho2.
      - rewrite Ht2, Ht1, (flat_map_app _ ps), <- app_assoc; reflexivity. }
  destruct Ho2 as [Hcr Hdone]. cbv zeta.
  destruct (tsi_ok r2) eqn:Hr2.
  - split.
    + apply write_sent with (ps := ps) (pre := pre) (c := c); auto.
      * repeat split; auto. unfold call_ok; congruence.
      * cbn [after_wrapped_write trace ep output_buffer set_wrapped_ep].
        rewrite trace_write_split, Ht2, Ht1, (flat_map_app _ ps),
          <- !app_assoc; reflexivity.
    + eapply write_keeps_trans; [exact Hk2|].
      eapply write_keeps_trans;
        [apply write_keeps_split|apply write_keeps_wrapped_write].
  - split.
    + apply write_failed with (pre := ps ++ pre) (c := c).
      * apply Forall_app; split; auto using Forall_is_protect_call.
      * apply Forall_app; split; auto.
      * apply is_protect_flush_call, Hc.
      * congruence.
      * cbn [reset_output trace].
        rewrite trace_write_split, Ht2, Ht1, <- (app_assoc ps pre [c]),
          (flat_map_app _ ps), app_assoc; reflexivity.
      * reflexivity.
      * cbn [reset_output ep wrapped_ep set_output_buffer].
        rewrite wrapped_ep_write_split.
        destruct Hf2 as (-> & _), Hf1 as (-> & _). reflexivity.
    + eapply write_keeps_trans; [exact Hk2|].
      eapply write_keeps_trans;
        [apply write_keeps_split|apply write_keeps_reset_output].
Qed.


Lemma on_read_while_returns fuel : forall msg cur end_ keep res w,
  read_buffer (ep w) = true ->
  snd (on_read_while fuel msg cur end_ keep res w) <> Aborted.
Proof.
  induction fuel as [|fuel IH]; intros msg cur end_ keep res w Hrb.
  - cbn [on_read_while].
    destruct ((0 <? length msg) || keep); cbn; discriminate.
  - rewrite on_read_while_eq.
    destruct ((0 <? length msg) || keep); [|cbn; discriminate].
    cbv zeta.
    pose proof (frame_read_after_unprotect w msg cur (end_ - cur))
      as (_ & _ & _ & Hrb1 & _).
    destruct (tsi_unprotect (protector (ep w)) msg (end_ - cur))
      as [[[r p] n] out].
    destruct (tsi_ok r); cbn [negb]; [|cbn; discriminate].
    rewrite Hrb.
    destruct (cur + length out =? end_); apply IH; cbn; congruence.
Qed.

Lemma on_read_for_returns fuel slices : forall cur end_ keep res w,
  tsi_ok res = true ->
  read_buffer (ep w) = true ->
  snd (on_read_for fuel slices cur end_ keep res w) <> Aborted.
Proof.
  induction slices as [|encrypted rest IH];
    intros cur end_ keep res w Hres Hrb.
  - cbn; discriminate.
  - cbn [on_read_for]; unfold bind.
    pose proof (on_read_while_returns fuel encrypted cur end_ keep res w Hrb)
      as Hna.
    pose proof (on_read_while_summary fuel encrypted cur end_ keep res w Hres)
      as Hs.
    destruct (on_read_while fuel encrypted cur end_ keep res w)
      as [w1 [[[[cur1 end1] keep1] r1]| |]]; cbn in *; try congruence.
    destruct Hs as ((_ & _ & _ & Hrb1 & _) & _).
    destruct (tsi_ok r1) eqn:Hr1; cbn; [|discriminate].
    apply IH; congruence.
Qed.

Lemma read_keeps_refl w : read_keeps w w.
Proof. unfold read_keeps; intuition. Qed.

Lemma read_keeps_trans w1 w2 w3 :
  read_keeps w1 w2 -> read_keeps w2 w3 -> read_keeps w1 w3.
Proof. unfold read_keeps; intuition congruence. Qed.

Lemma frame_read_keeps w w' : frame_read w w' -> read_keeps w w'.
Proof. unfold frame_read, read_keeps; intuition. Qed.

Lemma read_keeps_finish w cur result :
  read_keeps w (on_read_finish w cur result).
Proof.
  unfold read_keeps, on_read_finish; destruct (cur =? 0); cbn; intuition.
Qed.

Lemma source_buffer_finish w cur result :
  source_buffer (ep (on_read_finish w cur result)) = [].
Proof. reflexivity. Qed.

(** Summary of on_read after a successful transport read. *)
Lemma on_read_summary fuel success w :
  read_buffer (ep w) = true ->
  success <> 0%Z ->
  let '(w', o) := on_read fuel success w in
  drain_run w w' o /\ read_keeps w w'.
Proof.
  intros Hrb Hs. rewrite on_read_eq by exact Hrb.
  apply Z.eqb_neq in Hs; rewrite Hs.
  pose proof (on_read_for_summary fuel (source_buffer (ep w)) 0
                (length (read_staging_buffer (ep w))) false TSI_OK w
                eq_refl) as H1.
  pose proof (on_read_for_returns fuel (source_buffer (ep w)) 0
                (length (read_staging_buffer (ep w))) false TSI_OK w
                eq_refl Hrb) as Hna.
  destruct (on_read_for _ _ _ _ _ _ w) as [w1 o1].
  destruct H1 as (Hf & cs & Htr & Hcs & Ho).
  destruct o1 as [[[[cur end1] keep1] r1]| |]; cbn in Hna; [| |congruence].
  2:{ split; [|apply frame_read_keeps, Hf].
      apply drain_running with (cs := cs); auto. }
  unfold stopped_with in Ho.
  split.
  2:{ eapply read_keeps_trans; [apply frame_read_keeps, Hf|].
      apply read_keeps_finish. }
  destruct (tsi_ok r1) eqn:Hr1.
  - apply drain_done with (cs := cs); auto.
  - destruct Ho as (pre & c & -> & Hpre & Hc).
    apply drain_failed with (pre := pre) (c := c); auto.
    + congruence.
    + cbn. rewrite Hr1. reflexivity.
Qed.

Lemma on_read_transport_failure fuel w :
  read_buffer (ep w) = true ->
  on_read fuel 0 w = (reset_destination w, Returns 0%Z).
Proof. intros Hrb. rewrite on_read_eq by exact Hrb. reflexivity. Qed.


Lemma bind_returns A B (m : M A) (k : A -> M B) w w' a :
  m w = (w', Returns a) -> bind m k w = k a w'.
Proof. intros H. unfold bind. rewrite H. reflexivity. Qed.

Lemma secure_endpoint_unref_eq w :
  secure_endpoint_unref w = (after_unref w, Returns tt).
Proof.
  cbn -[Z.eqb Z.sub]. unfold after_unref.
  destruct (ref (ep w) =? 1)%Z; [|reflexivity].
  cbn -[Z.sub]. unfold after_destroy. cbn -[Z.sub].
  rewrite <- !app_assoc. reflexivity.
Qed.

Lemma secure_endpoint_ref_eq w :
  secure_endpoint_ref w = (after_ref w, Returns tt).
Proof. reflexivity. Qed.

Lemma grpc_endpoint_read_eq w :
  grpc_endpoint_read w = (after_wrapped_read w, Returns (wrapped_read_status w)).
Proof.
  unfold grpc_endpoint_read, after_wrapped_read, wrapped_read_status.
  cbn [bind get_ep].
  destruct (wrapped_read (wrapped_ep (ep w)) (source_buffer (ep w)))
    as [[t sb] st].
  reflexivity.
Qed.

Lemma endpoint_read_immediate_eq r w :
  endpoint_read_immediate r w =
  if (r =? -1)%Z then (w, Aborted)
  else (after_unref w, Returns (status_of r)).
Proof.
  unfold endpoint_read_immediate.
  destruct (r =? -1)%Z; [reflexivity|].
  cbn [negb GPR_ASSERT].
  rewrite (bind_returns _ _ _ _ _ _ _ eq_refl).
  rewrite (bind_returns _ _ _ _ _ _ _ (secure_endpoint_unref_eq _)).
  reflexivity.
Qed.

Lemma bind_on_read_immediate fuel success w :
  bind (on_read fuel success) endpoint_read_immediate w =
  match on_read fuel success w with
  | (w2, Returns r) =>
    if (r =? -1)%Z then (w2, Aborted)
    else (after_unref w2, Returns (status_of r))
  | (w2, OutOfFuel) => (w2, OutOfFuel)
  | (w2, Aborted) => (w2, Aborted)
  end.
Proof.
  unfold bind.
  destruct (on_read fuel success w) as [w2 [r| |]]; try reflexivity.
  apply endpoint_read_immediate_eq.
Qed.

Lemma endpoint_read_eq fuel slices cb w :
  endpoint_read fuel slices cb w =
  let w0 := read_started w cb in
  if negb (length (leftover_bytes (ep w)) =? 0) then
    if length (source_buffer (ep w)) =? 0 then
      match on_read fuel 1 (swapped w0) with
      | (w', Returns r) => (w', Returns (status_of r))
      | (w', OutOfFuel) => (w', OutOfFuel)
      | (w', Aborted) => (w', Aborted)
      end
    else (swapped w0, Aborted)
  else
    let w1 := after_wrapped_read (after_ref w0) in
    match wrapped_read_status (after_ref w0) with
    | GRPC_ENDPOINT_PENDING => (w1, Returns GRPC_ENDPOINT_PENDING)
    | status =>
      match on_read fuel (match status with
                          | GRPC_ENDPOINT_DONE => 1
                          | _ => 0
                          end) w1 with
      | (w2, Returns r) =>
        if (r =? -1)%Z then (w2, Aborted)
        else (after_unref w2, Returns (status_of r))
      | (w2, OutOfFuel) => (w2, OutOfFuel)
      | (w2, Aborted) => (w2, Aborted)
      end
    end.
Proof.
  cbv zeta.
  cbn -[Nat.eqb on_read Z.eqb Z.sub Z.add secure_endpoint_unref after_unref
        secure_endpoint_ref grpc_endpoint_read endpoint_read_immediate].
  change (gpr_slice_buffer_reset_and_unref slices) with (@nil gpr_slice).
  fold (read_started w cb).
  destruct (length (leftover_bytes (ep w)) =? 0); cbn [negb].
  - rewrite (bind_returns _ _ _ _ _ _ _ (secure_endpoint_ref_eq _)).
    rewrite (bind_returns _ _ _ _ _ _ _ (grpc_endpoint_read_eq _)).
    destruct (wrapped_read_status (after_ref (read_started w cb)));
      [apply bind_on_read_immediate|reflexivity|apply bind_on_read_immediate].
  - cbn -[Nat.eqb on_read Z.eqb].
    destruct (length (source_buffer (ep w)) =? 0); [|reflexivity].
    unfold swapped, bind, ret; cbn -[Nat.eqb on_read Z.eqb].
    match goal with
    | |- context [on_read fuel 1 ?w0] =>
      destruct (on_read fuel 1 w0) as [w2 [r| |]]; reflexivity
    end.
Qed.

Lemma on_read_cb_eq fuel success w :
  on_read_cb fuel success w =
  match on_read fuel success w with
  | (w1, Returns r) =>
    match read_cb (ep w1) with
    | Some cb =>
      (after_unref
         {| ep := set_read_buffer false (ep w1);
            destination := destination w1;
            freed := freed w1;
            trace := trace w1 ++ [EvClosure cb r] |},
       Returns tt)
    | None =>
      ({| ep := set_read_buffer false (ep w1);
          destination := destination w1;
          freed := freed w1;
          trace := trace w1 |}, Aborted)
    end
  | (w1, OutOfFuel) => (w1, OutOfFuel)
  | (w1, Aborted) => (w1, Aborted)
  end.
Proof.
  unfold on_read_cb, bind.
  destruct (on_read fuel success w) as [w1 [r| |]]; try reflexivity.
  unfold call_read_cb, bind, modify_ep at 1, get_ep at 1.
  cbn [ep read_cb set_read_buffer].
  destruct (read_cb (ep w1)); [|reflexivity].
  unfold emit at 1. rewrite secure_endpoint_unref_eq. reflexivity.
Qed.


(** ** Reading traces *)

Lemma trace_since_app w w' evs :
  trace w' = trace w ++ evs -> trace_since w w' = evs.
Proof.
  unfold trace_since; intros ->.
  rewrite skipn_app, skipn_all, Nat.sub_diag; reflexivity.
Qed.

Lemma calls_locked cs :
  Forall (fun c => is_call c = true) cs -> calls (flat_map locked cs) = cs.
Proof.
  unfold calls. induction 1 as [|c cs Hc _ IH]; cbn; auto.
  rewrite Hc. cbn in IH. rewrite IH. reflexivity.
Qed.

Lemma calls_app evs1 evs2 : calls (evs1 ++ evs2) = calls evs1 ++ calls evs2.
Proof. apply filter_app. Qed.

Lemma Forall_is_unprotect_call cs :
  Forall (fun c => is_unprotect c = true) cs ->
  Forall (fun c => is_call c = true) cs.
Proof.
  apply Forall_impl; intros [] H; cbn in *; congruence.
Qed.

Lemma call_failed_not_ok c : call_failed c = true -> ~ call_ok c.
Proof.
  unfold call_failed, call_ok. intros H Hok.
  apply andb_prop in H as [_ H]. rewrite Hok in H. discriminate.
Qed.

Lemma Forall_nth_error {A} (Q : A -> Prop) l j x :
  Forall Q l -> nth_error l j = Some x -> Q x.
Proof.
  intros HF Hn. apply nth_error_In in Hn.
  rewrite Forall_forall in HF. auto.
Qed.

(** When every call but the last succeeded, a failed call is the last. *)
Lemma failed_call_is_last pre c j x :
  Forall call_ok pre ->
  nth_error (pre ++ [c]) j = Some x -> call_failed x = true ->
  x = c /\ length (pre ++ [c]) = S j.
Proof.
  intros Hpre Hn Hx.
  destruct (Nat.lt_ge_cases j (length pre)) as [Hlt|Hge].
  - rewrite nth_error_app1 in Hn by exact Hlt.
    exfalso. eapply call_failed_not_ok; [exact Hx|].
    eapply Forall_nth_error; eauto.
  - rewrite nth_error_app2 in Hn by exact Hge.
    destruct (j - length pre) as [|k] eqn:Hk; cbn in Hn.
    + inversion Hn; subst. split; [reflexivity|].
      rewrite length_app; cbn; lia.
    + destruct k; discriminate.
Qed.


Lemma drain_run_result w w' r :
  drain_run w w' (Returns r) -> r = 0%Z \/ r = 1%Z.
Proof. inversion 1; auto. Qed.

Lemma after_unref_quiet w :
  exists tail, trace (after_unref w) = trace w ++ tail /\ Forall quiet tail.
Proof.
  unfold after_unref, after_destroy.
  destruct (ref (ep w) =? 1)%Z; cbn.
  - rewrite <- app_assoc. eexists; split; [reflexivity|].
    repeat constructor.
  - eexists; split; [reflexivity|]. repeat constructor.
Qed.

Lemma after_unref_fields w :
  read_cb (ep (after_unref w)) = read_cb (ep w) /\
  write_cb (ep (after_unref w)) = write_cb (ep w) /\
  read_buffer (ep (after_unref w)) = read_buffer (ep w) /\
  destination (after_unref w) = destination w /\
  ref (ep (after_unref w)) = (ref (ep w) - 1)%Z /\
  freed (after_unref w) = ((ref (ep w) =? 1)%Z || freed w) /\
  (leftover_bytes (ep w) = [] -> leftover_bytes (ep (after_unref w)) = []).
Proof.
  unfold after_unref, after_destroy.
  destruct (ref (ep w) =? 1)%Z; cbn; intuition.
Qed.

(** Summary of endpoint_read: the shape of its trace, and what it does to
    the saved callback, the leftover list, the count and the memory. *)
Lemma endpoint_read_summary fuel slices cb w :
  let '(w', o) := endpoint_read fuel slices cb w in
  endpoint_read_post w w' cb o.
Proof.
  rewrite endpoint_read_eq. cbv zeta.
  destruct (length (leftover_bytes (ep w)) =? 0) eqn:Hl; cbn [negb].
  - (* the wrapped transport is asked *)
    apply Nat.eqb_eq, length_zero_iff_nil in Hl.
    set (w0 := after_ref (read_started w cb)).
    assert (Htr1 : trace (after_wrapped_read w0) =
                   trace w ++ [EvRef; EvWrappedRead (wrapped_read_status w0)]).
    { unfold after_wrapped_read, wrapped_read_status.
      destruct (wrapped_read _ _) as [[t sb] st]; cbn.
      rewrite <- app_assoc. reflexivity. }
    assert (Hfl : read_cb (ep (after_wrapped_read w0)) = Some cb /\
                  read_buffer (ep (after_wrapped_read w0)) = true /\
                  leftover_bytes (ep (after_wrapped_read w0)) = [] /\
                  ref (ep (after_wrapped_read w0)) = (ref (ep w) + 1)%Z /\
                  freed (after_wrapped_read w0) = freed w /\
                  destination (after_wrapped_read w0) = []).
    { unfold after_wrapped_read.
      destruct (wrapped_read _ _) as [[t sb] st]; cbn. intuition. }
    destruct Hfl as (Hcb1 & Hrb1 & Hl1 & Href1 & Hfr1 & Hd1).
    assert (Hq : Forall quiet [EvRef; EvWrappedRead (wrapped_read_status w0)])
      by (repeat constructor).
    set (w1 := after_wrapped_read w0) in *.
    assert (Himm : forall success,
      let '(w', o) :=
        match on_read fuel success w1 with
        | (w2, Returns r) =>
          if (r =? -1)%Z then (w2, Aborted)
          else (after_unref w2, Returns (status_of r))
        | (w2, OutOfFuel) => (w2, OutOfFuel)
        | (w2, Aborted) => (w2, Aborted)
        end in
      endpoint_read_post w w' cb o).
    { intros success.
      destruct (Z.eq_dec success 0) as [->|Hs].
      - rewrite on_read_transport_failure by exact Hrb1.
        cbn [Z.eqb status_of].
        destruct (after_unref_quiet (reset_destination w1))
          as (tail & Ht & Hqt).
        destruct (after_unref_fields (reset_destination w1))
          as (Hu1 & _ & Hu3 & Hu4 & Hu5 & Hu6 & Hu7).
        cbn [reset_destination ep destination freed trace] in *.
        unfold endpoint_read_post.
        split; [|split; [congruence|split; [congruence|split]]].
        + exists [EvRef; EvWrappedRead (wrapped_read_status w0)], [], tail.
          rewrite Ht, Htr1, <- app_assoc. cbn [flat_map app].
          repeat split; auto.
        + intros _. split; [discriminate|auto].
        + split; [lia|]. intros Hnz. rewrite Hu6, Hfr1.
          replace (ref (ep w1) =? 1)%Z with false; [reflexivity|].
          symmetry; apply Z.eqb_neq; lia.
      - pose proof (on_read_summary fuel success w1 Hrb1 Hs) as Hsum.
        destruct (on_read fuel success w1) as [w2 o2].
        destruct Hsum as
          (Hrun & _ & Hk2 & _ & Hk4 & Hk5 & _ & _ & Hk8 & Hk9).
        inversion Hrun as [cs Hcs Hok Ht2 Hsrc Ho
                          |pre c Hcs Hok Hc Ht2 Hsrc Hdst Ho
                          |cs Hcs Hok Ht2 Ho]; subst o2.
        + cbn [Z.eqb status_of].
          destruct (after_unref_quiet w2) as (tail & Ht & Hqt).
          destruct (after_unref_fields w2)
            as (Hu1 & _ & Hu3 & Hu4 & Hu5 & Hu6 & Hu7).
          unfold endpoint_read_post.
          split; [|split; [congruence|split; [congruence|split]]].
          * exists [EvRef; EvWrappedRead (wrapped_read_status w0)], cs, tail.
            rewrite Ht, Ht2, Htr1, <- !app_assoc. repeat split; auto.
          * intros _. split; [discriminate|]. apply Hu7. congruence.
          * split; [lia|]. intros Hnz. rewrite Hu6, Hk9, Hfr1.
            replace (ref (ep w2) =? 1)%Z with false; [reflexivity|].
            symmetry; apply Z.eqb_neq; lia.
        + cbn [Z.eqb status_of].
          destruct (after_unref_quiet w2) as (tail & Ht & Hqt).
          destruct (after_unref_fields w2)
            as (Hu1 & _ & Hu3 & Hu4 & Hu5 & Hu6 & Hu7).
          unfold endpoint_read_post.
          split; [|split; [congruence|split; [congruence|split]]].
          * exists [EvRef; EvWrappedRead (wrapped_read_status w0)],
              (pre ++ [c]), tail.
            rewrite Ht, Ht2, Htr1, <- !app_assoc. repeat split; auto.
            -- congruence.
            -- right. exists pre, c. auto.
          * intros _. split; [discriminate|]. apply Hu7. congruence.
          * split; [lia|]. intros Hnz. rewrite Hu6, Hk9, Hfr1.
            replace (ref (ep w2) =? 1)%Z with false; [reflexivity|].
            symmetry; apply Z.eqb_neq; lia.
        + unfold endpoint_read_post.
          split; [|split; [congruence|split; [congruence|split]]].
          * exists [EvRef; EvWrappedRead (wrapped_read_status w0)], cs, [].
            rewrite Ht2, Htr1, app_nil_r, <- !app_assoc.
            repeat split; auto.
          * intros _. split; [discriminate|]. congruence.
          * exact I. }
    destruct (wrapped_read_status w0).
    + apply (Himm 1%Z).
    + unfold endpoint_read_post.
      split; [|split; [exact Hcb1|split; [exact Hrb1|split]]].
      * exists [EvRef; EvWrappedRead GRPC_ENDPOINT_PENDING], [], [].
        rewrite Htr1. cbn [flat_map app]. repeat split; auto.
      * intros _. split; [discriminate|exact Hl1].
      * split; [exact Href1|exact Hfr1].
    + apply (Himm 0%Z).
  - (* the leftover bytes are drained *)
    apply Nat.eqb_neq in Hl.
    destruct (length (source_buffer (ep w)) =? 0) eqn:Hsrc.
    + apply Nat.eqb_eq, length_zero_iff_nil in Hsrc.
      set (w0 := swapped (read_started w cb)).
      pose proof (on_read_summary fuel 1 w0 eq_refl ltac:(discriminate))
        as Hsum.
      destruct (on_read fuel 1 w0) as [w2 o2].
      destruct Hsum as
        (Hrun & _ & Hk2 & _ & Hk4 & Hk5 & _ & _ & Hk8 & Hk9).
      unfold w0 in Hk2, Hk4, Hk5, Hk8, Hk9.
      cbn in Hk2, Hk4, Hk5, Hk8, Hk9.
      rewrite Hsrc in Hk5.
      inversion Hrun as [cs Hcs Hok Ht2 Hsrc2 Ho
                        |pre c Hcs Hok Hc Ht2 Hsrc2 Hdst Ho
                        |cs Hcs Hok Ht2 Ho]; subst o2;
        unfold w0 in Ht2; cbn [swapped read_started trace] in Ht2.
      * cbn [Z.eqb status_of]. unfold endpoint_read_post.
        split; [|split; [congruence|split; [congruence|split]]].
        -- exists [], cs, []. rewrite Ht2, app_nil_r. cbn [app].
           repeat split; auto.
        -- intros _. split; [discriminate|exact Hk5].
        -- split; [exact Hk8|]. intros _; exact Hk9.
      * cbn [Z.eqb status_of]. unfold endpoint_read_post.
        split; [|split; [congruence|split; [congruence|split]]].
        -- exists [], (pre ++ [c]), []. rewrite Ht2, app_nil_r. cbn [app].
           repeat split; auto. right. exists pre, c; auto.
        -- intros _. split; [discriminate|exact Hk5].
        -- split; [exact Hk8|]. intros _; exact Hk9.
      * unfold endpoint_read_post.
        split; [|split; [congruence|split; [congruence|split]]].
        -- exists [], cs, []. rewrite Ht2, app_nil_r. cbn [app].
           repeat split; auto.
        -- intros _. split; [discriminate|exact Hk5].
        -- exact I.
    + apply Nat.eqb_neq in Hsrc. unfold endpoint_read_post.
      split; [|split; [reflexivity|split; [reflexivity|split]]].
      * exists [], [], []. cbn. rewrite app_nil_r. repeat split; auto.
      * intros [H|H]; rewrite H in *; cbn in *; congruence.
      * exact I.
Qed.

Lemma Forall_locked (Q : event -> Prop) cs :
  Q EvMuLock -> Q EvMuUnlock -> Forall Q cs -> Forall Q (flat_map locked cs).
Proof.
  intros Hl Hu. induction 1; cbn; auto.
Qed.

Lemma In_locked e cs :
  In e (flat_map locked cs) -> e = EvMuLock \/ e = EvMuUnlock \/ In e cs.
Proof.
  rewrite in_flat_map. intros (c & Hc & [<-|[<-|[<-|[]]]]); auto.
Qed.

Lemma calls_quiet evs : Forall quiet evs -> calls evs = [].
Proof.
  unfold calls. induction 1 as [|e evs (He & _) _ IH]; cbn; auto.
  rewrite He. exact IH.
Qed.

Lemma is_call_not_ref_change cs :
  Forall (fun e => is_call e = true) cs ->
  Forall (fun e => is_ref_change e = false) cs.
Proof. apply Forall_impl; intros [] H; cbn in *; congruence. Qed.

Lemma is_call_not_wrapped_write cs :
  Forall (fun e => is_call e = true) cs ->
  Forall (fun e => is_wrapped_write e = false) cs.
Proof. apply Forall_impl; intros [] H; cbn in *; congruence. Qed.

(** The trace of a run of endpoint_write: protector calls under the
    mutex, then at most the wrapped write. *)
Lemma write_run_shape w w' cb o :
  write_run w w' cb o ->
  exists cs,
    Forall (fun e => is_call e = true) cs /\
    (trace_since w w' = flat_map locked cs \/
     exists status,
       o = Returns status /\
       trace_since w w' =
         flat_map locked cs ++
         [EvWrappedWrite (output_buffer (ep w')) cb status]).
Proof.
  intros Hrun.
  inversion Hrun as [ps pre c st Hps Hpsok Hpre Hc Ht
                    |pre c Hpre Hpreok Hc Hcf Ht Hob Hwe
                    |cs Hcs Hok Ht];
    rewrite (trace_since_app _ _ _ Ht).
  - exists (ps ++ pre ++ [c]). split; [|right; exists st; auto].
    apply Forall_app; split; [apply Forall_is_protect_call, Hps|].
    apply Forall_app; split.
    + apply Forall_flush_again_call, Hpre.
    + constructor; [|constructor]. apply is_protect_flush_call, Hc.
  - exists (pre ++ [c]). split; [|left; reflexivity].
    apply Forall_app; split; auto.
  - exists cs. split; [exact Hcs|left; reflexivity].
Qed.

Lemma locked_no_wrapped_write cs e :
  Forall (fun e => is_call e = true) cs ->
  In e (flat_map locked cs) -> is_wrapped_write e = false.
Proof.
  intros Hcs H. apply In_locked in H as [->|[->|H]]; try reflexivity.
  apply is_call_not_wrapped_write in Hcs.
  rewrite Forall_forall in Hcs. auto.
Qed.

(* ================================================================== *)
(** * The write pipeline                                               *)
(* ================================================================== *)

(** C10: endpoint_write leaves the reference count as it found it, takes
    and releases no reference and frees nothing, whatever its result
    (also Pending); the only closure it hands to the wrapped write is the
    caller's completion, and the saved callbacks of the endpoint are left
    alone. *)
Theorem endpoint_write_takes_no_reference fuel slices cb w :
  let '(w', o) := endpoint_write fuel slices cb w in
  ref (ep w') = ref (ep w) /\
  freed w' = freed w /\
  Forall (fun e => is_ref_change e = false) (trace_since w w') /\
  (forall out cb' status,
     In (EvWrappedWrite out cb' status) (trace_since w w') ->
     cb' = cb /\ o = Returns status) /\
  read_cb (ep w') = read_cb (ep w) /\
  write_cb (ep w') = write_cb (ep w).
Proof.
  pose proof (endpoint_write_summary fuel slices cb w) as H.
  destruct (endpoint_write fuel slices cb w) as [w' o].
  destruct H as (Hrun & Hrc & Hwc & _ & _ & _ & _ & _ & Href & Hfr).
  destruct (write_run_shape _ _ _ _ Hrun) as (cs & Hcs & Hshape).
  assert (Hq : Forall (fun e => is_ref_change e = false)
                      (flat_map locked cs)).
  { apply Forall_locked; try reflexivity.
    apply is_call_not_ref_change, Hcs. }
  repeat split; auto.
  - destruct Hshape as [->|(st & _ & ->)]; [exact Hq|].
    apply Forall_app; split; [exact Hq|repeat constructor].
  - destruct Hshape as [Ht|(st & _ & Ht)]; rewrite Ht in H.
    + apply (locked_no_wrapped_write _ _ Hcs) in H. discriminate.
    + apply in_app_or in H as [H|[H|[]]]; [|congruence].
      apply (locked_no_wrapped_write _ _ Hcs) in H. discriminate.
  - destruct Hshape as [Ht|(st & -> & Ht)]; rewrite Ht in H.
    + apply (locked_no_wrapped_write _ _ Hcs) in H. discriminate.
    + apply in_app_or in H as [H|[H|[]]]; [|congruence].
      apply (locked_no_wrapped_write _ _ Hcs) in H. discriminate.
Qed.


(** C3: the flush phase of endpoint_write.
    (1) The [do ... while] loop calls flush at least once; every call but
        the last succeeded and reported bytes still pending; the loop is
        left only after a failed call or after a call that reported
        nothing pending, and the fuel can only be spent behind a call
        that reported bytes pending.
    (2) A flush call that fills the staging buffer has it sealed into the
        output list and replaced by a fresh one before the loop goes on.
    (3) Once the [for] loop over the input slices is over without a
        failure, endpoint_write does call flush.
    (4) The wrapped write is reached only behind the protect calls and a
        run of flush calls whose last one succeeded with nothing
        pending. *)
Theorem flush_phase_runs_until_nothing_pending fuel :
  (forall cur end_ w,
     let '(w', o) := endpoint_write_flush fuel cur end_ w in
     exists pre c,
       trace_since w w' = flat_map locked (pre ++ [c]) /\
       Forall flush_again pre /\
       is_protect_flush c = true /\
       match o with
       | Returns (_, _, r) =>
         call_result c = r /\ (tsi_ok r = true -> still_pending_of c = 0)
       | OutOfFuel => flush_again c
       | Aborted => False
       end) /\
  (forall cur end_ w,
     let '(r, _, out, still_pending) :=
       tsi_protect_flush (protector (ep w)) (end_ - cur) in
     tsi_ok r = true ->
     cur + length out = end_ ->
     let w2 := sealed_write (after_protect_flush w cur (end_ - cur)) in
     output_buffer (ep w2) =
       output_buffer (ep w) ++ [write_at (write_staging_buffer (ep w)) cur out]
     /\ write_staging_buffer (ep w2) = gpr_slice_malloc STAGING_BUFFER_SIZE
     /\ endpoint_write_flush fuel cur end_ w =
        if 0 <? still_pending then
          match fuel with
          | 0 => (w2, OutOfFuel)
          | S fuel' =>
            endpoint_write_flush fuel' 0 STAGING_BUFFER_SIZE w2
          end
        else (w2, Returns (0, STAGING_BUFFER_SIZE, r))) /\
  (forall slices cb w w1 cur end_ r,
     endpoint_write_for fuel slices 0 (length (write_staging_buffer (ep w)))
       TSI_OK (reset_output w) = (w1, Returns (cur, end_, r)) ->
     tsi_ok r = true ->
     exists c, is_protect_flush c = true /\
               In c (trace_since w (fst (endpoint_write fuel slices cb w)))) /\
  (forall slices cb w out cb' status,
     let '(w', o) := endpoint_write fuel slices cb w in
     In (EvWrappedWrite out cb' status) (trace_since w w') ->
     exists ps pre c,
       Forall (fun e => is_protect e = true) ps /\
       Forall call_ok ps /\
       Forall flush_again pre /\
       flush_done c /\
       o = Returns status /\
       trace_since w w' =
         flat_map locked (ps ++ pre ++ [c]) ++
         [EvWrappedWrite out cb' status]).
Proof.
  repeat split.
  - intros cur end_ w.
    pose proof (endpoint_write_flush_summary fuel cur end_ w) as H.
    destruct (endpoint_write_flush fuel cur end_ w) as [w' o].
    destruct H as (_ & pre & c & Ht & Hpre & Hc & Ho).
    exists pre, c. rewrite (trace_since_app _ _ _ Ht). auto.
  - intros cur end_ w.
    pose proof (endpoint_write_flush_eq fuel cur end_ w) as Heq.
    cbv zeta in Heq.
    unfold after_protect_flush in *.
    destruct (tsi_protect_flush (protector (ep w)) (end_ - cur))
      as [[[r p] out] pending].
    intros Hr Hfull. rewrite Hr in Heq. cbn [negb] in Heq.
    apply Nat.eqb_eq in Hfull. rewrite Hfull in Heq.
    rewrite gpr_slice_malloc_length in Heq.
    repeat split; exact Heq.
  - intros slices cb w w1 cur end_ r Hfor Hr.
    rewrite endpoint_write_eq, Hfor, Hr.
    pose proof (endpoint_write_for_summary fuel slices 0
                  (length (write_staging_buffer (ep w))) TSI_OK
                  (reset_output w) eq_refl) as H1.
    rewrite Hfor in H1. destruct H1 as (_ & _ & ps & Ht1 & _).
    cbn [reset_output trace] in Ht1.
    pose proof (endpoint_write_flush_summary fuel cur end_ w1) as H2.
    destruct (endpoint_write_flush fuel cur end_ w1) as [w2 o2].
    destruct H2 as (_ & pre & c & Ht2 & _ & Hc & _).
    exists c. split; [exact Hc|].
    assert (Hin : forall w3 evs, trace w3 = trace w2 ++ evs ->
                                 In c (trace_since w w3)).
    { intros w3 evs Ht3.
      rewrite (trace_since_app w w3
                 (flat_map locked ps ++ flat_map locked (pre ++ [c]) ++ evs)).
      - apply in_or_app; right. apply in_or_app; left.
        rewrite flat_map_app. apply in_or_app; right. cbn; auto.
      - rewrite Ht3, Ht2, Ht1, <- !app_assoc. reflexivity. }
    destruct o2 as [[[cur2 end2] r2]| |]; cbn [fst].
    + cbv zeta. destruct (tsi_ok r2); cbn [fst].
      * eapply Hin. cbn [after_wrapped_write trace].
        rewrite trace_write_split. reflexivity.
      * apply (Hin _ []). cbn [reset_output trace].
        rewrite trace_write_split, app_nil_r. reflexivity.
    + apply (Hin _ []). rewrite app_nil_r. reflexivity.
    + apply (Hin _ []). rewrite app_nil_r. reflexivity.
  - intros slices cb w out cb' status.
    pose proof (endpoint_write_summary fuel slices cb w) as H.
    destruct (endpoint_write fuel slices cb w) as [w' o].
    destruct H as (Hrun & _). intros Hin.
    inversion Hrun as [ps pre c st Hps Hpsok Hpre Hc Ht
                      |pre c Hpre Hpreok Hc Hcf Ht Hob Hwe
                      |cs Hcs Hok Ht];
      rewrite (trace_since_app _ _ _ Ht) in *.
    + apply in_app_or in Hin as [Hin|[Hin|[]]].
      * exfalso.
        destruct (write_run_shape _ _ _ _ Hrun) as (cs & Hcs & _).
        assert (Hall : Forall (fun e => is_call e = true)
                              (ps ++ pre ++ [c])).
        { apply Forall_app; split; [apply Forall_is_protect_call, Hps|].
          apply Forall_app; split.
          - apply Forall_flush_again_call, Hpre.
          - constructor; [|constructor].
            apply is_protect_flush_call, Hc. }
        apply (locked_no_wrapped_write _ _ Hall) in Hin. discriminate.
      * inversion Hin; subst. exists ps, pre, c. repeat split; auto.
        all: apply Hc.
    + exfalso.
      assert (Hall : Forall (fun e => is_call e = true) (pre ++ [c]))
        by (apply Forall_app; split; auto).
      apply (locked_no_wrapped_write _ _ Hall) in Hin. discriminate.
    + exfalso.
      apply (locked_no_wrapped_write _ _ Hcs) in Hin. discriminate.
Qed.

(* ================================================================== *)
(** * Failures of the protector                                        *)
(* ================================================================== *)

(** C4: when the [j]-th protector call of a read or of a write fails,
    that call is the last one of the operation, the operation returns
    failure (0 for on_read, Error for endpoint_read and endpoint_write),
    the destination list (read) or the output list (write) is left empty,
    and a write makes no call to the wrapped write and leaves the wrapped
    endpoint as it was. *)
Theorem crypto_failure_isolation fuel j c :
  call_failed c = true ->
  (forall success w,
     read_buffer (ep w) = true -> success <> 0%Z ->
     let '(w', o) := on_read fuel success w in
     nth_error (calls (trace_since w w')) j = Some c ->
     o = Returns 0%Z /\ destination w' = [] /\
     length (calls (trace_since w w')) = S j) /\
  (forall slices cb w,
     let '(w', o) := endpoint_read fuel slices cb w in
     nth_error (calls (trace_since w w')) j = Some c ->
     o = Returns GRPC_ENDPOINT_ERROR /\ destination w' = [] /\
     length (calls (trace_since w w')) = S j) /\
  (forall slices cb w,
     let '(w', o) := endpoint_write fuel slices cb w in
     nth_error (calls (trace_since w w')) j = Some c ->
     o = Returns GRPC_ENDPOINT_ERROR /\ output_buffer (ep w') = [] /\
     Forall (fun e => is_wrapped_write e = false) (trace_since w w') /\
     wrapped_ep (ep w') = wrapped_ep (ep w) /\
     length (calls (trace_since w w')) = S j).
Proof.
  intros Hfail.
  assert (Hnot : forall cs, Forall call_ok cs -> nth_error cs j <> Some c).
  { intros cs Hok Hn. apply (call_failed_not_ok _ Hfail).
    eapply Forall_nth_error; eauto. }
  repeat split.
  - intros success w Hrb Hs.
    pose proof (on_read_summary fuel success w Hrb Hs) as H.
    destruct (on_read fuel success w) as [w' o].
    destruct H as (Hrun & _).
    inversion Hrun as [cs Hcs Hok Ht Hsrc Ho
                      |pre c' Hcs Hok Hc Ht Hsrc Hdst Ho
                      |cs Hcs Hok Ht Ho];
      rewrite (trace_since_app _ _ _ Ht),
        (calls_locked _ (Forall_is_unprotect_call _ Hcs)); intros Hn.
    + exfalso. eapply Hnot; eauto.
    + destruct (failed_call_is_last _ _ _ _ Hok Hn Hfail) as [_ Hlen].
      auto.
    + exfalso. eapply Hnot; eauto.
  - intros slices cb w.
    pose proof (endpoint_read_summary fuel slices cb w) as H.
    destruct (endpoint_read fuel slices cb w) as [w' o].
    destruct H as ((head & cs & tail & Ht & Hh & Htl & Hcs & Ho) & _).
    rewrite (trace_since_app _ _ _ Ht), !calls_app,
      (calls_quiet _ Hh), (calls_quiet _ Htl),
      (calls_locked _ (Forall_is_unprotect_call _ Hcs)), app_nil_r.
    cbn [app]. intros Hn.
    destruct o as [[| |]| |]; try (exfalso; eapply Hnot; now eauto);
      try (subst cs; destruct j; discriminate).
    destruct Ho as (Hd & [->|(pre & c' & -> & Hok & Hc)]).
    + destruct j; discriminate.
    + destruct (failed_call_is_last _ _ _ _ Hok Hn Hfail) as [_ Hlen].
      auto.
  - intros slices cb w.
    pose proof (endpoint_write_summary fuel slices cb w) as H.
    destruct (endpoint_write fuel slices cb w) as [w' o].
    destruct H as (Hrun & _).
    inversion Hrun as [ps pre c' st Hps Hpsok Hpre Hc Ht
                      |pre c' Hpre Hpreok Hc Hcf Ht Hob Hwe
                      |cs Hcs Hok Ht];
      rewrite (trace_since_app _ _ _ Ht).
    + rewrite calls_app. cbn [calls filter is_call app].
      rewrite app_nil_r.
      assert (Hall : Forall (fun e => is_call e = true) (ps ++ pre ++ [c'])).
      { apply Forall_app; split; [apply Forall_is_protect_call, Hps|].
        apply Forall_app; split.
        - apply Forall_flush_again_call, Hpre.
        - constructor; [|constructor]. apply is_protect_flush_call, Hc. }
      fold (calls (flat_map locked (ps ++ pre ++ [c']))).
      rewrite (calls_locked _ Hall). intros Hn. exfalso.
      eapply Hnot; [|exact Hn].
      apply Forall_app; split; [exact Hpsok|].
      apply Forall_app; split.
      * apply Forall_flush_again_call, Hpre.
      * constructor; [|constructor]. apply Hc.
    + assert (Hall : Forall (fun e => is_call e = true) (pre ++ [c']))
        by (apply Forall_app; split; auto).
      rewrite (calls_locked _ Hall). intros Hn.
      destruct (failed_call_is_last _ _ _ _ Hpreok Hn Hfail) as [_ Hlen].
      repeat split; auto.
      apply Forall_forall. intros e He.
      apply (locked_no_wrapped_write _ _ Hall He).
    + rewrite (calls_locked _ Hcs). intros Hn. exfalso.
      eapply Hnot; eauto.
Qed.


Lemma tsi_ok_eq r : tsi_ok r = true -> r = TSI_OK.
Proof. destruct r; [reflexivity|discriminate]. Qed.

(* ================================================================== *)
(** * The completion of a read                                         *)
(* ================================================================== *)

(** C7, amended: a read whose transport phase succeeded (on_read entered
    with a non-zero success flag) ends, whether the unprotect calls all
    succeed or one fails, with the unsealed prefix of the staging buffer
    split off (appended to the destination list, which is then emptied
    when a call failed) and with the source scratch list empty.  On a
    transport error (success flag 0) on_read only empties the
    destination list: the staging buffer and the source scratch list are
    left as they were. *)
Theorem read_completion fuel success w :
  read_buffer (ep w) = true ->
  (success = 0%Z ->
   on_read fuel success w = (reset_destination w, Returns 0%Z)) /\
  (success <> 0%Z ->
   forall w' r,
     on_read fuel success w = (w', Returns r) ->
     source_buffer (ep w') = [] /\
     exists w1 cur end1 keep1 result,
       on_read_for fuel (source_buffer (ep w)) 0
         (length (read_staging_buffer (ep w))) false TSI_OK w =
         (w1, Returns (cur, end1, keep1, result)) /\
       r = (if tsi_ok result then 1%Z else 0%Z) /\
       read_staging_buffer (ep w') = skipn cur (read_staging_buffer (ep w1)) /\
       destination w' =
         if tsi_ok result then
           destination w1 ++
           (if cur =? 0 then []
            else [firstn cur (read_staging_buffer (ep w1))])
         else []).
Proof.
  intros Hrb. split.
  - intros ->. apply on_read_transport_failure, Hrb.
  - intros Hs w' r Hrun.
    rewrite on_read_eq in Hrun by exact Hrb.
    apply Z.eqb_neq in Hs. rewrite Hs in Hrun.
    destruct (on_read_for fuel (source_buffer (ep w)) 0
                (length (read_staging_buffer (ep w))) false TSI_OK w)
      as [w1 [[[[cur end1] keep1] result]| |]]; try discriminate.
    inversion Hrun; subst w' r; clear Hrun.
    split; [reflexivity|].
    exists w1, cur, end1, keep1, result.
    split; [reflexivity|]. split; [reflexivity|].
    unfold on_read_finish, gpr_slice_buffer_add.
    destruct (cur =? 0) eqn:Hcur; cbn.
    + apply Nat.eqb_eq in Hcur; subst cur.
      rewrite app_nil_r. split; reflexivity.
    + split; reflexivity.
Qed.

(** Summary of on_read_cb when the destination pointer and the saved
    callback are set. *)
Lemma on_read_cb_summary fuel success w cb :
  read_buffer (ep w) = true ->
  read_cb (ep w) = Some cb ->
  let '(w', o) := on_read_cb fuel success w in
  exists cs,
    Forall (fun e => is_unprotect e = true) cs /\
    (leftover_bytes (ep w) = [] -> leftover_bytes (ep w') = []) /\
    match o with
    | Returns _ =>
      exists r tail,
        trace w' = trace w ++ flat_map locked cs ++ EvClosure cb r :: tail /\
        Forall quiet tail /\
        ref (ep w') = (ref (ep w) - 1)%Z /\
        freed w' = ((ref (ep w) =? 1)%Z || freed w)
    | OutOfFuel =>
      trace w' = trace w ++ flat_map locked cs /\
      ref (ep w') = ref (ep w) /\ freed w' = freed w
    | Aborted => False
    end.
Proof.
  intros Hrb Hcb. rewrite on_read_cb_eq.
  assert (Hfin : forall w1 r cs,
    read_cb (ep w1) = Some cb ->
    trace w1 = trace w ++ flat_map locked cs ->
    leftover_bytes (ep w1) = leftover_bytes (ep w) ->
    ref (ep w1) = ref (ep w) -> freed w1 = freed w ->
    let w' :=
      after_unref {| ep := set_read_buffer false (ep w1);
                     destination := destination w1;
                     freed := freed w1;
                     trace := trace w1 ++ [EvClosure cb r] |} in
    (leftover_bytes (ep w) = [] -> leftover_bytes (ep w') = []) /\
    exists r tail,
      trace w' = trace w ++ flat_map locked cs ++ EvClosure cb r :: tail /\
      Forall quiet tail /\
      ref (ep w') = (ref (ep w) - 1)%Z /\
      freed w' = ((ref (ep w) =? 1)%Z || freed w)).
  { intros w1 r cs H1 Ht Hl Href Hfr.
    match goal with |- let w' := after_unref ?x in _ =>
      destruct (after_unref_quiet x) as (tail & Htl & Hq);
      destruct (after_unref_fields x) as (_ & _ & _ & _ & Hu5 & Hu6 & Hu7)
    end.
    cbn [ep ref freed trace leftover_bytes set_read_buffer] in *.
    cbv zeta. split.
    - intros Hle. apply Hu7. congruence.
    - exists r, tail. split; [|split; [exact Hq|split]].
      + rewrite Htl, Ht, <- !app_assoc. reflexivity.
      + rewrite Hu5. congruence.
      + rewrite Hu6. congruence. }
  destruct (Z.eq_dec success 0) as [->|Hs].
  - rewrite on_read_transport_failure by exact Hrb.
    cbn [reset_destination ep read_cb]. rewrite Hcb.
    exists []. split; [constructor|].
    apply (Hfin (reset_destination w) 0%Z []); cbn; auto.
    rewrite app_nil_r; reflexivity.
  - pose proof (on_read_summary fuel success w Hrb Hs) as Hsum.
    destruct (on_read fuel success w) as [w1 o1].
    destruct Hsum as (Hrun & _ & Hk2 & _ & Hk4 & Hk5 & _ & _ & Hk8 & Hk9).
    inversion Hrun as [cs Hcs Hok Ht Hsrc Ho
                      |pre c Hcs Hok Hc Ht Hsrc Hdst Ho
                      |cs Hcs Hok Ht Ho]; subst o1.
    + rewrite Hk2, Hcb. exists cs. split; [exact Hcs|].
      apply Hfin; auto; congruence.
    + rewrite Hk2, Hcb. exists (pre ++ [c]). split; [exact Hcs|].
      apply Hfin; auto; congruence.
    + exists cs. split; [exact Hcs|]. split; [congruence|]. auto.
Qed.


(* ================================================================== *)
(** * The endpoint in use: lifetime and leftover bytes                 *)
(* ================================================================== *)

Lemma session_inv_create p t leftover :
  session_inv (api_create p t leftover).
Proof.
  unfold session_inv, api_create, grpc_secure_endpoint_create; cbn.
  split; [reflexivity|]. split; [reflexivity|].
  split; [discriminate|]. right; reflexivity.
Qed.

(** Every call of the contract keeps the invariant, and empties the
    leftover list if it is a read. *)
Lemma api_step_inv fuel s c s' :
  session_inv s ->
  api_step fuel s c = Some s' ->
  session_inv s' /\
  (is_read_call c = true \/ leftover_bytes (ep (sw s)) = [] ->
   leftover_bytes (ep (sw s')) = []).
Proof.
  intros (Href & Hfr & Hpend & Hlo) Hstep.
  destruct c as [slices cb|slices cb| | |received success];
    cbn [api_step is_read_call] in Hstep.
  - (* read *)
    destruct (read_pending s) eqn:Hp; [discriminate|].
    destruct (destroy_called s) eqn:Hd; [discriminate|].
    cbn [orb] in Hstep.
    pose proof (endpoint_read_summary fuel slices cb (sw s)) as Hsum.
    destruct (endpoint_read fuel slices cb (sw s)) as [w' [status| |]];
      try discriminate.
    inversion Hstep; subst s'; clear Hstep.
    destruct Hsum as (_ & Hcb & Hrb & Hl & Hst).
    destruct (Hl Hlo) as [_ Hl'].
    unfold session_inv; cbn [sw read_pending destroy_called].
    cbn in Href.
    split; [|intros _; exact Hl'].
    destruct status.
    + destruct Hst as [Hr Hf].
      rewrite Hr, Href. repeat split; auto; try discriminate.
      rewrite Hf, Hfr, Href; [reflexivity|lia].
    + destruct Hst as [Hr Hf].
      rewrite Hr, Href. repeat split; eauto.
      rewrite Hf, Hfr, Href; reflexivity.
    + destruct Hst as [Hr Hf].
      rewrite Hr, Href. repeat split; auto; try discriminate.
      rewrite Hf, Hfr, Href; [reflexivity|lia].
  - (* write *)
    destruct (destroy_called s) eqn:Hd; [discriminate|].
    pose proof (endpoint_write_summary fuel slices cb (sw s)) as Hsum.
    destruct (endpoint_write fuel slices cb (sw s)) as [w' [status| |]];
      try discriminate.
    inversion Hstep; subst s'; clear Hstep.
    destruct Hsum as
      (_ & Hk1 & _ & Hk3 & Hk4 & Hk5 & _ & _ & Hk8 & Hk9).
    unfold session_inv; cbn [sw read_pending destroy_called].
    rewrite Hk1, Hk3, Hk4, Hk5, Hk8, Hk9.
    split; [|intros [H|H]; [discriminate|exact H]].
    repeat split; auto; apply Hpend; auto.
  - (* shutdown *)
    destruct (destroy_called s) eqn:Hd; [discriminate|].
    inversion Hstep; subst s'; clear Hstep.
    unfold session_inv; cbn.
    split; [|intros [H|H]; [discriminate|exact H]].
    repeat split; auto; apply Hpend; auto.
  - (* destroy *)
    destruct (destroy_called s) eqn:Hd; [discriminate|].
    inversion Hstep; subst s'; clear Hstep.
    unfold endpoint_destroy. rewrite secure_endpoint_unref_eq.
    destruct (after_unref_fields (sw s))
      as (Hu1 & _ & Hu3 & _ & Hu5 & Hu6 & Hu7).
    unfold session_inv; cbn [sw read_pending destroy_called fst].
    rewrite Hu1, Hu3, Hu5, Hu6, Hfr, Href.
    split; [|intros [H|H]; [discriminate|auto]].
    destruct (read_pending s) eqn:Hp; cbn.
    + destruct (Hpend eq_refl) as (Hrb & Hcb & Hl).
      repeat split; auto.
    + repeat split; auto; try discriminate.
      unfold after_unref. rewrite Href. cbn. right. reflexivity.
  - (* the pending read completes *)
    destruct (read_pending s) eqn:Hp; [|discriminate].
    destruct (Hpend eq_refl) as (Hrb & (cb & Hcb) & Hl).
    pose proof (on_read_cb_summary fuel success
                  (transport_delivers received (sw s)) cb Hrb Hcb) as Hsum.
    destruct (on_read_cb fuel success (transport_delivers received (sw s)))
      as [w' [[]| |]]; try discriminate.
    inversion Hstep; subst s'; clear Hstep.
    destruct Hsum as (cs & _ & Hl' & r & tail & _ & _ & Hr & Hf).
    cbn [transport_delivers ep ref freed leftover_bytes set_source_buffer]
      in Hl', Hr, Hf.
    specialize (Hl' Hl).
    unfold session_inv; cbn [sw read_pending destroy_called].
    split; [|intros _; exact Hl'].
    rewrite Hr, Hf, Hfr, Href.
    destruct (destroy_called s); cbn; repeat split; auto; discriminate.
Qed.

Lemma api_run_inv fuel cs : forall s s',
  session_inv s ->
  api_run fuel s cs = Some s' ->
  session_inv s' /\
  (existsb is_read_call cs = true \/ leftover_bytes (ep (sw s)) = [] ->
   leftover_bytes (ep (sw s')) = []).
Proof.
  induction cs as [|c cs IH]; intros s s' Hinv Hrun; cbn in Hrun.
  - inversion Hrun; subst. split; [exact Hinv|].
    intros [H|H]; [discriminate|exact H].
  - destruct (api_step fuel s c) as [s1|] eqn:Hstep; [|discriminate].
    destruct (api_step_inv _ _ _ _ Hinv Hstep) as [Hinv1 Hl1].
    destruct (IH _ _ Hinv1 Hrun) as [Hinv' Hl'].
    split; [exact Hinv'|].
    cbn [existsb]. intros [H|H].
    + apply orb_prop in H as [H|H]; [|apply Hl'; left; exact H].
      apply Hl'; right; apply Hl1; left; exact H.
    + apply Hl'; right; apply Hl1; right; exact H.
Qed.


(** C5: in every session that starts at grpc_secure_endpoint_create and
    follows the endpoint contract, the count is one for the application
    until it calls destroy, plus one while a read is pending in the
    wrapped transport; the endpoint is freed when and only when the count
    is zero.  So while a read is pending the count is positive and the
    endpoint is not freed, also after destroy; and an unref decrements
    the count and frees the endpoint exactly when the count becomes
    zero. *)
Theorem pending_read_keeps_endpoint_alive fuel p t leftover calls s :
  api_run fuel (api_create p t leftover) calls = Some s ->
  ref (ep (sw s)) =
    ((if destroy_called s then 0 else 1) +
     (if read_pending s then 1 else 0))%Z /\
  freed (sw s) = (ref (ep (sw s)) =? 0)%Z /\
  (read_pending s = true ->
   (0 < ref (ep (sw s)))%Z /\ freed (sw s) = false) /\
  (forall w,
     let w' := fst (secure_endpoint_unref w) in
     ref (ep w') = (ref (ep w) - 1)%Z /\
     freed w' = ((ref (ep w') =? 0)%Z || freed w)).
Proof.
  intros Hrun.
  destruct (api_run_inv fuel calls _ _ (session_inv_create p t leftover) Hrun)
    as ((Href & Hfr & _) & _).
  split; [exact Href|]. split; [exact Hfr|]. split.
  - intros Hp. rewrite Hfr, Href, Hp.
    destruct (destroy_called s); cbn; split; reflexivity || lia.
  - intros w. rewrite secure_endpoint_unref_eq. cbn [fst].
    destruct (after_unref_fields w) as (_ & _ & _ & _ & Hu5 & Hu6 & _).
    rewrite Hu5, Hu6. split; [reflexivity|].
    f_equal. destruct (Z.eqb_spec (ref (ep w)) 1);
      destruct (Z.eqb_spec (ref (ep w) - 1) 0); auto; lia.
Qed.

(* ================================================================== *)
(** * The completion closure of a read                                 *)
(* ================================================================== *)




(* ================================================================== *)
(** * The mutex                                                        *)
(* ================================================================== *)

Lemma well_locked_locked cs rest :
  Forall (fun c => is_call c = true) cs ->
  well_locked (flat_map locked cs ++ rest) = well_locked rest.
Proof.
  induction 1 as [|c cs Hc _ IH]; [reflexivity|].
  cbn [flat_map locked app well_locked]. rewrite Hc. exact IH.
Qed.

Lemma well_locked_calm evs rest :
  Forall (fun e => is_mu e = false /\ is_call e = false) evs ->
  well_locked (evs ++ rest) = well_locked rest.
Proof.
  induction 1 as [|e evs [Hm Hc] _ IH]; [reflexivity|].
  cbn [app]. destruct e; cbn in Hm, Hc; try discriminate; exact IH.
Qed.

Lemma quiet_calm evs :
  Forall quiet evs ->
  Forall (fun e => is_mu e = false /\ is_call e = false) evs.
Proof. apply Forall_impl. intros e (Hc & Hm & _). auto. Qed.

(** The trace of on_read, whatever the state of the endpoint. *)
Lemma on_read_trace fuel success w :
  exists cs,
    Forall (fun e => is_unprotect e = true) cs /\
    trace (fst (on_read fuel success w)) = trace w ++ flat_map locked cs.
Proof.
  unfold on_read, bind, get_ep at 1.
  destruct (success =? 0)%Z.
  - exists []. split; [constructor|]. cbn [flat_map]. rewrite app_nil_r.
    unfold with_read_buffer, bind, get_ep, modify_destination.
    destruct (read_buffer (ep w)); reflexivity.
  - pose proof (on_read_for_summary fuel (source_buffer (ep w)) 0
                  (length (read_staging_buffer (ep w))) false TSI_OK w
                  eq_refl) as Hs.
    destruct (on_read_for _ _ _ _ _ _ w)
      as [w1 [[[[cur end1] keep1] r1]| |]];
      destruct Hs as (_ & cs & Ht & Hcs & _); exists cs;
      (split; [exact Hcs|]); try exact Ht.
    rewrite <- Ht.
    unfold gpr_slice_split_head, with_read_buffer, bind, get_ep, modify_ep,
      modify_destination, ret.
    destruct (negb (cur =? 0)); cbn;
      destruct (read_buffer (ep w1)); cbn;
      destruct (tsi_ok r1); cbn;
      try reflexivity; destruct (read_buffer (ep w1)); reflexivity.
Qed.

Lemma after_unref_calm w :
  exists tail,
    trace (after_unref w) = trace w ++ tail /\
    Forall (fun e => is_mu e = false /\ is_call e = false) tail.
Proof.
  destruct (after_unref_quiet w) as (tail & Ht & Hq).
  exists tail. split; [exact Ht|apply quiet_calm, Hq].
Qed.

(** Every operation of the read direction takes the mutex only around
    single protector calls. *)
Lemma read_operation_well_locked fuel op w :
  well_locked (trace_since w (run_read_operation fuel op w)) = true.
Proof.
  destruct op as [slices cb|success]; cbn [run_read_operation].
  - pose proof (endpoint_read_summary fuel slices cb w) as H.
    destruct (endpoint_read fuel slices cb w) as [w' o]. cbn [fst].
    destruct H as ((head & cs & tail & Ht & Hh & Htl & Hcs & _) & _).
    rewrite (trace_since_app _ _ _ Ht).
    rewrite (well_locked_calm _ _ (quiet_calm _ Hh)).
    rewrite (well_locked_locked _ _ (Forall_is_unprotect_call _ Hcs)).
    rewrite <- (app_nil_r tail).
    rewrite (well_locked_calm _ _ (quiet_calm _ Htl)). reflexivity.
  - rewrite on_read_cb_eq.
    destruct (on_read_trace fuel success w) as (cs & Hcs & Ht).
    destruct (on_read fuel success w) as [w1 o1]. cbn [fst] in Ht.
    assert (Hwl : forall tail,
              Forall (fun e => is_mu e = false /\ is_call e = false) tail ->
              well_locked (flat_map locked cs ++ tail) = true).
    { intros tail Htl.
      rewrite (well_locked_locked _ _ (Forall_is_unprotect_call _ Hcs)).
      rewrite <- (app_nil_r tail).
      rewrite (well_locked_calm _ _ Htl). reflexivity. }
    destruct o1 as [r| |]; cbn [fst].
    + destruct (read_cb (ep w1)) as [cb|]; cbn [fst].
      * match goal with
        | |- context [after_unref ?x] =>
          destruct (after_unref_calm x) as (tail & Htl & Hq)
        end.
        cbn [trace] in Htl.
        rewrite (trace_since_app _ _
                   (flat_map locked cs ++ EvClosure cb r :: tail)).
        -- apply Hwl. constructor; [split; reflexivity|exact Hq].
        -- rewrite Htl, Ht, <- !app_assoc. reflexivity.
      * rewrite (trace_since_app _ _ (flat_map locked cs ++ [])).
        -- apply Hwl. constructor.
        -- cbn [trace]. rewrite app_nil_r. exact Ht.
    + rewrite (trace_since_app _ _ (flat_map locked cs ++ [])).
      * apply Hwl. constructor.
      * rewrite app_nil_r. exact Ht.
    + rewrite (trace_since_app _ _ (flat_map locked cs ++ [])).
      * apply Hwl. constructor.
      * rewrite app_nil_r. exact Ht.
Qed.

(** endpoint_write takes the mutex only around single protector calls. *)
Lemma endpoint_write_well_locked fuel slices cb w :
  well_locked (trace_since w (fst (endpoint_write fuel slices cb w))) = true.
Proof.
  pose proof (endpoint_write_summary fuel slices cb w) as H.
  destruct (endpoint_write fuel slices cb w) as [w' o]. cbn [fst].
  destruct H as (Hrun & _).
  destruct (write_run_shape _ _ _ _ Hrun) as (cs & Hcs & [Ht|(st & _ & Ht)]);
    rewrite Ht.
  - rewrite <- (app_nil_r (flat_map locked cs)).
    rewrite (well_locked_locked _ _ Hcs). reflexivity.
  - rewrite (well_locked_locked _ _ Hcs). reflexivity.
Qed.

Lemma direction_eqb_eq a b : direction_eqb a b = true <-> a = b.
Proof. destruct a, b; cbn; split; congruence. Qed.

Lemma events_of_cons d x tr :
  events_of d (x :: tr) =
  if direction_eqb (fst x) d then snd x :: events_of d tr
  else events_of d tr.
Proof.
  unfold events_of. cbn [filter].
  destruct (direction_eqb (fst x) d); reflexivity.
Qed.

Lemma well_locked_lock evs :
  well_locked (EvMuLock :: evs) = true ->
  exists c rest, evs = c :: EvMuUnlock :: rest /\
                 is_call c = true /\ well_locked rest = true.
Proof.
  cbn [well_locked].
  destruct evs as [|c [|[] rest]]; cbn; try discriminate.
  intros H. apply andb_prop in H as [Hc Hw]. eauto.
Qed.

Lemma well_locked_tail e evs :
  well_locked (e :: evs) = true ->
  is_mu e = false -> is_call e = false ->
  well_locked evs = true.
Proof.
  destruct e; cbn; try discriminate; auto.
Qed.

Lemma well_locked_head e evs :
  well_locked (e :: evs) = true ->
  e = EvMuLock \/ (is_mu e = false /\ is_call e = false).
Proof.
  destruct e; cbn; try discriminate; auto.
Qed.

(** An execution that respects the mutex, in which each direction takes
    the mutex only around single calls, has its calls serialized. *)
Lemma mutex_serializes tr : forall ph,
  mutex_respected (holder_of ph) tr = true ->
  (forall d, rest_of_direction ph d (events_of d tr) = true) ->
  serial ph (filter (fun x => is_mu (snd x) || is_call (snd x)) tr) = true.
Proof.
  induction tr as [|[d e] tr IH]; intros ph Hmu Hall.
  - destruct ph as [|d0|d0]; [reflexivity| |];
      specialize (Hall d0); cbn in Hall;
      destruct d0; discriminate.
  - assert (Hd : rest_of_direction ph d (e :: events_of d tr) = true).
    { specialize (Hall d). rewrite events_of_cons in Hall. cbn [fst snd] in Hall.
      replace (direction_eqb d d) with true in Hall
        by (destruct d; reflexivity).
      exact Hall. }
    assert (Hother : forall d', d' <> d ->
              rest_of_direction ph d' (events_of d' tr) = true).
    { intros d' Hne. specialize (Hall d').
      rewrite events_of_cons in Hall. cbn [fst snd] in Hall.
      replace (direction_eqb d d') with false in Hall
        by (destruct d, d'; try reflexivity; congruence).
      exact Hall. }
    clear Hall. cbn [filter snd].
    assert (Hcalm : is_mu e = false -> is_call e = false ->
              mutex_respected (holder_of ph) tr = true /\
              (is_mu e || is_call e) = false).
    { intros Hm Hc. split; [|rewrite Hm, Hc; reflexivity].
      destruct e; cbn in Hm, Hc; try discriminate; exact Hmu. }
    destruct ph as [|d0|d0]; cbn [rest_of_direction] in Hd.
    + (* the mutex is free *)
      destruct (well_locked_head _ _ Hd) as [->|[Hm Hc]].
      * destruct (well_locked_lock _ Hd) as (c & rest & He & Hcc & Hrest).
        cbn [is_mu is_call orb serial].
        apply (IH (Locked d)); [exact Hmu|].
        intros d'. cbn [rest_of_direction].
        destruct (direction_eqb d' d) eqn:Hdd.
        -- apply direction_eqb_eq in Hdd; subst d'.
           rewrite He, Hcc, Hrest. reflexivity.
        -- apply (Hother d'). intros ->.
           destruct d; discriminate.
      * destruct (Hcalm Hm Hc) as [Hmu' ->].
        apply (IH Free); [exact Hmu'|].
        intros d'. cbn [rest_of_direction].
        destruct (direction_eqb d' d) eqn:Hdd.
        -- apply direction_eqb_eq in Hdd; subst d'.
           eapply well_locked_tail; eauto.
        -- apply (Hother d'). intros ->. destruct d; discriminate.
    + (* locked, the call is still to come *)
      destruct (direction_eqb d d0) eqn:Hdd.
      * apply direction_eqb_eq in Hdd; subst d0.
        destruct (events_of d tr) as [|u rest] eqn:Hev; [discriminate|].
        destruct u; try discriminate.
        apply andb_prop in Hd as [Hc Hrest].
        assert (Hm : is_mu e = false) by (destruct e; cbn in *; congruence).
        cbn [serial]. rewrite Hc, Hm. cbn [orb serial andb].
        rewrite Hc. replace (direction_eqb d d) with true
          by (destruct d; reflexivity).
        cbn [andb].
        apply (IH (Called d)).
        -- destruct e; cbn in Hc, Hm; try discriminate; exact Hmu.
        -- intros d'. cbn [rest_of_direction].
           destruct (direction_eqb d' d) eqn:Hdd.
           ++ apply direction_eqb_eq in Hdd; subst d'.
              rewrite Hev. exact Hrest.
           ++ specialize (Hother d'). cbn [rest_of_direction] in Hother.
              rewrite Hdd in Hother. apply Hother.
              intros ->. destruct d; discriminate.
      * destruct (well_locked_head _ _ Hd) as [->|[Hm Hc]];
          [cbn in Hmu; discriminate|].
        destruct (Hcalm Hm Hc) as [Hmu' ->].
        apply (IH (Locked d0)); [exact Hmu'|].
        intros d'. cbn [rest_of_direction].
        destruct (direction_eqb d' d0) eqn:Hd0.
        -- specialize (Hother d'). cbn [rest_of_direction] in Hother.
           rewrite Hd0 in Hother. apply Hother.
           apply direction_eqb_eq in Hd0; subst d'.
           intros ->. destruct d; discriminate.
        -- destruct d, d', d0; try discriminate;
             eapply well_locked_tail; eauto.
    + (* locked, the call is over *)
      destruct (direction_eqb d d0) eqn:Hdd.
      * apply direction_eqb_eq in Hdd; subst d0.
        destruct e; try discriminate.
        cbn [is_mu is_call orb serial].
        cbn [mutex_respected holder_of] in Hmu.
        apply andb_prop in Hmu as [-> Hmu]. cbn [andb].
        apply (IH Free); [exact Hmu|].
        intros d'. cbn [rest_of_direction].
        destruct (direction_eqb d' d) eqn:Hdd.
        -- apply direction_eqb_eq in Hdd; subst d'. exact Hd.
        -- specialize (Hother d'). cbn [rest_of_direction] in Hother.
           rewrite Hdd in Hother. apply Hother.
           intros ->. destruct d; discriminate.
      * destruct (well_locked_head _ _ Hd) as [->|[Hm Hc]];
          [cbn in Hmu; discriminate|].
        destruct (Hcalm Hm Hc) as [Hmu' ->].
        apply (IH (Called d0)); [exact Hmu'|].
        intros d'. cbn [rest_of_direction].
        destruct (direction_eqb d' d0) eqn:Hd0.
        -- specialize (Hother d'). cbn [rest_of_direction] in Hother.
           rewrite Hd0 in Hother. apply Hother.
           apply direction_eqb_eq in Hd0; subst d'.
           intros ->. destruct d; discriminate.
        -- destruct d, d', d0; try discriminate;
             eapply well_locked_tail; eauto.
Qed.

(** C8: every protector call of an operation of either direction stands
    between a lock and an unlock of the protector mutex, and the mutex is
    taken for nothing else, so it is held for one call at a time; and in
    an execution of a read-direction operation and a write next to each
    other that respects the mutex, the lock, call and unlock events come
    in triples of one direction: the calls of the two directions are
    serialized. *)
Theorem protector_calls_serialized fuel op wR slices cb wW tr :
  events_of ReadDirection tr =
    trace_since wR (run_read_operation fuel op wR) ->
  events_of WriteDirection tr =
    trace_since wW (fst (endpoint_write fuel slices cb wW)) ->
  mutex_respected None tr = true ->
  well_locked (events_of ReadDirection tr) = true /\
  well_locked (events_of WriteDirection tr) = true /\
  serialized tr = true.
Proof.
  intros HR HW Hmu.
  assert (HwR : well_locked (events_of ReadDirection tr) = true)
    by (rewrite HR; apply read_operation_well_locked).
  assert (HwW : well_locked (events_of WriteDirection tr) = true)
    by (rewrite HW; apply endpoint_write_well_locked).
  split; [exact HwR|]. split; [exact HwW|].
  apply (mutex_serializes tr Free Hmu).
  intros []; assumption.
Qed.

(* ================================================================== *)
(** * Round trip                                                       *)
(* ================================================================== *)

Lemma write_at_length buf cur out :
  cur + length out <= length buf ->
  length (write_at buf cur out) = length buf.
Proof.
  intros H. unfold write_at.
  rewrite !length_app, length_firstn, length_skipn. lia.
Qed.

Lemma firstn_write_at buf cur out :
  cur <= length buf ->
  firstn (cur + length out) (write_at buf cur out) = firstn cur buf ++ out.
Proof.
  intros H. unfold write_at.
  rewrite app_assoc.
  replace (cur + length out) with (length (firstn cur buf ++ out) + 0)
    by (rewrite length_app, length_firstn; lia).
  rewrite firstn_app_2. cbn. apply app_nil_r.
Qed.

Lemma write_at_full buf cur out :
  cur + length out = length buf ->
  write_at buf cur out = firstn cur buf ++ out.
Proof.
  intros H. unfold write_at.
  rewrite skipn_all2 by lia. rewrite app_nil_r. reflexivity.
Qed.

Lemma bytes_of_add sb s :
  bytes_of (gpr_slice_buffer_add sb s) = bytes_of sb ++ s.
Proof.
  unfold bytes_of, gpr_slice_buffer_add.
  rewrite concat_app. cbn. rewrite app_nil_r. reflexivity.
Qed.

Lemma endpoint_write_while_nil fuel cur end_ res w :
  endpoint_write_while fuel [] cur end_ res w = (w, Returns (cur, end_, res)).
Proof. destruct fuel; reflexivity. Qed.

Lemma on_read_while_nil fuel cur end_ res w :
  on_read_while fuel [] cur end_ false res w =
  (w, Returns (cur, end_, false, res)).
Proof. destruct fuel; reflexivity. Qed.

Section RoundTrip.

Variable MP : matching_protectors PV.
Hypothesis staging_positive : 0 < STAGING_BUFFER_SIZE.

(** One iteration of the [while] loop of endpoint_write. *)
Lemma protect_step w msg cur end_ wire0 r q :
  msg <> [] ->
  write_cursor_ok w cur end_ ->
  in_flight MP (protector (ep w)) (wire0 ++ wire_of w cur) r q ->
  exists n w2 cur2 end2,
    n <= length msg /\
    (n = 0 ->
     pending_output MP (protector (ep w2)) <
     pending_output MP (protector (ep w))) /\
    (forall fuel res,
       endpoint_write_while (S fuel) msg cur end_ res w =
       endpoint_write_while fuel (skipn n msg) cur2 end2 TSI_OK w2) /\
    write_cursor_ok w2 cur2 end2 /\
    in_flight MP (protector (ep w2)) (wire0 ++ wire_of w2 cur2) r
      (q ++ firstn n msg).
Proof.
  intros Hmsg [Hend Hcur] Hin.
  destruct (@protect_spec _ _ MP _ _ _ _ msg (end_ - cur) Hin ltac:(lia))
    as (s' & n & out & Hcall & Hn & Hout & Hin' & Hprog).
  assert (Hfit : cur + length out <= length (write_staging_buffer (ep w)))
    by lia.
  assert (Hcond : (0 <? length msg) = true).
  { apply Nat.ltb_lt. destruct msg; [contradiction|cbn; lia]. }
  destruct (cur + length out =? end_) eqn:Hfull.
  - apply Nat.eqb_eq in Hfull.
    exists n, (sealed_write (after_protect w msg cur (end_ - cur))), 0,
      (length (gpr_slice_malloc STAGING_BUFFER_SIZE)).
    split; [exact Hn|]. split; [|split; [|split]].
    + unfold after_protect. rewrite Hcall. cbn. auto.
    + intros fuel res. rewrite endpoint_write_while_eq, Hcond.
      cbv zeta. rewrite Hcall. cbn [tsi_ok negb].
      apply Nat.eqb_eq in Hfull. rewrite Hfull. reflexivity.
    + split; [reflexivity|].
      rewrite gpr_slice_malloc_length. exact staging_positive.
    + unfold after_protect. rewrite Hcall. unfold wire_of in *.
      cbn -[gpr_slice_buffer_add bytes_of write_at].
      rewrite bytes_of_add, write_at_full by lia.
      rewrite app_nil_r, !app_assoc in *. exact Hin'.
  - exists n, (after_protect w msg cur (end_ - cur)), (cur + length out),
      end_.
    split; [exact Hn|]. split; [|split; [|split]].
    + unfold after_protect. rewrite Hcall. cbn. auto.
    + intros fuel res. rewrite endpoint_write_while_eq, Hcond.
      cbv zeta. rewrite Hcall. cbn [tsi_ok negb].
      rewrite Hfull. reflexivity.
    + apply Nat.eqb_neq in Hfull.
      unfold after_protect. rewrite Hcall.
      split; [cbn; rewrite write_at_length; auto|lia].
    + unfold after_protect. rewrite Hcall. unfold wire_of in *.
      cbn -[gpr_slice_buffer_add bytes_of write_at].
      rewrite firstn_write_at by lia.
      rewrite !app_assoc in *. exact Hin'.
Qed.

(** The [while] loop of endpoint_write returns, given enough fuel, with
    the whole slice in flight. *)
Lemma endpoint_write_while_total msg :
  forall w cur end_ wire0 r q,
    write_cursor_ok w cur end_ ->
    in_flight MP (protector (ep w)) (wire0 ++ wire_of w cur) r q ->
    exists fuel0 w' cur' end',
      (forall fuel, fuel0 <= fuel ->
         endpoint_write_while fuel msg cur end_ TSI_OK w =
           (w', Returns (cur', end', TSI_OK))) /\
      write_cursor_ok w' cur' end' /\
      in_flight MP (protector (ep w')) (wire0 ++ wire_of w' cur') r
        (q ++ msg).
Proof.
  remember (length msg) as k eqn:Hk. revert msg Hk.
  induction k as [k IHk] using lt_wf_ind. intros msg -> w.
  remember (pending_output MP (protector (ep w))) as m eqn:Hm.
  revert w Hm.
  induction m as [m IHm] using lt_wf_ind.
  intros w -> cur end_ wire0 r q Hok Hin.
  destruct msg as [|b msg'].
  - exists 0, w, cur, end_. rewrite app_nil_r.
    split; [intros fuel _; apply endpoint_write_while_nil|auto].
  - destruct (protect_step w (b :: msg') cur end_ wire0 r q
                ltac:(discriminate) Hok Hin)
      as (n & w2 & cur2 & end2 & Hn & Hprog & Hstep & Hok2 & Hin2).
    assert (IH : exists fuel0 w' cur' end',
              (forall fuel, fuel0 <= fuel ->
                 endpoint_write_while fuel (skipn n (b :: msg')) cur2 end2
                   TSI_OK w2 = (w', Returns (cur', end', TSI_OK))) /\
              write_cursor_ok w' cur' end' /\
              in_flight MP (protector (ep w')) (wire0 ++ wire_of w' cur') r
                ((q ++ firstn n (b :: msg')) ++ skipn n (b :: msg'))).
    { destruct n as [|n].
      - apply (IHm _ (Hprog eq_refl) w2 eq_refl); assumption.
      - apply (IHk (length (skipn (S n) (b :: msg')))); auto.
        rewrite length_skipn. cbn [length]. lia. }
    destruct IH as (fuel0 & w' & cur' & end' & Hrun & Hok' & Hin').
    exists (S fuel0), w', cur', end'.
    rewrite <- app_assoc, firstn_skipn in Hin'.
    split; [|auto].
    intros [|fuel] Hge; [lia|]. rewrite Hstep. apply Hrun. lia.
Qed.

(** The [for] loop of endpoint_write returns, given enough fuel, with
    all the slices in flight. *)
Lemma endpoint_write_for_total slices :
  forall w cur end_ wire0 r q,
    write_cursor_ok w cur end_ ->
    in_flight MP (protector (ep w)) (wire0 ++ wire_of w cur) r q ->
    exists fuel0 w' cur' end',
      (forall fuel, fuel0 <= fuel ->
         endpoint_write_for fuel slices cur end_ TSI_OK w =
           (w', Returns (cur', end', TSI_OK))) /\
      write_cursor_ok w' cur' end' /\
      in_flight MP (protector (ep w')) (wire0 ++ wire_of w' cur') r
        (q ++ bytes_of slices).
Proof.
  induction slices as [|plain rest IH]; intros w cur end_ wire0 r q Hok Hin.
  - exists 0, w, cur, end_. cbn. rewrite app_nil_r. auto.
  - destruct (endpoint_write_while_total plain w cur end_ wire0 r q Hok Hin)
      as (f1 & w1 & cur1 & end1 & H1 & Hok1 & Hin1).
    destruct (IH w1 cur1 end1 wire0 r (q ++ plain) Hok1 Hin1)
      as (f2 & w2 & cur2 & end2 & H2 & Hok2 & Hin2).
    exists (Nat.max f1 f2), w2, cur2, end2.
    split; [|split; [exact Hok2|]].
    + intros fuel Hge. cbn [endpoint_write_for]. unfold bind.
      rewrite H1 by lia. cbn [tsi_ok negb]. apply H2. lia.
    + unfold bytes_of in *. cbn [concat].
      rewrite app_assoc. exact Hin2.
Qed.

(** One iteration of the [do ... while] loop of endpoint_write. *)
Lemma flush_step w cur end_ wire0 r q :
  write_cursor_ok w cur end_ ->
  in_flight MP (protector (ep w)) (wire0 ++ wire_of w cur) r q ->
  exists still_pending w2 cur2 end2,
    (0 < still_pending ->
     pending_output MP (protector (ep w2)) <
     pending_output MP (protector (ep w))) /\
    (still_pending = 0 -> flushed MP (protector (ep w2))) /\
    (forall fuel,
       endpoint_write_flush fuel cur end_ w =
       if 0 <? still_pending then
         match fuel with
         | 0 => (w2, OutOfFuel)
         | S fuel' => endpoint_write_flush fuel' cur2 end2 w2
         end
       else (w2, Returns (cur2, end2, TSI_OK))) /\
    write_cursor_ok w2 cur2 end2 /\
    in_flight MP (protector (ep w2)) (wire0 ++ wire_of w2 cur2) r q.
Proof.
  intros [Hend Hcur] Hin.
  destruct (@flush_spec _ _ MP _ _ _ _ (end_ - cur) Hin ltac:(lia))
    as (s' & out & pending & Hcall & Hout & Hin' & Hfl & Hprog).
  assert (Hfit : cur + length out <= length (write_staging_buffer (ep w)))
    by lia.
  destruct (cur + length out =? end_) eqn:Hfull.
  - apply Nat.eqb_eq in Hfull.
    exists pending, (sealed_write (after_protect_flush w cur (end_ - cur))),
      0, (length (gpr_slice_malloc STAGING_BUFFER_SIZE)).
    split; [|split; [|split; [|split]]].
    + unfold after_protect_flush. rewrite Hcall. cbn. auto.
    + unfold after_protect_flush. rewrite Hcall. cbn. auto.
    + intros fuel. rewrite endpoint_write_flush_eq.
      cbv zeta. rewrite Hcall. cbn [tsi_ok negb].
      apply Nat.eqb_eq in Hfull. rewrite Hfull. reflexivity.
    + split; [reflexivity|].
      rewrite gpr_slice_malloc_length. exact staging_positive.
    + unfold after_protect_flush. rewrite Hcall. unfold wire_of in *.
      cbn -[gpr_slice_buffer_add bytes_of write_at].
      rewrite bytes_of_add, write_at_full by lia.
      rewrite app_nil_r, !app_assoc in *. exact Hin'.
  - exists pending, (after_protect_flush w cur (end_ - cur)),
      (cur + length out), end_.
    split; [|split; [|split; [|split]]].
    + unfold after_protect_flush. rewrite Hcall. cbn. auto.
    + unfold after_protect_flush. rewrite Hcall. cbn. auto.
    + intros fuel. rewrite endpoint_write_flush_eq.
      cbv zeta. rewrite Hcall. cbn [tsi_ok negb].
      rewrite Hfull. reflexivity.
    + apply Nat.eqb_neq in Hfull.
      unfold after_protect_flush. rewrite Hcall.
      split; [cbn; rewrite write_at_length; auto|lia].
    + unfold after_protect_flush. rewrite Hcall. unfold wire_of in *.
      cbn -[gpr_slice_buffer_add bytes_of write_at].
      rewrite firstn_write_at by lia.
      rewrite !app_assoc in *. exact Hin'.
Qed.

(** The [do ... while] loop of endpoint_write returns, given enough
    fuel, and leaves the sender flushed. *)
Lemma endpoint_write_flush_total :
  forall w cur end_ wire0 r q,
    write_cursor_ok w cur end_ ->
    in_flight MP (protector (ep w)) (wire0 ++ wire_of w cur) r q ->
    exists fuel0 w' cur' end',
      (forall fuel, fuel0 <= fuel ->
         endpoint_write_flush fuel cur end_ w =
           (w', Returns (cur', end', TSI_OK))) /\
      write_cursor_ok w' cur' end' /\
      flushed MP (protector (ep w')) /\
      in_flight MP (protector (ep w')) (wire0 ++ wire_of w' cur') r q.
Proof.
  intros w.
  remember (pending_output MP (protector (ep w))) as m eqn:Hm.
  revert w Hm.
  induction m as [m IHm] using lt_wf_ind.
  intros w -> cur end_ wire0 r q Hok Hin.
  destruct (flush_step w cur end_ wire0 r q Hok Hin)
    as (pending & w2 & cur2 & end2 & Hprog & Hfl & Hstep & Hok2 & Hin2).
  destruct (0 <? pending) eqn:Hp.
  - apply Nat.ltb_lt in Hp.
    destruct (IHm _ (Hprog Hp) w2 eq_refl cur2 end2 wire0 r q Hok2 Hin2)
      as (fuel0 & w' & cur' & end' & Hrun & Hok' & Hfl' & Hin').
    exists (S fuel0), w', cur', end'.
    split; [|auto].
    intros [|fuel] Hge; [lia|]. rewrite Hstep. apply Hrun. lia.
  - exists 0, w2, cur2, end2.
    split; [intros fuel _; rewrite Hstep; reflexivity|].
    apply Nat.ltb_ge in Hp. repeat split; auto; try apply Hok2.
    apply Hfl. lia.
Qed.

(** One iteration of the [while] loop of on_read. *)
Lemma unprotect_step w msg cur end_ keep s wire q :
  (0 <? length msg) || keep = true ->
  read_cursor_ok w cur end_ ->
  in_flight MP s (msg ++ wire) (protector (ep w)) q ->
  exists n out q' w2 cur2 end2,
    n <= length msg /\
    q = out ++ q' /\
    (msg <> [] -> n = 0 -> out <> []) /\
    (out = [] -> drained MP (protector (ep w2))) /\
    (forall fuel res,
       on_read_while (S fuel) msg cur end_ keep res w =
       on_read_while fuel (skipn n msg) cur2 end2 (0 <? length out)
         TSI_OK w2) /\
    read_cursor_ok w2 cur2 end2 /\
    plain_of w2 cur2 = plain_of w cur ++ out /\
    in_flight MP s (skipn n msg ++ wire) (protector (ep w2)) q'.
Proof.
  intros Hcond (Hend & Hcur & Hrb) Hin.
  destruct (@unprotect_spec _ _ MP _ _ _ _ _ (end_ - cur) Hin ltac:(lia))
    as (r' & n & out & q' & Hcall & Hn & Hout & Hq & Hin' & Hdr & Hprog).
  assert (Hfit : cur + length out <= length (read_staging_buffer (ep w)))
    by lia.
  destruct (cur + length out =? end_) eqn:Hfull.
  - apply Nat.eqb_eq in Hfull.
    assert (Hpos : (0 <? length out) = true) by (apply Nat.ltb_lt; lia).
    exists n, out, q', (sealed_read (after_unprotect w msg cur (end_ - cur))),
      0, (length (gpr_slice_malloc STAGING_BUFFER_SIZE)).
    split; [exact Hn|]. split; [exact Hq|]. split; [exact Hprog|].
    split; [|split; [|split; [|split]]].
    + unfold after_unprotect. rewrite Hcall. cbn. exact Hdr.
    + intros fuel res. rewrite on_read_while_eq, Hcond.
      cbv zeta. rewrite Hcall. cbn [tsi_ok negb].
      apply Nat.eqb_eq in Hfull. rewrite Hfull, Hrb, Hpos. reflexivity.
    + unfold after_unprotect. rewrite Hcall.
      split; [reflexivity|]. split; [|exact Hrb].
      rewrite gpr_slice_malloc_length. exact staging_positive.
    + unfold after_unprotect. rewrite Hcall. unfold plain_of.
      cbn -[gpr_slice_buffer_add bytes_of write_at].
      rewrite bytes_of_add, write_at_full by lia.
      rewrite app_nil_r, !app_assoc. reflexivity.
    + unfold after_unprotect. rewrite Hcall. cbn. exact Hin'.
  - exists n, out, q', (after_unprotect w msg cur (end_ - cur)),
      (cur + length out), end_.
    split; [exact Hn|]. split; [exact Hq|]. split; [exact Hprog|].
    split; [|split; [|split; [|split]]].
    + unfold after_unprotect. rewrite Hcall. cbn. exact Hdr.
    + intros fuel res. rewrite on_read_while_eq, Hcond.
      cbv zeta. rewrite Hcall. cbn [tsi_ok negb].
      rewrite Hfull. reflexivity.
    + apply Nat.eqb_neq in Hfull.
      unfold after_unprotect. rewrite Hcall.
      split; [cbn; rewrite write_at_length; auto|].
      split; [lia|exact Hrb].
    + unfold after_unprotect. rewrite Hcall. unfold plain_of.
      cbn -[gpr_slice_buffer_add bytes_of write_at].
      rewrite firstn_write_at by lia.
      rewrite !app_assoc. reflexivity.
    + unfold after_unprotect. rewrite Hcall. cbn. exact Hin'.
Qed.

(** The [while] loop of on_read returns, given enough fuel, having
    consumed the slice and left the receiver drained. *)
Lemma on_read_while_total msg :
  forall q w cur end_ keep s wire,
    read_cursor_ok w cur end_ ->
    in_flight MP s (msg ++ wire) (protector (ep w)) q ->
    (msg = [] -> keep = false -> drained MP (protector (ep w))) ->
    exists fuel0 w' cur' end' q',
      (forall fuel, fuel0 <= fuel ->
         on_read_while fuel msg cur end_ keep TSI_OK w =
           (w', Returns (cur', end', false, TSI_OK))) /\
      read_cursor_ok w' cur' end' /\
      plain_of w' cur' ++ q' = plain_of w cur ++ q /\
      in_flight MP s wire (protector (ep w')) q' /\
      drained MP (protector (ep w')).
Proof.
  remember (length msg) as k eqn:Hk. revert msg Hk.
  induction k as [k IHk] using lt_wf_ind. intros msg -> q.
  remember (length q) as m eqn:Hm. revert q Hm.
  induction m as [m IHm] using lt_wf_ind.
  intros q -> w cur end_ keep s wire Hok Hin Hdr.
  destruct ((0 <? length msg) || keep) eqn:Hcond.
  - destruct (unprotect_step w msg cur end_ keep s wire q Hcond Hok Hin)
      as (n & out & q' & w2 & cur2 & end2 & Hn & Hq & Hprog & Hdr2 &
          Hstep & Hok2 & Hplain & Hin2).
    assert (Hkeep2 : skipn n msg = [] -> (0 <? length out) = false ->
                     drained MP (protector (ep w2))).
    { intros _ Hz. apply Hdr2. apply Nat.ltb_ge in Hz.
      destruct out; [reflexivity|cbn in Hz; lia]. }
    assert (IH : exists fuel0 w' cur' end' q'',
              (forall fuel, fuel0 <= fuel ->
                 on_read_while fuel (skipn n msg) cur2 end2
                   (0 <? length out) TSI_OK w2 =
                   (w', Returns (cur', end', false, TSI_OK))) /\
              read_cursor_ok w' cur' end' /\
              plain_of w' cur' ++ q'' = plain_of w2 cur2 ++ q' /\
              in_flight MP s wire (protector (ep w')) q'' /\
              drained MP (protector (ep w'))).
    { destruct n as [|n].
      - destruct out as [|b out].
        + (* nothing consumed, nothing delivered: the input is over *)
          assert (Hmsg : msg = []).
          { destruct msg; [reflexivity|].
            exfalso. apply Hprog; auto. discriminate. }
          subst msg. cbn [skipn length Nat.ltb Nat.leb].
          exists 0, w2, cur2, end2, q'.
          split; [intros fuel _; apply on_read_while_nil|].
          repeat split; auto; apply Hok2.
        + apply (IHm (length q')); auto.
          subst q. rewrite length_app. cbn [length]. lia.
      - apply (IHk (length (skipn (S n) msg))); auto.
        rewrite length_skipn. lia. }
    destruct IH as (fuel0 & w' & cur' & end' & q'' & Hrun & Hok' & Hpl' &
                    Hin' & Hdr').
    exists (S fuel0), w', cur', end', q''.
    split; [|repeat split; auto; try apply Hok'].
    + intros [|fuel] Hge; [lia|]. rewrite Hstep. apply Hrun. lia.
    + rewrite Hpl', Hplain, Hq, app_assoc. reflexivity.
  - apply orb_false_elim in Hcond as [Hm Hk].
    apply Nat.ltb_ge in Hm.
    assert (msg = []) by (destruct msg; [reflexivity|cbn in Hm; lia]).
    subst msg keep.
    exists 0, w, cur, end_, q.
    split; [intros fuel _; apply on_read_while_nil|].
    repeat split; auto; apply Hok.
Qed.

(** The [for] loop of on_read returns, given enough fuel, having
    consumed the source list and left the receiver drained. *)
Lemma on_read_for_total slices :
  forall q w cur end_ s wire,
    read_cursor_ok w cur end_ ->
    in_flight MP s (bytes_of slices ++ wire) (protector (ep w)) q ->
    drained MP (protector (ep w)) ->
    exists fuel0 w' cur' end' q',
      (forall fuel, fuel0 <= fuel ->
         on_read_for fuel slices cur end_ false TSI_OK w =
           (w', Returns (cur', end', false, TSI_OK))) /\
      read_cursor_ok w' cur' end' /\
      plain_of w' cur' ++ q' = plain_of w cur ++ q /\
      in_flight MP s wire (protector (ep w')) q' /\
      drained MP (protector (ep w')).
Proof.
  induction slices as [|encrypted rest IH];
    intros q w cur end_ s wire Hok Hin Hdr.
  - exists 0, w, cur, end_, q. cbn in *. repeat split; auto; apply Hok.
  - unfold bytes_of in Hin. cbn [concat] in Hin.
    rewrite <- app_assoc in Hin.
    destruct (on_read_while_total encrypted q w cur end_ false s
                (bytes_of rest ++ wire) Hok Hin ltac:(auto))
      as (f1 & w1 & cur1 & end1 & q1 & H1 & Hok1 & Hpl1 & Hin1 & Hdr1).
    destruct (IH q1 w1 cur1 end1 s wire Hok1 Hin1 Hdr1)
      as (f2 & w2 & cur2 & end2 & q2 & H2 & Hok2 & Hpl2 & Hin2 & Hdr2).
    exists (Nat.max f1 f2), w2, cur2, end2, q2.
    split; [|repeat split; auto; try apply Hok2].
    + intros fuel Hge. cbn [on_read_for]. unfold bind.
      rewrite H1 by lia. cbn [tsi_ok negb]. apply H2. lia.
    + rewrite Hpl2, <- Hpl1. reflexivity.
Qed.

Lemma bytes_of_write_split w cur :
  bytes_of (output_buffer (ep (write_split w cur))) = wire_of w cur.
Proof.
  unfold write_split, wire_of.
  destruct (cur =? 0) eqn:Hc.
  - apply Nat.eqb_eq in Hc; subst cur. cbn [firstn].
    rewrite app_nil_r. reflexivity.
  - cbn -[gpr_slice_buffer_add bytes_of]. apply bytes_of_add.
Qed.

Lemma protector_write_split w cur :
  protector (ep (write_split w cur)) = protector (ep w).
Proof. unfold write_split; destruct (cur =? 0); reflexivity. Qed.

Lemma bytes_of_on_read_finish w cur :
  bytes_of (destination (on_read_finish w cur TSI_OK)) = plain_of w cur.
Proof.
  unfold on_read_finish, plain_of. cbn [destination tsi_ok].
  destruct (cur =? 0) eqn:Hc.
  - apply Nat.eqb_eq in Hc; subst cur. cbn [firstn].
    rewrite app_nil_r. reflexivity.
  - apply bytes_of_add.
Qed.

(** endpoint_write returns, given enough fuel, with the wrapped write
    called on the output list; the plaintext is then in flight behind a
    flushed sender, and the wire holds the bytes of the output list. *)
Lemma endpoint_write_total slices cb w r :
  0 < length (write_staging_buffer (ep w)) ->
  in_flight MP (protector (ep w)) [] r [] ->
  exists fuel0 w' status,
    (forall fuel, fuel0 <= fuel ->
       endpoint_write fuel slices cb w = (w', Returns status)) /\
    (exists evs,
       trace w' = evs ++ [EvWrappedWrite (output_buffer (ep w')) cb status]) /\
    flushed MP (protector (ep w')) /\
    in_flight MP (protector (ep w')) (bytes_of (output_buffer (ep w'))) r
      (bytes_of slices).
Proof.
  intros Hlen Hin.
  assert (Hok0 : write_cursor_ok (reset_output w) 0
                   (length (write_staging_buffer (ep w))))
    by (split; [reflexivity|exact Hlen]).
  destruct (endpoint_write_for_total slices (reset_output w) 0
              (length (write_staging_buffer (ep w))) [] r [] Hok0 Hin)
    as (f1 & w1 & cur1 & end1 & H1 & Hok1 & Hin1).
  destruct (endpoint_write_flush_total w1 cur1 end1 [] r _ Hok1 Hin1)
    as (f2 & w2 & cur2 & end2 & H2 & Hok2 & Hfl2 & Hin2).
  set (w3 := write_split w2 cur2).
  exists (Nat.max f1 f2), (after_wrapped_write w3 cb),
    (snd (wrapped_write (wrapped_ep (ep w3)) (output_buffer (ep w3)) cb)).
  split; [|split; [|split]].
  - intros fuel Hge. rewrite endpoint_write_eq.
    rewrite H1 by lia. cbn [tsi_ok]. rewrite H2 by lia. reflexivity.
  - eexists. cbn [after_wrapped_write trace ep output_buffer set_wrapped_ep].
    reflexivity.
  - cbn. unfold w3. rewrite protector_write_split. exact Hfl2.
  - cbn [after_wrapped_write ep output_buffer set_wrapped_ep protector].
    unfold w3. rewrite protector_write_split, bytes_of_write_split.
    exact Hin2.
Qed.

(** on_read returns 1, given enough fuel, on the ciphertext in flight
    behind a flushed sender, having appended the plaintext in flight to
    the destination list. *)
Lemma on_read_total w s q :
  0 < length (read_staging_buffer (ep w)) ->
  read_buffer (ep w) = true ->
  in_flight MP s (bytes_of (source_buffer (ep w))) (protector (ep w)) q ->
  flushed MP s ->
  drained MP (protector (ep w)) ->
  exists fuel0 w',
    (forall fuel, fuel0 <= fuel ->
       on_read fuel 1 w = (w', Returns 1%Z)) /\
    bytes_of (destination w') = bytes_of (destination w) ++ q.
Proof.
  intros Hlen Hrb Hin Hfl Hdr.
  assert (Hok0 : read_cursor_ok w 0 (length (read_staging_buffer (ep w))))
    by (split; [reflexivity|split; [exact Hlen|exact Hrb]]).
  rewrite <- (app_nil_r (bytes_of _)) in Hin.
  destruct (on_read_for_total (source_buffer (ep w)) q w 0
              (length (read_staging_buffer (ep w))) s [] Hok0 Hin Hdr)
    as (f1 & w1 & cur1 & end1 & q1 & H1 & Hok1 & Hpl & Hin1 & Hdr1).
  pose proof (@drained_spec _ _ MP _ _ _ Hin1 Hfl Hdr1) as Hq1. subst q1.
  exists f1, (on_read_finish w1 cur1 TSI_OK).
  split.
  - intros fuel Hge. rewrite on_read_eq by exact Hrb.
    cbn [Z.eqb]. rewrite H1 by exact Hge. reflexivity.
  - rewrite bytes_of_on_read_finish.
    rewrite app_nil_r in Hpl. rewrite Hpl.
    unfold plain_of. cbn [firstn]. rewrite app_nil_r. reflexivity.
Qed.

(** C1: with matching protector instances and a staging capacity that is
    not zero, for every list of plaintext slices, endpoint_write on the
    sender returns (given enough fuel) having handed its output list to
    the wrapped write, and on_read on the receiver, fed that ciphertext
    in any division into slices, returns 1 (given enough fuel) with a
    destination list that holds exactly the bytes of the plaintext
    slices, in order. *)
Theorem write_then_read_round_trip (wS wR : world) slices cb :
  0 < length (write_staging_buffer (ep wS)) ->
  0 < length (read_staging_buffer (ep wR)) ->
  read_buffer (ep wR) = true ->
  destination wR = [] ->
  in_flight MP (protector (ep wS)) [] (protector (ep wR)) [] ->
  drained MP (protector (ep wR)) ->
  exists fuel0 wS' status,
    (forall fuel, fuel0 <= fuel ->
       endpoint_write fuel slices cb wS = (wS', Returns status)) /\
    (exists evs,
       trace wS' =
         evs ++ [EvWrappedWrite (output_buffer (ep wS')) cb status]) /\
    forall source,
      bytes_of source = bytes_of (output_buffer (ep wS')) ->
      exists fuel1 wR',
        (forall fuel, fuel1 <= fuel ->
           on_read fuel 1 (transport_delivers source wR) =
             (wR', Returns 1%Z)) /\
        bytes_of (destination wR') = bytes_of slices.
Proof.
  intros HlenS HlenR Hrb Hdst Hin Hdr.
  destruct (endpoint_write_total slices cb wS (protector (ep wR)) HlenS Hin)
    as (fuel0 & wS' & status & Hrun & Hev & Hfl & Hin').
  exists fuel0, wS', status.
  split; [exact Hrun|]. split; [exact Hev|].
  intros source Hsrc.
  assert (Hin2 : in_flight MP (protector (ep wS'))
                   (bytes_of (source_buffer
                                (ep (transport_delivers source wR))))
                   (protector (ep (transport_delivers source wR)))
                   (bytes_of slices))
    by (cbn [transport_delivers ep source_buffer set_source_buffer
             protector]; rewrite Hsrc; exact Hin').
  destruct (on_read_total (transport_delivers source wR)
              (protector (ep wS')) (bytes_of slices) HlenR Hrb Hin2 Hfl Hdr)
    as (fuel1 & wR' & Hrun' & Hbytes).
  exists fuel1, wR'. split; [exact Hrun'|].
  rewrite Hbytes. cbn [transport_delivers destination].
  rewrite Hdst. reflexivity.
Qed.

End RoundTrip.

(* ------------------------------------------------------------------ *)
(** ** Sizes: cursors, capacities and byte counts                      *)
(* ------------------------------------------------------------------ *)

Lemma length_wire_of w cur :
  cur <= length (write_staging_buffer (ep w)) ->
  length (wire_of w cur) = length (bytes_of (output_buffer (ep w))) + cur.
Proof.
  intros H. unfold wire_of. rewrite length_app, length_firstn. lia.
Qed.

Lemma length_plain_of w cur :
  cur <= length (read_staging_buffer (ep w)) ->
  length (plain_of w cur) = length (bytes_of (destination w)) + cur.
Proof.
  intros H. unfold plain_of. rewrite length_app, length_firstn. lia.
Qed.

Lemma written_sum_cons c cs :
  written_sum (c :: cs) = written_of c + written_sum cs.
Proof. reflexivity. Qed.

Lemma processed_sum_cons c cs :
  processed_sum (c :: cs) = processed_of c + processed_sum cs.
Proof. reflexivity. Qed.

Lemma written_sum_app cs1 cs2 :
  written_sum (cs1 ++ cs2) = written_sum cs1 + written_sum cs2.
Proof. unfold written_sum. rewrite map_app, list_sum_app. reflexivity. Qed.

Lemma processed_sum_app cs1 cs2 :
  processed_sum (cs1 ++ cs2) = processed_sum cs1 + processed_sum cs2.
Proof. unfold processed_sum. rewrite map_app, list_sum_app. reflexivity. Qed.

Lemma processed_sum_flush cs :
  Forall (fun c => is_protect_flush c = true) cs -> processed_sum cs = 0.
Proof.
  induction 1 as [|c cs Hc _ IH]; [reflexivity|].
  rewrite processed_sum_cons, IH. destruct c; cbn in *; congruence.
Qed.

Lemma calls_between w w' head cs tail :
  trace w' = trace w ++ head ++ flat_map locked cs ++ tail ->
  Forall quiet head -> Forall quiet tail ->
  Forall (fun c => is_call c = true) cs ->
  calls (trace_since w w') = cs.
Proof.
  intros Ht Hh Htl Hcs. rewrite (trace_since_app _ _ _ Ht).
  rewrite !calls_app, (calls_quiet _ Hh), (calls_quiet _ Htl).
  rewrite (calls_locked _ Hcs), app_nil_r. reflexivity.
Qed.

Lemma calls_of_run w w' cs :
  trace w' = trace w ++ flat_map locked cs ->
  Forall (fun c => is_call c = true) cs ->
  calls (trace_since w w') = cs.
Proof.
  intros Ht Hcs. apply (calls_between w w' [] cs []); auto.
  rewrite app_nil_r. exact Ht.
Qed.

Section Sizes.

Hypothesis sizes : respects_sizes.
Hypothesis capacity_positive : 0 < STAGING_BUFFER_SIZE.

Lemma endpoint_write_while_sizes fuel : forall msg cur end_ res w,
  tsi_ok res = true ->
  write_cursor_ok w cur end_ -> end_ <= STAGING_BUFFER_SIZE ->
  let '(w', o) := endpoint_write_while fuel msg cur end_ res w in
  exists cs,
    trace w' = trace w ++ flat_map locked cs /\
    (Forall staging_in_bounds (output_buffer (ep w)) ->
     Forall staging_in_bounds (output_buffer (ep w'))) /\
    Forall (fun c => is_protect c = true) cs /\
    Forall capacity_in_bounds cs /\
    Forall (fun c => 0 < message_size_of c) cs /\
    match o with
    | Returns (cur', end', r) =>
      write_cursor_ok w' cur' end' /\ end' <= STAGING_BUFFER_SIZE /\
      (tsi_ok r = true ->
       length (wire_of w' cur') = length (wire_of w cur) + written_sum cs /\
       processed_sum cs = length msg)
    | OutOfFuel => staging_in_bounds (write_staging_buffer (ep w'))
    | Aborted => False
    end.
Proof.
  assert (Hstop : forall (msg : list gpr_uint8) cur end_ res w,
    (0 <? length msg) = false ->
    write_cursor_ok w cur end_ -> end_ <= STAGING_BUFFER_SIZE ->
    exists cs : list event,
      trace w = trace w ++ flat_map locked cs /\
      (Forall staging_in_bounds (output_buffer (ep w)) ->
       Forall staging_in_bounds (output_buffer (ep w))) /\
      Forall (fun c => is_protect c = true) cs /\
      Forall capacity_in_bounds cs /\
      Forall (fun c => 0 < message_size_of c) cs /\
      write_cursor_ok w cur end_ /\ end_ <= STAGING_BUFFER_SIZE /\
      (tsi_ok res = true ->
       length (wire_of w cur) = length (wire_of w cur) + written_sum cs /\
       processed_sum cs = length msg)).
  { intros msg cur end_ res w Hm Hcur Hend. exists []. cbn [flat_map].
    rewrite app_nil_r. apply Nat.ltb_ge in Hm.
    split; [reflexivity|]. split; [auto|].
    do 3 (split; [constructor|]).
    split; [exact Hcur|]. split; [exact Hend|].
    intros _. cbn. lia. }
  induction fuel as [|fuel IH]; intros msg cur end_ res w Hres Hcur Hend.
  - cbn [endpoint_write_while]. destruct (0 <? length msg) eqn:Hm.
    + exists []. cbn. rewrite app_nil_r.
      split; [reflexivity|]. split; [auto|].
      do 3 (split; [constructor|]).
      destruct Hcur as [Hlen Hlt]. unfold staging_in_bounds. lia.
    + apply Hstop; assumption.
  - rewrite endpoint_write_while_eq. destruct (0 <? length msg) eqn:Hm;
      [|apply Hstop; assumption].
    cbv zeta. apply Nat.ltb_lt in Hm.
    destruct sizes as (Hp & _ & _).
    specialize (Hp (protector (ep w)) msg (end_ - cur)).
    unfold after_protect.
    destruct (tsi_protect (protector (ep w)) msg (end_ - cur))
      as [[[r p] n] out].
    destruct Hp as [Hn Hout]. destruct Hcur as [Hlen Hlt].
    set (c := EvProtect (length msg) (end_ - cur) r n (length out)).
    assert (Hc : capacity_in_bounds c /\ is_protect c = true /\
                 0 < message_size_of c).
    { unfold capacity_in_bounds; cbn. repeat split; auto; lia. }
    destruct Hc as (Hcb & Hcp & Hcm).
    assert (Hwa : length (write_at (write_staging_buffer (ep w)) cur out) =
                  end_).
    { rewrite write_at_length; [auto|lia]. }
    match goal with
    | |- context [sealed_write ?w0] => set (w1 := w0)
    end.
    destruct (tsi_ok r) eqn:Hr; cbn [negb].
    2:{ exists [c]. cbn [flat_map app]. rewrite app_nil_r.
        split; [reflexivity|]. split; [cbn; auto|].
        do 3 (split; [constructor; [assumption|constructor]|]).
        split; [split; [cbn; exact (eq_sym Hwa)|exact Hlt]|].
        split; [exact Hend|intros Hr'; congruence]. }
    destruct (cur + length out =? end_) eqn:Hfull.
    + apply Nat.eqb_eq in Hfull.
      specialize (IH (skipn n msg) 0
                     (length (gpr_slice_malloc STAGING_BUFFER_SIZE)) r
                     (sealed_write w1) Hr).
      rewrite gpr_slice_malloc_length in IH.
      specialize (IH ltac:(split; [cbn; rewrite gpr_slice_malloc_length;
                                   reflexivity|exact capacity_positive])
                     (Nat.le_refl _)).
      rewrite gpr_slice_malloc_length.
      destruct (endpoint_write_while fuel (skipn n msg) 0
                  STAGING_BUFFER_SIZE r (sealed_write w1)) as [w' o].
      destruct IH as (cs & Ht & Hsl & Hps & Hbs & Hms & Ho).
      exists (c :: cs). cbn [flat_map].
      split; [rewrite Ht; cbn; rewrite <- !app_assoc; reflexivity|].
      split.
      { intros Hout0. apply Hsl. cbn. apply Forall_app. split; [exact Hout0|].
        constructor; [|constructor]. unfold staging_in_bounds.
        rewrite Hwa. lia. }
      split; [constructor; assumption|].
      split; [constructor; assumption|].
      split; [constructor; assumption|].
      destruct o as [[[cur' end'] r']| |]; [|exact Ho|exact Ho].
      destruct Ho as (Hc' & He' & Hacc).
      split; [exact Hc'|]. split; [exact He'|].
      intros Hr'. destruct (Hacc Hr') as [Hw Hpr].
      rewrite written_sum_cons, processed_sum_cons, Hw, Hpr.
      rewrite length_skipn. cbn [written_of processed_of c].
      split; [|lia].
      rewrite length_wire_of by (cbn; lia).
      rewrite length_wire_of by lia.
      cbn. unfold gpr_slice_buffer_add, bytes_of.
      rewrite concat_app, length_app. cbn. rewrite app_nil_r, Hwa. lia.
    + apply Nat.eqb_neq in Hfull.
      specialize (IH (skipn n msg) (cur + length out) end_ r w1 Hr).
      specialize (IH ltac:(split; [cbn; exact (eq_sym Hwa)|lia]) Hend).
      destruct (endpoint_write_while fuel (skipn n msg) (cur + length out)
                  end_ r w1) as [w' o].
      destruct IH as (cs & Ht & Hsl & Hps & Hbs & Hms & Ho).
      exists (c :: cs). cbn [flat_map].
      split; [rewrite Ht; cbn; rewrite <- !app_assoc; reflexivity|].
      split; [exact Hsl|].
      split; [constructor; assumption|].
      split; [constructor; assumption|].
      split; [constructor; assumption|].
      destruct o as [[[cur' end'] r']| |]; [|exact Ho|exact Ho].
      destruct Ho as (Hc' & He' & Hacc).
      split; [exact Hc'|]. split; [exact He'|].
      intros Hr'. destruct (Hacc Hr') as [Hw Hpr].
      rewrite written_sum_cons, processed_sum_cons, Hw, Hpr.
      rewrite length_skipn. cbn [written_of processed_of c].
      split; [|lia].
      rewrite length_wire_of by (cbn; lia).
      rewrite length_wire_of by lia.
      cbn. unfold bytes_of. lia.
Qed.

Lemma endpoint_write_for_sizes fuel slices : forall cur end_ res w,
  tsi_ok res = true ->
  write_cursor_ok w cur end_ -> end_ <= STAGING_BUFFER_SIZE ->
  let '(w', o) := endpoint_write_for fuel slices cur end_ res w in
  exists cs,
    trace w' = trace w ++ flat_map locked cs /\
    (Forall staging_in_bounds (output_buffer (ep w)) ->
     Forall staging_in_bounds (output_buffer (ep w'))) /\
    Forall (fun c => is_protect c = true) cs /\
    Forall capacity_in_bounds cs /\
    Forall (fun c => 0 < message_size_of c) cs /\
    match o with
    | Returns (cur', end', r) =>
      write_cursor_ok w' cur' end' /\ end' <= STAGING_BUFFER_SIZE /\
      (tsi_ok r = true ->
       length (wire_of w' cur') = length (wire_of w cur) + written_sum cs /\
       processed_sum cs = length (bytes_of slices))
    | OutOfFuel => staging_in_bounds (write_staging_buffer (ep w'))
    | Aborted => False
    end.
Proof.
  induction slices as [|plain rest IH]; intros cur end_ res w Hres Hcur Hend.
  - cbn [endpoint_write_for]; unfold ret. exists []. cbn [flat_map].
    rewrite app_nil_r. split; [reflexivity|]. split; [auto|].
    do 3 (split; [constructor|]).
    split; [exact Hcur|]. split; [exact Hend|]. intros _. cbn. lia.
  - cbn [endpoint_write_for]; unfold bind.
    pose proof (endpoint_write_while_sizes fuel plain cur end_ res w Hres
                  Hcur Hend) as Hw.
    destruct (endpoint_write_while fuel plain cur end_ res w)
      as [w1 [[[cur1 end1] r1]| |]]; try exact Hw.
    destruct Hw as (cs & Htr & Hsl & Hps & Hbs & Hms & Hc1 & He1 & Hacc).
    destruct (tsi_ok r1) eqn:Hr1; cbn [negb]; unfold ret.
    + specialize (IH cur1 end1 r1 w1 Hr1 Hc1 He1).
      destruct (endpoint_write_for fuel rest cur1 end1 r1 w1) as [w' o].
      destruct IH as (cs' & Htr' & Hsl' & Hps' & Hbs' & Hms' & Ho).
      exists (cs ++ cs'). rewrite flat_map_app, Htr', Htr, <- app_assoc.
      split; [reflexivity|]. split; [auto|].
      do 3 (split; [apply Forall_app; split; assumption|]).
      destruct o as [[[cur' end'] r']| |]; [|exact Ho|exact Ho].
      destruct Ho as (Hc' & He' & Hacc').
      split; [exact Hc'|]. split; [exact He'|]. intros Hr'.
      destruct (Hacc eq_refl) as [Hw1 Hp1].
      destruct (Hacc' Hr') as [Hw2 Hp2].
      rewrite written_sum_app, processed_sum_app, Hw2, Hw1, Hp1, Hp2.
      unfold bytes_of. cbn [concat]. rewrite length_app. lia.
    + exists cs. split; [exact Htr|]. split; [exact Hsl|].
      do 3 (split; [assumption|]).
      split; [exact Hc1|]. split; [exact He1|]. intros Hr'. congruence.
Qed.

Lemma endpoint_write_flush_sizes fuel : forall cur end_ w,
  write_cursor_ok w cur end_ -> end_ <= STAGING_BUFFER_SIZE ->
  let '(w', o) := endpoint_write_flush fuel cur end_ w in
  exists cs,
    trace w' = trace w ++ flat_map locked cs /\
    (Forall staging_in_bounds (output_buffer (ep w)) ->
     Forall staging_in_bounds (output_buffer (ep w'))) /\
    Forall (fun c => is_protect_flush c = true) cs /\
    Forall capacity_in_bounds cs /\
    match o with
    | Returns (cur', end', r) =>
      write_cursor_ok w' cur' end' /\ end' <= STAGING_BUFFER_SIZE /\
      (tsi_ok r = true ->
       length (wire_of w' cur') = length (wire_of w cur) + written_sum cs)
    | OutOfFuel => staging_in_bounds (write_staging_buffer (ep w'))
    | Aborted => False
    end.
Proof.
  induction fuel as [|fuel IH]; intros cur end_ w Hcur Hend;
    rewrite endpoint_write_flush_eq; cbv zeta;
    destruct sizes as (_ & Hf & _);
    specialize (Hf (protector (ep w)) (end_ - cur));
    unfold after_protect_flush;
    destruct (tsi_protect_flush (protector (ep w)) (end_ - cur))
      as [[[r p] out] pending];
    destruct Hcur as [Hlen Hlt];
    set (c := EvProtectFlush (end_ - cur) r (length out) pending);
    (assert (Hc : capacity_in_bounds c /\ is_protect_flush c = true)
       by (unfold capacity_in_bounds; cbn; repeat split; auto; lia));
    destruct Hc as (Hcb & Hcp);
    (assert (Hwa : length (write_at (write_staging_buffer (ep w)) cur out) =
                   end_) by (rewrite write_at_length; [auto|lia]));
    match goal with
    | |- context [sealed_write ?w0] => set (w1 := w0)
    end;
    (destruct (tsi_ok r) eqn:Hr; cbn [negb];
     [|exists [c]; cbn [flat_map app]; rewrite app_nil_r;
       split; [reflexivity|]; split; [cbn; auto|];
       do 2 (split; [constructor; [assumption|constructor]|]);
       split; [split; [cbn; exact (eq_sym Hwa)|exact Hlt]|];
       split; [exact Hend|intros Hr'; congruence]]);
    assert (H2 : exists w2 cur2 end2,
               (if cur + length out =? end_
                then (sealed_write w1, 0,
                      length (gpr_slice_malloc STAGING_BUFFER_SIZE))
                else (w1, cur + length out, end_)) = (w2, cur2, end2) /\
               trace w2 = trace w1 /\
               (Forall staging_in_bounds (output_buffer (ep w)) ->
                Forall staging_in_bounds (output_buffer (ep w2))) /\
               write_cursor_ok w2 cur2 end2 /\
               end2 <= STAGING_BUFFER_SIZE /\
               length (wire_of w2 cur2) =
                 length (wire_of w cur) + length out)
      by (destruct (cur + length out =? end_) eqn:Hfull;
          [apply Nat.eqb_eq in Hfull|apply Nat.eqb_neq in Hfull];
          do 3 eexists; (split; [reflexivity|]); (split; [reflexivity|]);
          [split; [intros Hout0; cbn; apply Forall_app; split;
                   [exact Hout0|];
                   constructor; [|constructor]; unfold staging_in_bounds;
                   rewrite Hwa; lia|];
           split; [split; [cbn; reflexivity
                          |rewrite gpr_slice_malloc_length;
                           exact capacity_positive]|];
           split; [rewrite gpr_slice_malloc_length; apply Nat.le_refl|];
           rewrite length_wire_of by (cbn; lia);
           rewrite length_wire_of by lia;
           cbn; unfold gpr_slice_buffer_add, bytes_of;
           rewrite concat_app, length_app; cbn; rewrite app_nil_r, Hwa; lia
          |split; [cbn; auto|];
           split; [split; [cbn; exact (eq_sym Hwa)|lia]|];
           split; [exact Hend|];
           rewrite length_wire_of by (cbn; lia);
           rewrite length_wire_of by lia;
           cbn; unfold bytes_of; lia]);
    destruct H2 as (w2 & cur2 & end2 & -> & Ht2 & Hsl2 & Hc2 & He2 & Hw2);
    (destruct (0 <? pending) eqn:Hpend;
     [|exists [c]; cbn [flat_map app]; rewrite app_nil_r, Ht2;
       split; [reflexivity|]; split; [exact Hsl2|];
       do 2 (split; [constructor; [assumption|constructor]|]);
       split; [exact Hc2|]; split; [exact He2|];
       intros _; rewrite Hw2; cbn; lia]).
  - exists [c]. cbn [flat_map app]. rewrite app_nil_r, Ht2.
    split; [reflexivity|]. split; [exact Hsl2|].
    do 2 (split; [constructor; [assumption|constructor]|]).
    destruct Hc2 as [Hl2 Hlt2]. unfold staging_in_bounds. lia.
  - specialize (IH cur2 end2 w2 Hc2 He2).
    destruct (endpoint_write_flush fuel cur2 end2 w2) as [w' o].
    destruct IH as (cs & Htr' & Hsl' & Hps & Hbs & Ho).
    exists (c :: cs). cbn [flat_map].
    split; [rewrite Htr', Ht2; cbn; rewrite <- !app_assoc; reflexivity|].
    split; [auto|].
    do 2 (split; [constructor; assumption|]).
    destruct o as [[[cur' end'] r']| |]; [|exact Ho|exact Ho].
    destruct Ho as (Hc' & He' & Hacc).
    split; [exact Hc'|]. split; [exact He'|]. intros Hr'.
    rewrite written_sum_cons, (Hacc Hr'), Hw2. cbn. lia.
Qed.

Lemma staging_in_bounds_split w cur end_ :
  write_cursor_ok w cur end_ -> end_ <= STAGING_BUFFER_SIZE ->
  staging_in_bounds (write_staging_buffer (ep (write_split w cur))).
Proof.
  intros [Hlen Hlt] Hend. unfold write_split, staging_in_bounds.
  destruct (cur =? 0); cbn; [lia|]. rewrite length_skipn. lia.
Qed.

Lemma slices_in_bounds_split w cur end_ :
  write_cursor_ok w cur end_ -> end_ <= STAGING_BUFFER_SIZE ->
  Forall staging_in_bounds (output_buffer (ep w)) ->
  Forall staging_in_bounds (output_buffer (ep (write_split w cur))).
Proof.
  intros [Hlen Hlt] Hend Hout. unfold write_split.
  destruct (cur =? 0) eqn:Hc; [exact Hout|].
  apply Nat.eqb_neq in Hc. cbn. apply Forall_app. split; [exact Hout|].
  constructor; [|constructor]. unfold staging_in_bounds.
  rewrite length_firstn. lia.
Qed.

(** The sizes of a whole write: the staging buffer that is left, the
    slices of the output list, the calls with their capacities, and the
    bytes that went out. *)
Lemma endpoint_write_sizes fuel slices cb w :
  staging_in_bounds (write_staging_buffer (ep w)) ->
  let '(w', o) := endpoint_write fuel slices cb w in
  staging_in_bounds (write_staging_buffer (ep w')) /\
  Forall staging_in_bounds (output_buffer (ep w')) /\
  exists cs,
    Forall (fun c => is_call c = true) cs /\
    Forall capacity_in_bounds cs /\
    Forall (fun c => is_protect c = true -> 0 < message_size_of c) cs /\
    match o with
    | Returns status =>
      (trace w' = trace w ++ flat_map locked cs ++
                  [EvWrappedWrite (output_buffer (ep w')) cb status] /\
       length (bytes_of (output_buffer (ep w'))) = written_sum cs /\
       processed_sum cs = length (bytes_of slices)) \/
      (status = GRPC_ENDPOINT_ERROR /\
       trace w' = trace w ++ flat_map locked cs)
    | OutOfFuel => trace w' = trace w ++ flat_map locked cs
    | Aborted => False
    end.
Proof.
  intros [Hpos Hle]. rewrite endpoint_write_eq.
  pose proof (endpoint_write_for_sizes fuel slices 0
                (length (write_staging_buffer (ep w))) TSI_OK
                (reset_output w) eq_refl
                (conj eq_refl Hpos) Hle) as Hfor.
  destruct (endpoint_write_for fuel slices 0
              (length (write_staging_buffer (ep w))) TSI_OK (reset_output w))
    as [w1 [[[cur end_] result]| |]].
  2:{ destruct Hfor as (cs & Ht & Hsl & Hps & Hbs & Hms & Ho).
      split; [exact Ho|]. split; [apply Hsl; constructor|]. exists cs.
      split; [apply Forall_is_protect_call; exact Hps|].
      split; [exact Hbs|].
      split; [revert Hms; apply Forall_impl; auto|exact Ht]. }
  2:{ destruct Hfor as (cs & _ & _ & _ & _ & _ & []). }
  destruct Hfor as (cs & Ht & Hsl & Hps & Hbs & Hms & Hc1 & He1 & Hacc).
  assert (Hout1 : Forall staging_in_bounds (output_buffer (ep w1)))
    by (apply Hsl; constructor).
  assert (Hms' : Forall (fun c => is_protect c = true -> 0 < message_size_of c)
                        cs) by (revert Hms; apply Forall_impl; auto).
  assert (Hcall : Forall (fun c => is_call c = true) cs)
    by (apply Forall_is_protect_call; exact Hps).
  cbn [reset_output trace] in Ht.
  destruct (tsi_ok result) eqn:Hr.
  2:{ split; [cbn; destruct Hc1 as [Hl Hlt]; unfold staging_in_bounds; lia|].
      split; [constructor|].
      exists cs. do 3 (split; [assumption|]). right. split; [reflexivity|].
      exact Ht. }
  destruct (Hacc eq_refl) as [Hw1 Hp1].
  change (length (wire_of (reset_output w) 0)) with 0 in Hw1.
  pose proof (endpoint_write_flush_sizes fuel cur end_ w1 Hc1 He1) as Hfl.
  destruct (endpoint_write_flush fuel cur end_ w1)
    as [w2 [[[cur2 end2] result2]| |]].
  2:{ destruct Hfl as (fs & Ht2 & Hsl2 & Hfs & Hbs2 & Ho).
      split; [exact Ho|]. split; [apply Hsl2, Hout1|]. exists (cs ++ fs).
      split; [apply Forall_app; split; [exact Hcall|];
              revert Hfs; apply Forall_impl; apply is_protect_flush_call|].
      split; [apply Forall_app; split; assumption|].
      split; [apply Forall_app; split; [exact Hms'|];
              revert Hfs; apply Forall_impl; intros [] ?; cbn in *;
              congruence|].
      rewrite Ht2, Ht, flat_map_app, <- app_assoc. reflexivity. }
  2:{ destruct Hfl as (fs & _ & _ & _ & _ & []). }
  destruct Hfl as (fs & Ht2 & Hsl2 & Hfs & Hbs2 & Hc2 & He2 & Hacc2).
  cbv zeta.
  assert (Hall : Forall (fun c => is_call c = true) (cs ++ fs) /\
                 Forall capacity_in_bounds (cs ++ fs) /\
                 Forall (fun c => is_protect c = true -> 0 < message_size_of c)
                        (cs ++ fs)).
  { split; [apply Forall_app; split; [exact Hcall|];
            revert Hfs; apply Forall_impl; apply is_protect_flush_call|].
    split; [apply Forall_app; split; assumption|].
    apply Forall_app; split; [exact Hms'|].
    revert Hfs; apply Forall_impl; intros [] ?; cbn in *; congruence. }
  destruct Hall as (Ha1 & Ha2 & Ha3).
  pose proof (staging_in_bounds_split w2 cur2 end2 Hc2 He2) as Hsp.
  pose proof (slices_in_bounds_split w2 cur2 end2 Hc2 He2 (Hsl2 Hout1))
    as Hso.
  destruct (tsi_ok result2) eqn:Hr2.
  - split; [exact Hsp|]. split; [exact Hso|]. exists (cs ++ fs).
    do 3 (split; [assumption|]). left.
    cbn [after_wrapped_write trace ep output_buffer set_wrapped_ep].
    rewrite trace_write_split, Ht2, Ht, flat_map_app, <- !app_assoc.
    split; [reflexivity|].
    rewrite bytes_of_write_split, (Hacc2 eq_refl), Hw1.
    rewrite written_sum_app, processed_sum_app.
    rewrite (processed_sum_flush fs Hfs). split; lia.
  - split; [exact Hsp|]. split; [constructor|]. exists (cs ++ fs).
    do 3 (split; [assumption|]). right. split; [reflexivity|].
    cbn [reset_output trace].
    rewrite trace_write_split, Ht2, Ht, flat_map_app, <- !app_assoc.
    reflexivity.
Qed.

Lemma on_read_while_sizes fuel : forall msg cur end_ keep res w,
  tsi_ok res = true ->
  read_cursor_ok w cur end_ -> end_ <= STAGING_BUFFER_SIZE ->
  let '(w', o) := on_read_while fuel msg cur end_ keep res w in
  exists cs,
    trace w' = trace w ++ flat_map locked cs /\
    (Forall staging_in_bounds (destination w) ->
     Forall staging_in_bounds (destination w')) /\
    Forall (fun c => is_unprotect c = true) cs /\
    Forall capacity_in_bounds cs /\
    match o with
    | Returns (cur', end', _, r) =>
      read_cursor_ok w' cur' end' /\ end' <= STAGING_BUFFER_SIZE /\
      (tsi_ok r = true ->
       length (plain_of w' cur') = length (plain_of w cur) + written_sum cs /\
       processed_sum cs = length msg)
    | OutOfFuel => staging_in_bounds (read_staging_buffer (ep w'))
    | Aborted => False
    end.
Proof.
  assert (Hstop : forall (msg : list gpr_uint8) cur end_ keep res w,
    (0 <? length msg) || keep = false ->
    read_cursor_ok w cur end_ -> end_ <= STAGING_BUFFER_SIZE ->
    exists cs : list event,
      trace w = trace w ++ flat_map locked cs /\
      (Forall staging_in_bounds (destination w) ->
       Forall staging_in_bounds (destination w)) /\
      Forall (fun c => is_unprotect c = true) cs /\
      Forall capacity_in_bounds cs /\
      read_cursor_ok w cur end_ /\ end_ <= STAGING_BUFFER_SIZE /\
      (tsi_ok res = true ->
       length (plain_of w cur) = length (plain_of w cur) + written_sum cs /\
       processed_sum cs = length msg)).
  { intros msg cur end_ keep res w Hm Hcur Hend. exists []. cbn [flat_map].
    rewrite app_nil_r. apply orb_false_elim in Hm as [Hm _].
    apply Nat.ltb_ge in Hm.
    split; [reflexivity|]. split; [auto|].
    do 2 (split; [constructor|]).
    split; [exact Hcur|]. split; [exact Hend|]. intros _. cbn. lia. }
  induction fuel as [|fuel IH]; intros msg cur end_ keep res w Hres Hcur Hend.
  - cbn [on_read_while]. destruct ((0 <? length msg) || keep) eqn:Hm.
    + exists []. cbn. rewrite app_nil_r.
      split; [reflexivity|]. split; [auto|].
      do 2 (split; [constructor|]).
      destruct Hcur as (Hlen & Hlt & _). unfold staging_in_bounds. lia.
    + apply (Hstop msg cur end_ keep); assumption.
  - rewrite on_read_while_eq. destruct ((0 <? length msg) || keep) eqn:Hm;
      [|apply (Hstop msg cur end_ keep); assumption].
    cbv zeta.
    destruct sizes as (_ & _ & Hu).
    specialize (Hu (protector (ep w)) msg (end_ - cur)).
    unfold after_unprotect.
    destruct (tsi_unprotect (protector (ep w)) msg (end_ - cur))
      as [[[r p] n] out].
    destruct Hu as [Hn Hout]. destruct Hcur as (Hlen & Hlt & Hrb).
    set (c := EvUnprotect (length msg) (end_ - cur) r n (length out)).
    assert (Hc : capacity_in_bounds c /\ is_unprotect c = true).
    { unfold capacity_in_bounds; cbn. repeat split; auto; lia. }
    destruct Hc as (Hcb & Hcp).
    assert (Hwa : length (write_at (read_staging_buffer (ep w)) cur out) =
                  end_).
    { rewrite write_at_length; [auto|lia]. }
    match goal with
    | |- context [sealed_read ?w0] => set (w1 := w0)
    end.
    destruct (tsi_ok r) eqn:Hr; cbn [negb].
    2:{ exists [c]. cbn [flat_map app]. rewrite app_nil_r.
        split; [reflexivity|]. split; [cbn; auto|].
        do 2 (split; [constructor; [assumption|constructor]|]).
        split; [repeat split; [cbn; exact (eq_sym Hwa)|exact Hlt|exact Hrb]|].
        split; [exact Hend|intros Hr'; congruence]. }
    rewrite Hrb.
    destruct (cur + length out =? end_) eqn:Hfull.
    + apply Nat.eqb_eq in Hfull.
      rewrite gpr_slice_malloc_length.
      specialize (IH (skipn n msg) 0 STAGING_BUFFER_SIZE true r
                     (sealed_read w1) Hr).
      specialize (IH ltac:(repeat split;
                             [cbn; rewrite gpr_slice_malloc_length;
                              reflexivity
                             |exact capacity_positive|exact Hrb])
                     (Nat.le_refl _)).
      destruct (on_read_while fuel (skipn n msg) 0 STAGING_BUFFER_SIZE true r
                  (sealed_read w1)) as [w' o].
      destruct IH as (cs & Ht & Hsl & Hps & Hbs & Ho).
      exists (c :: cs). cbn [flat_map].
      split; [rewrite Ht; cbn; rewrite <- !app_assoc; reflexivity|].
      split.
      { intros Hout0. apply Hsl. cbn. apply Forall_app. split; [exact Hout0|].
        constructor; [|constructor]. unfold staging_in_bounds.
        rewrite Hwa. lia. }
      split; [constructor; assumption|].
      split; [constructor; assumption|].
      destruct o as [[[[cur' end'] keep'] r']| |]; [|exact Ho|exact Ho].
      destruct Ho as (Hc' & He' & Hacc).
      split; [exact Hc'|]. split; [exact He'|].
      intros Hr'. destruct (Hacc Hr') as [Hw Hpr].
      rewrite written_sum_cons, processed_sum_cons, Hw, Hpr.
      rewrite length_skipn. cbn [written_of processed_of c].
      split; [|lia].
      rewrite length_plain_of by (cbn; lia).
      rewrite length_plain_of by lia.
      cbn. unfold gpr_slice_buffer_add, bytes_of.
      rewrite concat_app, length_app. cbn. rewrite app_nil_r, Hwa. lia.
    + apply Nat.eqb_neq in Hfull.
      specialize (IH (skipn n msg) (cur + length out) end_
                     (0 <? length out) r w1 Hr).
      specialize (IH ltac:(repeat split;
                             [cbn; exact (eq_sym Hwa)|lia|exact Hrb]) Hend).
      destruct (on_read_while fuel (skipn n msg) (cur + length out) end_
                  (0 <? length out) r w1) as [w' o].
      destruct IH as (cs & Ht & Hsl & Hps & Hbs & Ho).
      exists (c :: cs). cbn [flat_map].
      split; [rewrite Ht; cbn; rewrite <- !app_assoc; reflexivity|].
      split; [exact Hsl|].
      split; [constructor; assumption|].
      split; [constructor; assumption|].
      destruct o as [[[[cur' end'] keep'] r']| |]; [|exact Ho|exact Ho].
      destruct Ho as (Hc' & He' & Hacc).
      split; [exact Hc'|]. split; [exact He'|].
      intros Hr'. destruct (Hacc Hr') as [Hw Hpr].
      rewrite written_sum_cons, processed_sum_cons, Hw, Hpr.
      rewrite length_skipn. cbn [written_of processed_of c].
      split; [|lia].
      rewrite length_plain_of by (cbn; lia).
      rewrite length_plain_of by lia.
      cbn. unfold bytes_of. lia.
Qed.

Lemma on_read_for_sizes fuel slices : forall cur end_ keep res w,
  tsi_ok res = true ->
  read_cursor_ok w cur end_ -> end_ <= STAGING_BUFFER_SIZE ->
  let '(w', o) := on_read_for fuel slices cur end_ keep res w in
  exists cs,
    trace w' = trace w ++ flat_map locked cs /\
    (Forall staging_in_bounds (destination w) ->
     Forall staging_in_bounds (destination w')) /\
    Forall (fun c => is_unprotect c = true) cs /\
    Forall capacity_in_bounds cs /\
    match o with
    | Returns (cur', end', _, r) =>
      read_cursor_ok w' cur' end' /\ end' <= STAGING_BUFFER_SIZE /\
      (tsi_ok r = true ->
       length (plain_of w' cur') = length (plain_of w cur) + written_sum cs /\
       processed_sum cs = length (bytes_of slices))
    | OutOfFuel => staging_in_bounds (read_staging_buffer (ep w'))
    | Aborted => False
    end.
Proof.
  induction slices as [|encrypted rest IH];
    intros cur end_ keep res w Hres Hcur Hend.
  - cbn [on_read_for]; unfold ret. exists []. cbn [flat_map].
    rewrite app_nil_r. split; [reflexivity|]. split; [auto|].
    do 2 (split; [constructor|]).
    split; [exact Hcur|]. split; [exact Hend|]. intros _. cbn. lia.
  - cbn [on_read_for]; unfold bind.
    pose proof (on_read_while_sizes fuel encrypted cur end_ keep res w Hres
                  Hcur Hend) as Hw.
    destruct (on_read_while fuel encrypted cur end_ keep res w)
      as [w1 [[[[cur1 end1] keep1] r1]| |]]; try exact Hw.
    destruct Hw as (cs & Htr & Hsl & Hps & Hbs & Hc1 & He1 & Hacc).
    destruct (tsi_ok r1) eqn:Hr1; cbn [negb]; unfold ret.
    + specialize (IH cur1 end1 keep1 r1 w1 Hr1 Hc1 He1).
      destruct (on_read_for fuel rest cur1 end1 keep1 r1 w1) as [w' o].
      destruct IH as (cs' & Htr' & Hsl' & Hps' & Hbs' & Ho).
      exists (cs ++ cs'). rewrite flat_map_app, Htr', Htr, <- app_assoc.
      split; [reflexivity|]. split; [auto|].
      do 2 (split; [apply Forall_app; split; assumption|]).
      destruct o as [[[[cur' end'] keep'] r']| |]; [|exact Ho|exact Ho].
      destruct Ho as (Hc' & He' & Hacc').
      split; [exact Hc'|]. split; [exact He'|]. intros Hr'.
      destruct (Hacc eq_refl) as [Hw1 Hp1].
      destruct (Hacc' Hr') as [Hw2 Hp2].
      rewrite written_sum_app, processed_sum_app, Hw2, Hw1, Hp1, Hp2.
      unfold bytes_of. cbn [concat]. rewrite length_app. lia.
    + exists cs. split; [exact Htr|]. split; [exact Hsl|].
      do 2 (split; [assumption|]).
      split; [exact Hc1|]. split; [exact He1|]. intros Hr'. congruence.
Qed.

(** The sizes of a whole run of on_read after a successful transport
    read. *)
Lemma on_read_sizes fuel success w :
  read_buffer (ep w) = true ->
  success <> 0%Z ->
  staging_in_bounds (read_staging_buffer (ep w)) ->
  let '(w', o) := on_read fuel success w in
  staging_in_bounds (read_staging_buffer (ep w')) /\
  exists cs,
    trace w' = trace w ++ flat_map locked cs /\
    (Forall staging_in_bounds (destination w) ->
     Forall staging_in_bounds (destination w')) /\
    Forall (fun c => is_unprotect c = true) cs /\
    Forall capacity_in_bounds cs /\
    match o with
    | Returns r =>
      r = 1%Z ->
      length (bytes_of (destination w')) =
        length (bytes_of (destination w)) + written_sum cs /\
      processed_sum cs = length (bytes_of (source_buffer (ep w)))
    | OutOfFuel => True
    | Aborted => False
    end.
Proof.
  intros Hrb Hs [Hpos Hle]. rewrite on_read_eq by exact Hrb.
  apply Z.eqb_neq in Hs. rewrite Hs.
  pose proof (on_read_for_sizes fuel (source_buffer (ep w)) 0
                (length (read_staging_buffer (ep w))) false TSI_OK w eq_refl
                (conj eq_refl (conj Hpos Hrb)) Hle) as Hfor.
  destruct (on_read_for fuel (source_buffer (ep w)) 0
              (length (read_staging_buffer (ep w))) false TSI_OK w)
    as [w1 [[[[cur end_] keep] result]| |]].
  2:{ destruct Hfor as (cs & Ht & Hsl & Hps & Hbs & Ho).
      split; [exact Ho|]. exists cs. auto. }
  2:{ destruct Hfor as (cs & _ & _ & _ & _ & []). }
  destruct Hfor
    as (cs & Ht & Hsl & Hps & Hbs & (Hl1 & Hlt1 & Hrb1) & He1 & Hacc).
  split.
  - unfold on_read_finish, staging_in_bounds. cbn.
    destruct (cur =? 0); cbn; [lia|]. rewrite length_skipn. lia.
  - exists cs. split; [exact Ht|].
    split.
    { intros Hd0. specialize (Hsl Hd0). unfold on_read_finish. cbn.
      destruct (tsi_ok result); [|constructor].
      destruct (cur =? 0) eqn:Hc; [exact Hsl|].
      apply Nat.eqb_neq in Hc. apply Forall_app. split; [exact Hsl|].
      constructor; [|constructor]. unfold staging_in_bounds.
      rewrite length_firstn. lia. }
    do 2 (split; [assumption|]).
    destruct (tsi_ok result) eqn:Hr; [|discriminate].
    intros _. apply tsi_ok_eq in Hr. subst result.
    destruct (Hacc eq_refl) as [Hw Hp].
    rewrite bytes_of_on_read_finish, Hw.
    rewrite (length_plain_of w 0) by lia. split; [lia|exact Hp].
Qed.

(** X1: byte accounting of a write.  When the protector keeps to the
    sizes it is given and the write staging buffer is in order, a write
    that reaches the wrapped transport hands it exactly as many bytes as
    the protect and flush calls of this write reported as written
    (whatever the output list held before), and the protect calls of
    this write consumed exactly the bytes of the input slices. *)
Theorem write_sends_what_the_protector_wrote fuel slices cb w :
  staging_in_bounds (write_staging_buffer (ep w)) ->
  let '(w', o) := endpoint_write fuel slices cb w in
  forall out cb' status,
    In (EvWrappedWrite out cb' status) (trace_since w w') ->
    out = output_buffer (ep w') /\
    length (bytes_of out) = written_sum (calls (trace_since w w')) /\
    processed_sum (calls (trace_since w w')) = length (bytes_of slices).
Proof.
  intros Hst. pose proof (endpoint_write_sizes fuel slices cb w Hst) as H.
  destruct (endpoint_write fuel slices cb w) as [w' o].
  destruct H as (_ & _ & cs & Hcs & _ & _ & Ho).
  intros out cb' status Hin.
  assert (Hno : trace w' = trace w ++ flat_map locked cs -> False).
  { intros Ht. rewrite (trace_since_app _ _ _ Ht) in Hin.
    apply (locked_no_wrapped_write _ _ Hcs) in Hin. discriminate. }
  destruct o as [st| |]; [|exfalso; apply Hno; exact Ho|contradiction].
  destruct Ho as [(Ht & Hw & Hp)|(_ & Ht)]; [|exfalso; apply Hno; exact Ht].
  rewrite (calls_between w w' [] cs _ Ht) by
    (repeat constructor; auto).
  rewrite (trace_since_app _ _ _ Ht) in Hin.
  apply in_app_or in Hin as [Hin|[Hin|[]]].
  - apply (locked_no_wrapped_write _ _ Hcs) in Hin. discriminate.
  - injection Hin as <- _ _. auto.
Qed.

(** X2: byte accounting of a read.  When the protector keeps to the
    sizes it is given and the read staging buffer is in order, a run of
    on_read that succeeds has appended to the destination list exactly as
    many bytes as its unprotect calls reported as written, and these
    calls consumed exactly the bytes of the source list; a call of
    endpoint_read that returns Done leaves in the destination list
    exactly as many bytes as its unprotect calls reported as written,
    whatever the list held before. *)
Theorem read_delivers_what_the_protector_wrote fuel :
  (forall success w,
     read_buffer (ep w) = true -> success <> 0%Z ->
     staging_in_bounds (read_staging_buffer (ep w)) ->
     let '(w', o) := on_read fuel success w in
     o = Returns 1%Z ->
     length (bytes_of (destination w')) =
       length (bytes_of (destination w)) +
       written_sum (calls (trace_since w w')) /\
     processed_sum (calls (trace_since w w')) =
       length (bytes_of (source_buffer (ep w)))) /\
  (forall slices cb w,
     staging_in_bounds (read_staging_buffer (ep w)) ->
     let '(w', o) := endpoint_read fuel slices cb w in
     o = Returns GRPC_ENDPOINT_DONE ->
     length (bytes_of (destination w')) =
       written_sum (calls (trace_since w w'))).
Proof.
  assert (Hon : forall success w,
     read_buffer (ep w) = true -> success <> 0%Z ->
     staging_in_bounds (read_staging_buffer (ep w)) ->
     let '(w', o) := on_read fuel success w in
     o = Returns 1%Z ->
     length (bytes_of (destination w')) =
       length (bytes_of (destination w)) +
       written_sum (calls (trace_since w w')) /\
     processed_sum (calls (trace_since w w')) =
       length (bytes_of (source_buffer (ep w)))).
  { intros success w Hrb Hs Hst.
    pose proof (on_read_sizes fuel success w Hrb Hs Hst) as H.
    destruct (on_read fuel success w) as [w' o].
    destruct H as (_ & cs & Ht & _ & Hcs & _ & Ho).
    intros ->.
    rewrite (calls_of_run w w' cs Ht (Forall_is_unprotect_call _ Hcs)).
    apply Ho. reflexivity. }
  split; [exact Hon|].
  intros slices cb w Hst. rewrite endpoint_read_eq. cbv zeta.
  destruct (length (leftover_bytes (ep w)) =? 0) eqn:Hl; cbn [negb].
  - set (w0 := after_ref (read_started w cb)).
    assert (Hw1 : read_buffer (ep (after_wrapped_read w0)) = true /\
                  destination (after_wrapped_read w0) = [] /\
                  read_staging_buffer (ep (after_wrapped_read w0)) =
                    read_staging_buffer (ep w) /\
                  trace (after_wrapped_read w0) =
                    trace w ++ [EvRef; EvWrappedRead (wrapped_read_status w0)]).
    { unfold after_wrapped_read, wrapped_read_status.
      destruct (wrapped_read _ _) as [[t sb] st]; cbn.
      rewrite <- app_assoc. auto. }
    destruct Hw1 as (Hrb1 & Hd1 & Hs1 & Ht1).
    set (w1 := after_wrapped_read w0) in *.
    destruct (wrapped_read_status w0); [| discriminate |].
    + pose proof (on_read_sizes fuel 1 w1 Hrb1 ltac:(discriminate)
                    ltac:(rewrite Hs1; exact Hst)) as Hsz.
      pose proof (on_read_summary fuel 1 w1 Hrb1 ltac:(discriminate)) as Hsum.
      destruct (on_read fuel 1 w1) as [w2 [r| |]]; try discriminate.
      destruct Hsum as [Hrun _]. apply drain_run_result in Hrun.
      destruct Hrun as [->| ->]; cbn; [discriminate|].
      intros _. destruct Hsz as (_ & cs & Ht2 & _ & Hcs & _ & Ho).
      destruct (Ho eq_refl) as [Hlen _].
      rewrite Hd1 in Hlen. cbn in Hlen.
      destruct (after_unref_quiet w2) as (tail & Htl & Hq).
      destruct (after_unref_fields w2) as (_ & _ & _ & Hd & _).
      rewrite Hd, Hlen. f_equal. symmetry.
      apply (calls_between w (after_unref w2)
               [EvRef; EvWrappedRead GRPC_ENDPOINT_DONE] cs tail).
      * rewrite Htl, Ht2, Ht1, <- !app_assoc. reflexivity.
      * repeat constructor.
      * exact Hq.
      * apply Forall_is_unprotect_call, Hcs.
    + rewrite on_read_transport_failure by exact Hrb1. cbn. discriminate.
  - destruct (length (source_buffer (ep w)) =? 0); [|discriminate].
    set (w0 := swapped (read_started w cb)).
    pose proof (on_read_sizes fuel 1 w0 eq_refl ltac:(discriminate) Hst)
      as Hsz.
    pose proof (on_read_summary fuel 1 w0 eq_refl ltac:(discriminate))
      as Hsum.
    destruct (on_read fuel 1 w0) as [w2 [r| |]]; try discriminate.
    destruct Hsum as [Hrun _]. apply drain_run_result in Hrun.
    destruct Hrun as [->| ->]; cbn; [discriminate|].
    intros _. destruct Hsz as (_ & cs & Ht2 & _ & Hcs & _ & Ho).
    destruct (Ho eq_refl) as [Hlen _]. cbn in Hlen.
    rewrite Hlen. f_equal. symmetry.
    apply calls_of_run; [exact Ht2|].
    apply Forall_is_unprotect_call, Hcs.
Qed.

(** X12: no empty and no oversized slice.  When the protector keeps to
    the sizes it is given and the staging buffers are in order, every
    slice of the list that a write hands to the wrapped transport is
    non-empty and at most STAGING_BUFFER_SIZE bytes long, and so is
    every slice that a read appends to, or leaves in, the destination
    list. *)
Theorem slices_handed_over_are_in_bounds fuel :
  (forall slices cb w,
     staging_in_bounds (write_staging_buffer (ep w)) ->
     let '(w', o) := endpoint_write fuel slices cb w in
     forall out cb' status,
       In (EvWrappedWrite out cb' status) (trace_since w w') ->
       Forall staging_in_bounds out) /\
  (forall success w,
     read_buffer (ep w) = true -> success <> 0%Z ->
     staging_in_bounds (read_staging_buffer (ep w)) ->
     Forall staging_in_bounds (destination w) ->
     let '(w', o) := on_read fuel success w in
     Forall staging_in_bounds (destination w')) /\
  (forall slices cb w,
     staging_in_bounds (read_staging_buffer (ep w)) ->
     let '(w', o) := endpoint_read fuel slices cb w in
     Forall staging_in_bounds (destination w')).
Proof.
  assert (Hon : forall success w,
     read_buffer (ep w) = true ->
     staging_in_bounds (read_staging_buffer (ep w)) ->
     Forall staging_in_bounds (destination w) ->
     let '(w', o) := on_read fuel success w in
     Forall staging_in_bounds (destination w')).
  { intros success w Hrb Hst Hd.
    destruct (Z.eq_dec success 0) as [->|Hs].
    - rewrite on_read_transport_failure by exact Hrb. constructor.
    - pose proof (on_read_sizes fuel success w Hrb Hs Hst) as H.
      destruct (on_read fuel success w) as [w' o].
      destruct H as (_ & cs & _ & Hsl & _). auto. }
  split; [|split].
  - intros slices cb w Hst.
    pose proof (endpoint_write_sizes fuel slices cb w Hst) as H.
    destruct (endpoint_write fuel slices cb w) as [w' o].
    destruct H as (_ & Hout & cs & Hcs & _ & _ & Ho).
    intros out cb' status Hin.
    assert (Hno : trace w' = trace w ++ flat_map locked cs -> False).
    { intros Ht. rewrite (trace_since_app _ _ _ Ht) in Hin.
      apply (locked_no_wrapped_write _ _ Hcs) in Hin. discriminate. }
    destruct o as [st| |]; [|exfalso; apply Hno; exact Ho|contradiction].
    destruct Ho as [(Ht & _)|(_ & Ht)]; [|exfalso; apply Hno; exact Ht].
    rewrite (trace_since_app _ _ _ Ht) in Hin.
    apply in_app_or in Hin as [Hin|[Hin|[]]].
    + apply (locked_no_wrapped_write _ _ Hcs) in Hin. discriminate.
    + injection Hin as <- _ _. exact Hout.
  - intros success w Hrb _ Hst Hd. apply Hon; assumption.
  - intros slices cb w Hst. rewrite endpoint_read_eq. cbv zeta.
    destruct (length (leftover_bytes (ep w)) =? 0); cbn [negb].
    + set (w0 := after_ref (read_started w cb)).
      assert (Hw1 : read_buffer (ep (after_wrapped_read w0)) = true /\
                    destination (after_wrapped_read w0) = [] /\
                    read_staging_buffer (ep (after_wrapped_read w0)) =
                      read_staging_buffer (ep w)).
      { unfold after_wrapped_read.
        destruct (wrapped_read _ _) as [[t sb] st]; cbn. auto. }
      destruct Hw1 as (Hrb1 & Hd1 & Hs1).
      set (w1 := after_wrapped_read w0) in *.
      assert (Himm : forall success,
        let '(w', o) :=
          match on_read fuel success w1 with
          | (w2, Returns r) =>
            if (r =? -1)%Z then (w2, @Aborted grpc_endpoint_op_status)
            else (after_unref w2, Returns (status_of r))
          | (w2, OutOfFuel) => (w2, OutOfFuel)
          | (w2, Aborted) => (w2, Aborted)
          end in
        Forall staging_in_bounds (destination w')).
      { intros success.
        pose proof (Hon success w1 Hrb1 ltac:(rewrite Hs1; exact Hst)
                        ltac:(rewrite Hd1; constructor)) as H.
        destruct (on_read fuel success w1) as [w2 [r| |]]; try exact H.
        destruct (r =? -1)%Z; [exact H|].
        destruct (after_unref_fields w2) as (_ & _ & _ & Hd & _).
        rewrite Hd. exact H. }
      destruct (wrapped_read_status w0).
      * apply Himm.
      * rewrite Hd1. constructor.
      * apply Himm.
    + destruct (length (source_buffer (ep w)) =? 0); [|constructor].
      pose proof (Hon 1%Z (swapped (read_started w cb)) eq_refl Hst
                      ltac:(constructor)) as H.
      destruct (on_read fuel 1 (swapped (read_started w cb)))
        as [w2 [r| |]]; exact H.
Qed.

(** *** The staging buffers along a session *)

Lemma staging_inv_same w w' :
  calls (trace w') = calls (trace w) ->
  freed w' = freed w ->
  read_staging_buffer (ep w') = read_staging_buffer (ep w) ->
  write_staging_buffer (ep w') = write_staging_buffer (ep w) ->
  staging_inv w -> staging_inv w'.
Proof.
  intros Hc Hf Hr Hw [H1 H2]. unfold staging_inv.
  rewrite Hc, Hf, Hr, Hw. auto.
Qed.

Lemma staging_inv_after_unref w :
  staging_inv w -> staging_inv (after_unref w).
Proof.
  intros [H1 H2]. unfold staging_inv, after_unref.
  destruct (ref (ep w) =? 1)%Z; cbn.
  - split; [|discriminate].
    rewrite <- app_assoc, calls_app. cbn. rewrite app_nil_r. exact H1.
  - rewrite calls_app. cbn. rewrite app_nil_r. auto.
Qed.

Lemma on_read_staging_inv fuel success w :
  read_buffer (ep w) = true ->
  staging_inv w -> freed w = false ->
  forall w' r,
    on_read fuel success w = (w', Returns r) ->
    staging_inv w' /\ freed w' = false /\ ref (ep w') = ref (ep w) /\
    read_cb (ep w') = read_cb (ep w).
Proof.
  intros Hrb [Hc Hst] Hfr w' r Hrun.
  destruct (Hst Hfr) as [Hrs Hws].
  destruct (Z.eq_dec success 0) as [->|Hs].
  - rewrite on_read_transport_failure in Hrun by exact Hrb.
    injection Hrun as <- <-.
    split; [apply (staging_inv_same w); auto; split; auto|auto].
  - pose proof (on_read_sizes fuel success w Hrb Hs Hrs) as Hsz.
    pose proof (on_read_summary fuel success w Hrb Hs) as Hsum.
    rewrite Hrun in Hsz, Hsum.
    destruct Hsz as (Hrs' & cs & Ht & _ & Hcs & Hbs & _).
    destruct Hsum as (_ & _ & Hk2 & _ & _ & _ & Hk6 & _ & Hk8 & Hk9).
    split; [|split; [congruence|split; [exact Hk8|exact Hk2]]].
    split.
    + rewrite Ht, calls_app.
      rewrite (calls_locked _ (Forall_is_unprotect_call _ Hcs)).
      apply Forall_app; split; assumption.
    + intros _. rewrite Hk6. split; assumption.
Qed.

Lemma endpoint_read_staging_inv fuel slices cb w :
  staging_inv w -> freed w = false -> ref (ep w) <> 0%Z ->
  forall w' status,
    endpoint_read fuel slices cb w = (w', Returns status) ->
    staging_inv w'.
Proof.
  intros Hinv Hfr Href w' status. rewrite endpoint_read_eq. cbv zeta.
  destruct (length (leftover_bytes (ep w)) =? 0); cbn [negb].
  - set (w0 := after_ref (read_started w cb)).
    assert (Hw1 : read_buffer (ep (after_wrapped_read w0)) = true /\
                  staging_inv (after_wrapped_read w0) /\
                  freed (after_wrapped_read w0) = false /\
                  ref (ep (after_wrapped_read w0)) = (ref (ep w) + 1)%Z).
    { unfold after_wrapped_read.
      destruct (wrapped_read _ _) as [[t sb] st]; cbn.
      split; [reflexivity|]. split; [|auto].
      apply (staging_inv_same w); auto.
      cbn. rewrite !calls_app. cbn. rewrite !app_nil_r. reflexivity. }
    destruct Hw1 as (Hrb1 & Hinv1 & Hfr1 & Href1).
    set (w1 := after_wrapped_read w0) in *.
    assert (Himm : forall success,
      match on_read fuel success w1 with
      | (w2, Returns r) =>
        if (r =? -1)%Z then (w2, @Aborted grpc_endpoint_op_status)
        else (after_unref w2, Returns (status_of r))
      | (w2, OutOfFuel) => (w2, OutOfFuel)
      | (w2, Aborted) => (w2, Aborted)
      end = (w', Returns status) -> staging_inv w').
    { intros success.
      pose proof (on_read_staging_inv fuel success w1 Hrb1 Hinv1 Hfr1) as H.
      destruct (on_read fuel success w1) as [w2 [r| |]]; try discriminate.
      destruct (H w2 r eq_refl) as (Hinv2 & _).
      destruct (r =? -1)%Z; [discriminate|].
      intros Heq. injection Heq as <- _.
      apply staging_inv_after_unref, Hinv2. }
    destruct (wrapped_read_status w0).
    + apply Himm.
    + intros Heq. injection Heq as <- _. exact Hinv1.
    + apply Himm.
  - destruct (length (source_buffer (ep w)) =? 0); [|discriminate].
    set (w0 := swapped (read_started w cb)).
    assert (Hinv0 : staging_inv w0)
      by (apply (staging_inv_same w); auto).
    pose proof (on_read_staging_inv fuel 1 w0 eq_refl Hinv0 Hfr) as H.
    destruct (on_read fuel 1 w0) as [w2 [r| |]]; try discriminate.
    destruct (H w2 r eq_refl) as (Hinv2 & _).
    intros Heq. injection Heq as <- _. exact Hinv2.
Qed.

Lemma endpoint_write_staging_inv fuel slices cb w :
  staging_inv w -> freed w = false ->
  forall w' status,
    endpoint_write fuel slices cb w = (w', Returns status) ->
    staging_inv w'.
Proof.
  intros [Hc Hst] Hfr w' status Hrun.
  destruct (Hst Hfr) as [Hrs Hws].
  pose proof (endpoint_write_sizes fuel slices cb w Hws) as Hsz.
  pose proof (endpoint_write_summary fuel slices cb w) as Hsum.
  rewrite Hrun in Hsz, Hsum.
  destruct Hsz as (Hws' & _ & cs & Hcs & Hbs & _ & Ho).
  destruct Hsum as (_ & _ & _ & _ & _ & _ & Hk6 & _ & _ & Hk9).
  split.
  - assert (Hcalls : calls (trace w') = calls (trace w) ++ cs).
    { destruct Ho as [(Ht & _)|(_ & Ht)]; rewrite Ht, !calls_app;
        rewrite (calls_locked _ Hcs); cbn; rewrite ?app_nil_r; reflexivity. }
    rewrite Hcalls. apply Forall_app; split; assumption.
  - intros _. rewrite Hk6. split; assumption.
Qed.

Lemma on_read_cb_staging_inv fuel success w :
  read_buffer (ep w) = true ->
  staging_inv w -> freed w = false ->
  forall w',
    on_read_cb fuel success w = (w', Returns tt) ->
    staging_inv w'.
Proof.
  intros Hrb Hinv Hfr w'. rewrite on_read_cb_eq.
  pose proof (on_read_staging_inv fuel success w Hrb Hinv Hfr) as H.
  destruct (on_read fuel success w) as [w1 [r| |]]; try discriminate.
  destruct (H w1 r eq_refl) as (Hinv1 & Hfr1 & _).
  destruct (read_cb (ep w1)); [|discriminate].
  intros Heq. injection Heq as <-.
  apply staging_inv_after_unref.
  apply (staging_inv_same w1); auto.
  cbn. rewrite calls_app. cbn. rewrite app_nil_r. reflexivity.
Qed.

Lemma api_step_staging_inv fuel s c s' :
  session_inv s -> staging_inv (sw s) ->
  api_step fuel s c = Some s' ->
  staging_inv (sw s').
Proof.
  intros (Href & Hfr & Hpend & _) Hinv Hstep.
  destruct c as [slices cb|slices cb| | |received success];
    cbn [api_step] in Hstep.
  - destruct (read_pending s) eqn:Hp; [discriminate|].
    destruct (destroy_called s) eqn:Hd; [discriminate|].
    cbn [orb] in Hstep. cbn in Href.
    destruct (endpoint_read fuel slices cb (sw s)) as [w' [status| |]] eqn:Hr;
      try discriminate.
    inversion Hstep; subst s'; clear Hstep. cbn [sw].
    apply (endpoint_read_staging_inv fuel slices cb (sw s) Hinv
             ltac:(rewrite Hfr, Href; reflexivity)
             ltac:(rewrite Href; discriminate) w' status Hr).
  - destruct (destroy_called s) eqn:Hd; [discriminate|].
    destruct (endpoint_write fuel slices cb (sw s)) as [w' [status| |]] eqn:Hr;
      try discriminate.
    inversion Hstep; subst s'; clear Hstep. cbn [sw].
    apply (endpoint_write_staging_inv fuel slices cb (sw s) Hinv
             ltac:(rewrite Hfr, Href; destruct (read_pending s); reflexivity)
             w' status Hr).
  - destruct (destroy_called s) eqn:Hd; [discriminate|].
    inversion Hstep; subst s'; clear Hstep. cbn [sw].
    apply (staging_inv_same (sw s)); auto.
    cbn. rewrite calls_app. cbn. rewrite app_nil_r. reflexivity.
  - destruct (destroy_called s) eqn:Hd; [discriminate|].
    inversion Hstep; subst s'; clear Hstep. cbn [sw].
    unfold endpoint_destroy. rewrite secure_endpoint_unref_eq. cbn [fst].
    apply staging_inv_after_unref, Hinv.
  - destruct (read_pending s) eqn:Hp; [|discriminate].
    destruct (Hpend eq_refl) as (Hrb & _ & _).
    destruct (on_read_cb fuel success (transport_delivers received (sw s)))
      as [w' [[]| |]] eqn:Hr; try discriminate.
    inversion Hstep; subst s'; clear Hstep. cbn [sw].
    assert (Hinv0 : staging_inv (transport_delivers received (sw s)))
      by (apply (staging_inv_same (sw s)); auto).
    assert (Hfr0 : freed (transport_delivers received (sw s)) = false)
      by (cbn; rewrite Hfr, Href; destruct (destroy_called s); reflexivity).
    apply (on_read_cb_staging_inv fuel success
             (transport_delivers received (sw s)) Hrb Hinv0 Hfr0 w' Hr).
Qed.

Lemma staging_inv_create p t leftover :
  staging_inv (sw (api_create p t leftover)).
Proof.
  unfold staging_inv, api_create, grpc_secure_endpoint_create,
    staging_in_bounds; cbn.
  split; [constructor|]. intros _.
  rewrite gpr_slice_malloc_length. lia.
Qed.

Lemma api_run_staging_inv fuel cs : forall s0 s1,
  session_inv s0 -> staging_inv (sw s0) ->
  api_run fuel s0 cs = Some s1 -> staging_inv (sw s1).
Proof.
  induction cs as [|c cs IH]; intros s0 s1 Hs Hst Hrun; cbn in Hrun.
  - inversion Hrun; subst; exact Hst.
  - destruct (api_step fuel s0 c) as [s2|] eqn:Hstep; [|discriminate].
    destruct (api_step_inv _ _ _ _ Hs Hstep) as [Hs2 _].
    apply (IH s2 s1 Hs2); [|exact Hrun].
    apply (api_step_staging_inv fuel s0 c s2 Hs Hst Hstep).
Qed.

(** X3: along every session that starts at grpc_secure_endpoint_create
    with a protector that keeps to the sizes it is given and a positive
    STAGING_BUFFER_SIZE, every protect, flush and unprotect call is
    offered an output region of at least one byte and at most
    STAGING_BUFFER_SIZE bytes, and until the endpoint is freed both
    staging buffers are non-empty and at most STAGING_BUFFER_SIZE long. *)
Theorem protector_capacity_in_bounds fuel p t leftover cs s :
  api_run fuel (api_create p t leftover) cs = Some s ->
  Forall capacity_in_bounds (calls (trace (sw s))) /\
  (freed (sw s) = false ->
   staging_in_bounds (read_staging_buffer (ep (sw s))) /\
   staging_in_bounds (write_staging_buffer (ep (sw s)))).
Proof.
  assert (Hrun : forall cs s0 s1,
            session_inv s0 -> staging_inv (sw s0) ->
            api_run fuel s0 cs = Some s1 -> staging_inv (sw s1)).
  { clear cs s. induction cs as [|c cs IH]; intros s0 s1 Hs Hst Hrun;
      cbn in Hrun.
    - inversion Hrun; subst; exact Hst.
    - destruct (api_step fuel s0 c) as [s2|] eqn:Hstep; [|discriminate].
      destruct (api_step_inv _ _ _ _ Hs Hstep) as [Hs2 _].
      apply (IH s2 s1 Hs2); [|exact Hrun].
      apply (api_step_staging_inv fuel s0 c s2 Hs Hst Hstep). }
  intros H. apply (Hrun cs _ s (session_inv_create p t leftover)); [|exact H].
  unfold staging_inv, api_create, grpc_secure_endpoint_create,
    staging_in_bounds; cbn.
  split; [constructor|]. intros _.
  rewrite gpr_slice_malloc_length. lia.
Qed.

End Sizes.

(* ================================================================== *)
(** * The drain loop of the read pipeline                              *)
(* ================================================================== *)




(* ================================================================== *)
(** * The leftover bytes                                               *)
(* ================================================================== *)

(** The slices of a list that are not empty. *)
Lemma nonempty_slices_cons (encrypted : gpr_slice) rest :
  length (filter (fun sl : gpr_slice => 0 <? length sl) (encrypted :: rest)) =
  (if 0 <? length encrypted then 1 else 0) +
  length (filter (fun sl : gpr_slice => 0 <? length sl) rest).
Proof. cbn [filter]. destruct (0 <? length encrypted); reflexivity. Qed.

(** A slice that is not empty is handed to unprotect at least once,
    whatever the protector answers. *)
Lemma on_read_while_enters fuel msg cur end_ keep res w :
  tsi_ok res = true ->
  let '(w', o) := on_read_while fuel msg cur end_ keep res w in
  exists cs,
    trace w' = trace w ++ flat_map locked cs /\
    Forall (fun c => is_unprotect c = true) cs /\
    match o with
    | Returns _ => (if 0 <? length msg then 1 else 0) <= length cs
    | _ => True
    end.
Proof.
  intros Hres.
  assert (Hstop : (0 <? length msg) || keep = false ->
                  exists cs : list event,
                    trace w = trace w ++ flat_map locked cs /\
                    Forall (fun c => is_unprotect c = true) cs /\
                    (if 0 <? length msg then 1 else 0) <= length cs).
  { intros Hc. apply orb_false_elim in Hc as [-> _].
    exists []. cbn. rewrite app_nil_r. repeat split; constructor. }
  destruct fuel as [|fuel].
  - cbn [on_read_while]. destruct ((0 <? length msg) || keep) eqn:Hc.
    + exists []. cbn. rewrite app_nil_r. repeat split; constructor.
    + apply Hstop; reflexivity.
  - rewrite on_read_while_eq.
    destruct ((0 <? length msg) || keep) eqn:Hc; [|apply Hstop; reflexivity].
    cbv zeta. unfold after_unprotect.
    destruct (tsi_unprotect (protector (ep w)) msg (end_ - cur))
      as [[[r p] n] out].
    set (c := EvUnprotect (length msg) (end_ - cur) r n (length out)).
    match goal with
    | |- context [sealed_read ?w0] => set (w1 := w0)
    end.
    assert (Hone : (if 0 <? length msg then 1 else 0) <= 1)
      by (destruct (0 <? length msg); lia).
    assert (Hcont : forall m cu e k w2,
              tsi_ok r = true ->
              trace w2 = trace w ++ locked c ->
              let '(w', o) := on_read_while fuel m cu e k r w2 in
              exists cs,
                trace w' = trace w ++ flat_map locked cs /\
                Forall (fun c => is_unprotect c = true) cs /\
                match o with
                | Returns _ => (if 0 <? length msg then 1 else 0) <= length cs
                | _ => True
                end).
    { intros m cu e k w2 Hr Ht2.
      pose proof (on_read_while_summary fuel m cu e k r w2 Hr) as H.
      destruct (on_read_while fuel m cu e k r w2) as [w' o].
      destruct H as (_ & cs & Ht & Hcs & _).
      exists (c :: cs). cbn [flat_map].
      split; [rewrite Ht, Ht2, <- app_assoc; reflexivity|].
      split; [constructor; [reflexivity|exact Hcs]|].
      destruct o; [cbn [length]; lia|exact I|exact I]. }
    destruct (tsi_ok r) eqn:Hr; cbn [negb].
    + destruct (cur + length out =? end_).
      * destruct (read_buffer (ep w)).
        -- apply Hcont; reflexivity.
        -- exists [c]. cbn [flat_map]. rewrite app_nil_r.
           repeat split; repeat constructor.
      * apply Hcont; reflexivity.
    + exists [c]. cbn [flat_map]. rewrite app_nil_r.
      split; [reflexivity|]. split; [repeat constructor|exact Hone].
Qed.

(** Every slice of the source list that is not empty is handed to
    unprotect at least once when the loops run to their end. *)
Lemma on_read_for_enters fuel slices : forall cur end_ keep res w,
  tsi_ok res = true ->
  let '(w', o) := on_read_for fuel slices cur end_ keep res w in
  exists cs,
    trace w' = trace w ++ flat_map locked cs /\
    Forall (fun c => is_unprotect c = true) cs /\
    match o with
    | Returns (_, _, _, r) =>
      tsi_ok r = true ->
      length (filter (fun sl : gpr_slice => 0 <? length sl) slices) <=
      length cs
    | _ => True
    end.
Proof.
  induction slices as [|encrypted rest IH]; intros cur end_ keep res w Hres.
  - cbn [on_read_for]; unfold ret. exists []. cbn. rewrite app_nil_r.
    repeat split; constructor.
  - cbn [on_read_for]; unfold bind.
    pose proof (on_read_while_enters fuel encrypted cur end_ keep res w Hres)
      as Hw.
    destruct (on_read_while fuel encrypted cur end_ keep res w)
      as [w1 [[[[cur1 end1] keep1] r1]| |]];
      [|destruct Hw as (cs & Ht & Hcs & _); exists cs; auto..].
    destruct Hw as (cs & Ht & Hcs & Hn).
    destruct (tsi_ok r1) eqn:Hr1; cbn [negb]; unfold ret.
    + specialize (IH cur1 end1 keep1 r1 w1 Hr1).
      destruct (on_read_for fuel rest cur1 end1 keep1 r1 w1) as [w' o].
      destruct IH as (cs' & Ht' & Hcs' & Ho).
      exists (cs ++ cs'). rewrite flat_map_app, Ht', Ht, <- app_assoc.
      split; [reflexivity|]. split; [apply Forall_app; auto|].
      destruct o as [[[[? ?] ?] r']| |]; [|exact I|exact I].
      intros Hr'. specialize (Ho Hr').
      rewrite nonempty_slices_cons, length_app. lia.
    + exists cs. split; [exact Ht|]. split; [exact Hcs|].
      intros Hr'. congruence.
Qed.

Lemma on_read_enters fuel success w w' :
  read_buffer (ep w) = true ->
  success <> 0%Z ->
  on_read fuel success w = (w', Returns 1%Z) ->
  length (filter (fun sl : gpr_slice => 0 <? length sl)
                 (source_buffer (ep w))) <=
  length (calls (trace_since w w')).
Proof.
  intros Hrb Hs. rewrite on_read_eq by exact Hrb.
  apply Z.eqb_neq in Hs. rewrite Hs.
  pose proof (on_read_for_enters fuel (source_buffer (ep w)) 0
                (length (read_staging_buffer (ep w))) false TSI_OK w eq_refl)
    as Hfor.
  destruct (on_read_for fuel (source_buffer (ep w)) 0
              (length (read_staging_buffer (ep w))) false TSI_OK w)
    as [w1 [[[[cur end_] keep] result]| |]]; try discriminate.
  destruct Hfor as (cs & Ht & Hcs & Hn).
  destruct (tsi_ok result) eqn:Hr; [|discriminate].
  intros Heq. injection Heq as <-.
  rewrite (calls_of_run w (on_read_finish w1 cur result) cs Ht
             (Forall_is_unprotect_call _ Hcs)).
  apply Hn. reflexivity.
Qed.

(** C6: in every session that starts at grpc_secure_endpoint_create and
    follows the endpoint contract:
    (1) the source list is empty as long as no read was issued and the
        leftover list is empty from the first read on, whatever the
        results of the reads;
    (2) a read that finds leftover bytes moves them to the source list,
        which leaves the leftover list empty, and runs on_read on them;
    (3) when that read returns, it has not asked the wrapped transport
        and it is not Pending, its events are unprotect calls under the
        mutex, and both the leftover list and the source list are empty.
        On Done every call succeeded and every leftover slice that is
        not empty was handed to unprotect (there are at least as many
        calls as such slices); with a protector that keeps to the sizes
        it is given, a positive STAGING_BUFFER_SIZE and an endpoint that
        the application has not destroyed, the calls consumed between
        them exactly the leftover bytes, and the destination list holds
        exactly the bytes they wrote.  On Error the last call failed,
        the calls before it succeeded, the destination list is empty,
        and what was not consumed of the leftover bytes is gone with
        the source list. *)
Theorem leftover_bytes_consumed_once fuel p t leftover calls s :
  api_run fuel (api_create p t leftover) calls = Some s ->
  (if existsb is_read_call calls
   then leftover_bytes (ep (sw s)) = []
   else source_buffer (ep (sw s)) = []) /\
  (forall slices cb,
     leftover_bytes (ep (sw s)) <> [] ->
     let w0 := swapped (read_started (sw s) cb) in
     source_buffer (ep w0) = leftover_bytes (ep (sw s)) /\
     leftover_bytes (ep w0) = [] /\
     endpoint_read fuel slices cb (sw s) =
       match on_read fuel 1 w0 with
       | (w', Returns r) => (w', Returns (status_of r))
       | (w', OutOfFuel) => (w', OutOfFuel)
       | (w', Aborted) => (w', Aborted)
       end) /\
  (forall slices cb w' status,
     leftover_bytes (ep (sw s)) <> [] ->
     endpoint_read fuel slices cb (sw s) = (w', Returns status) ->
     leftover_bytes (ep w') = [] /\
     source_buffer (ep w') = [] /\
     exists cs,
       trace_since (sw s) w' = flat_map locked cs /\
       Forall (fun c => is_unprotect c = true) cs /\
       match status with
       | GRPC_ENDPOINT_DONE =>
         Forall call_ok cs /\
         length (filter (fun sl : gpr_slice => 0 <? length sl)
                        (leftover_bytes (ep (sw s)))) <= length cs /\
         (respects_sizes -> 0 < STAGING_BUFFER_SIZE ->
          destroy_called s = false ->
          processed_sum cs =
            length (bytes_of (leftover_bytes (ep (sw s)))) /\
          length (bytes_of (destination w')) = written_sum cs)
       | GRPC_ENDPOINT_ERROR =>
         destination w' = [] /\
         exists pre c,
           cs = pre ++ [c] /\ Forall call_ok pre /\
           tsi_ok (call_result c) = false
       | GRPC_ENDPOINT_PENDING => False
       end).
Proof.
  intros Hrun.
  destruct (api_run_inv fuel calls _ _ (session_inv_create p t leftover) Hrun)
    as ((Href & Hfr & _ & Hlo) & Hl).
  assert (Hsrc : existsb is_read_call calls = false ->
                 source_buffer (ep (sw s)) = []).
  { clear Hl Hlo Href Hfr. revert Hrun.
    assert (Hgen : forall cs s0 s1,
              source_buffer (ep (sw s0)) = [] ->
              read_pending s0 = false ->
              api_run fuel s0 cs = Some s1 ->
              existsb is_read_call cs = false ->
              source_buffer (ep (sw s1)) = [] /\ read_pending s1 = false).
    { induction cs as [|c cs IH]; intros s0 s1 H0 Hp0 Hr Hnr; cbn in Hr.
      - inversion Hr; subst; auto.
      - cbn [existsb] in Hnr. apply orb_false_elim in Hnr as [Hc Hcs].
        destruct (api_step fuel s0 c) as [s2|] eqn:Hstep; [|discriminate].
        apply (IH s2 s1); auto.
        + destruct c as [? ?|slices cb| | |? ?];
            cbn [api_step is_read_call] in Hc, Hstep;
            try discriminate.
          * destruct (destroy_called s0); [discriminate|].
            pose proof (endpoint_write_summary fuel slices cb (sw s0)) as Hs.
            destruct (endpoint_write fuel slices cb (sw s0))
              as [w' [st| |]]; try discriminate.
            inversion Hstep; subst. cbn.
            destruct Hs as (_ & _ & _ & _ & Hk & _). congruence.
          * destruct (destroy_called s0); [discriminate|].
            inversion Hstep; subst. cbn. exact H0.
          * destruct (destroy_called s0); [discriminate|].
            inversion Hstep; subst.
            unfold endpoint_destroy.
            rewrite secure_endpoint_unref_eq. cbn [sw fst].
            unfold after_unref, after_destroy.
            destruct (ref (ep (sw s0)) =? 1)%Z; cbn; auto.
          * rewrite Hp0 in Hstep. discriminate.
        + destruct c as [? ?|slices cb| | |? ?];
            cbn [api_step is_read_call] in Hc, Hstep;
            try discriminate.
          * destruct (destroy_called s0); [discriminate|].
            destruct (endpoint_write fuel slices cb (sw s0))
              as [w' [st| |]]; try discriminate.
            inversion Hstep; subst. exact Hp0.
          * destruct (destroy_called s0); [discriminate|].
            inversion Hstep; subst. exact Hp0.
          * destruct (destroy_called s0); [discriminate|].
            inversion Hstep; subst. exact Hp0.
          * rewrite Hp0 in Hstep. discriminate. }
    intros Hrun Hnr.
    apply (Hgen calls (api_create p t leftover) s); auto. }
  assert (Hread : forall slices cb,
            leftover_bytes (ep (sw s)) <> [] ->
            source_buffer (ep (sw s)) = [] /\
            endpoint_read fuel slices cb (sw s) =
              match on_read fuel 1 (swapped (read_started (sw s) cb)) with
              | (w', Returns r) => (w', Returns (status_of r))
              | (w', OutOfFuel) => (w', OutOfFuel)
              | (w', Aborted) => (w', Aborted)
              end).
  { intros slices cb Hne.
    destruct Hlo as [Hle|Hs]; [contradiction|].
    split; [exact Hs|].
    rewrite endpoint_read_eq. cbv zeta.
    destruct (leftover_bytes (ep (sw s))) eqn:Hle; [contradiction|].
    rewrite Hs. reflexivity. }
  split; [|split].
  - destruct (existsb is_read_call calls) eqn:Hr; auto.
  - intros slices cb Hne. cbv zeta.
    destruct (Hread slices cb Hne) as [Hs Heq].
    split; [reflexivity|]. split; [cbn; exact Hs|exact Heq].
  - intros slices cb w' status Hne Hret.
    destruct (Hread slices cb Hne) as [Hs Heq].
    rewrite Heq in Hret. clear Heq.
    set (w0 := swapped (read_started (sw s) cb)) in *.
    pose proof (on_read_summary fuel 1 w0 eq_refl ltac:(discriminate))
      as Hsum.
    destruct (on_read fuel 1 w0) as [w2 [r| |]] eqn:Hon; try discriminate.
    injection Hret as <- <-.
    destruct Hsum as [Hdr (_ & _ & _ & _ & Hk5 & _)].
    split; [rewrite Hk5; cbn; exact Hs|].
    assert (Hcalls : forall cs,
              Forall (fun c => is_unprotect c = true) cs ->
              trace w2 = trace w0 ++ flat_map locked cs ->
              trace_since (sw s) w2 = flat_map locked cs)
      by (intros cs _ Ht; apply trace_since_app; exact Ht).
    inversion Hdr as [cs Hcs Hok Ht Hsrc2 Ho
                     |pre c Hcs Hok Hc Ht Hsrc2 Hdst Ho|]; subst r.
    + split; [exact Hsrc2|]. exists cs.
      split; [apply Hcalls; assumption|]. split; [exact Hcs|].
      cbn [status_of Z.eqb]. split; [exact Hok|].
      split.
      { rewrite <- (calls_of_run w0 w2 cs Ht
                      (Forall_is_unprotect_call _ Hcs)).
        apply (on_read_enters fuel 1 w0 w2 eq_refl ltac:(discriminate) Hon). }
      intros Hsz Hpos Hd.
      pose proof (api_run_staging_inv Hsz Hpos fuel calls _ _
                    (session_inv_create p t leftover)
                    (staging_inv_create Hpos p t leftover) Hrun)
        as [_ Hst].
      assert (Hnf : freed (sw s) = false).
      { rewrite Hfr, Href, Hd.
        destruct (read_pending s); reflexivity. }
      destruct (Hst Hnf) as [Hrs _].
      pose proof (on_read_sizes Hsz Hpos fuel 1 w0 eq_refl
                    ltac:(discriminate) Hrs) as Hsize.
      rewrite Hon in Hsize.
      destruct Hsize as (_ & cs' & Ht' & _ & Hcs' & _ & Hacc).
      assert (Heq : cs' = cs).
      { rewrite <- (calls_of_run w0 w2 cs' Ht'
                      (Forall_is_unprotect_call _ Hcs')).
        apply (calls_of_run w0 w2 cs Ht (Forall_is_unprotect_call _ Hcs)). }
      subst cs'. destruct (Hacc eq_refl) as [Hw Hp].
      split; [exact Hp|exact Hw].
    + split; [exact Hsrc2|]. exists (pre ++ [c]).
      split; [apply Hcalls; assumption|]. split; [exact Hcs|].
      cbn [status_of Z.eqb]. split; [exact Hdst|].
      exists pre, c. auto.
Qed.

(* ------------------------------------------------------------------ *)
(** ** The traces of the operations, event by event                    *)
(* ------------------------------------------------------------------ *)

Lemma trace_after_unref w :
  trace (after_unref w) = trace w ++ unref_events (ref (ep w)).
Proof.
  unfold after_unref, unref_events.
  destruct (ref (ep w) =? 1)%Z; cbn; [|reflexivity].
  rewrite <- app_assoc. reflexivity.
Qed.

Lemma unref_events_quiet r : Forall quiet (unref_events r).
Proof.
  unfold unref_events. destruct (r =? 1)%Z; repeat constructor.
Qed.

Lemma teardown_unref_events r :
  filter is_teardown (unref_events r) =
  if (r =? 1)%Z
  then [EvWrappedDestroy; EvProtectorDestroy; EvMuDestroy; EvFree]
  else [].
Proof. unfold unref_events. destruct (r =? 1)%Z; reflexivity. Qed.

Lemma teardown_locked cs :
  Forall (fun c => is_call c = true) cs ->
  filter is_teardown (flat_map locked cs) = [].
Proof.
  induction 1 as [|c cs Hc _ IH]; [reflexivity|].
  cbn. rewrite IH. destruct c; cbn in *; congruence.
Qed.

(** The trace of on_read: the unprotect calls, each under the mutex, and
    nothing else; none at all after a transport error. *)
Lemma on_read_calls fuel success w :
  read_buffer (ep w) = true ->
  let '(w', o) := on_read fuel success w in
  exists cs,
    trace w' = trace w ++ flat_map locked cs /\
    Forall (fun c => is_unprotect c = true) cs /\
    read_keeps w w' /\
    match o with
    | Returns r =>
      (r = 1%Z /\ success <> 0%Z /\ Forall call_ok cs /\
       source_buffer (ep w') = []) \/
      (r = 0%Z /\ destination w' = [] /\
       ((success = 0%Z /\ cs = [] /\
         source_buffer (ep w') = source_buffer (ep w)) \/
        (success <> 0%Z /\ source_buffer (ep w') = [] /\
         exists pre c, cs = pre ++ [c] /\ Forall call_ok pre /\
                       tsi_ok (call_result c) = false)))
    | OutOfFuel => success <> 0%Z /\ Forall call_ok cs
    | Aborted => False
    end.
Proof.
  intros Hrb. destruct (Z.eq_dec success 0) as [->|Hs].
  - rewrite on_read_transport_failure by exact Hrb.
    exists []. cbn. rewrite app_nil_r.
    split; [reflexivity|]. split; [constructor|].
    split; [unfold read_keeps; cbn; intuition|].
    right. split; [reflexivity|]. split; [reflexivity|]. left. auto.
  - pose proof (on_read_summary fuel success w Hrb Hs) as Hsum.
    destruct (on_read fuel success w) as [w' o].
    destruct Hsum as [Hrun Hk].
    inversion Hrun as [cs Hcs Hok Ht Hsrc Ho
                      |pre c Hcs Hok Hc Ht Hsrc Hdst Ho
                      |cs Hcs Hok Ht Ho]; subst o.
    + exists cs. do 3 (split; [assumption|]). left. auto.
    + exists (pre ++ [c]). do 3 (split; [assumption|]).
      right. split; [reflexivity|]. split; [exact Hdst|]. right.
      split; [exact Hs|]. split; [exact Hsrc|]. exists pre, c. auto.
    + exists cs. do 3 (split; [assumption|]). auto.
Qed.

(** The trace of endpoint_read.  With leftover bytes: the unprotect calls
    and nothing else.  Without: the reference, the one read of the
    wrapped transport, the unprotect calls, and the release of the
    reference unless the read is pending. *)
Lemma endpoint_read_trace fuel slices cb w :
  let '(w', o) := endpoint_read fuel slices cb w in
  exists cs,
    Forall (fun c => is_unprotect c = true) cs /\
    if length (leftover_bytes (ep w)) =? 0 then
      match o with
      | Returns GRPC_ENDPOINT_PENDING =>
        transport_answer w = GRPC_ENDPOINT_PENDING /\ cs = [] /\
        trace w' = trace w ++ [EvRef; EvWrappedRead GRPC_ENDPOINT_PENDING] /\
        ref (ep w') = (ref (ep w) + 1)%Z /\ freed w' = freed w
      | Returns status =>
        transport_answer w <> GRPC_ENDPOINT_PENDING /\
        (transport_answer w = GRPC_ENDPOINT_ERROR ->
         cs = [] /\ status = GRPC_ENDPOINT_ERROR) /\
        trace w' = trace w ++
                   [EvRef; EvWrappedRead (transport_answer w)] ++
                   flat_map locked cs ++ unref_events (ref (ep w) + 1) /\
        ref (ep w') = ref (ep w) /\
        (ref (ep w) <> 0%Z -> freed w' = freed w)
      | OutOfFuel =>
        transport_answer w = GRPC_ENDPOINT_DONE /\
        trace w' = trace w ++
                   [EvRef; EvWrappedRead GRPC_ENDPOINT_DONE] ++
                   flat_map locked cs
      | Aborted => False
      end
    else
      trace w' = trace w ++ flat_map locked cs /\
      wrapped_ep (ep w') = wrapped_ep (ep w) /\
      ref (ep w') = ref (ep w) /\ freed w' = freed w /\
      o <> Returns GRPC_ENDPOINT_PENDING /\
      (source_buffer (ep w) = [] ->
       o <> Aborted /\ leftover_bytes (ep w') = [] /\
       (forall status, o = Returns status -> source_buffer (ep w') = [])).
Proof.
  rewrite endpoint_read_eq. cbv zeta.
  destruct (length (leftover_bytes (ep w)) =? 0) eqn:Hl; cbn [negb].
  - set (w0 := after_ref (read_started w cb)).
    assert (Hst : wrapped_read_status w0 = transport_answer w) by reflexivity.
    assert (Hw1 : read_buffer (ep (after_wrapped_read w0)) = true /\
                  trace (after_wrapped_read w0) =
                    trace w ++ [EvRef; EvWrappedRead (transport_answer w)] /\
                  ref (ep (after_wrapped_read w0)) = (ref (ep w) + 1)%Z /\
                  freed (after_wrapped_read w0) = freed w).
    { unfold after_wrapped_read, transport_answer, w0, after_ref,
        read_started.
      cbn [ep wrapped_ep source_buffer set_ref set_read_buffer set_read_cb].
      destruct (wrapped_read _ _) as [[t sb] st]; cbn.
      rewrite <- app_assoc. auto. }
    destruct Hw1 as (Hrb1 & Ht1 & Href1 & Hfr1).
    set (w1 := after_wrapped_read w0) in *.
    assert (Himm : forall success,
      (success = 0%Z <-> transport_answer w = GRPC_ENDPOINT_ERROR) ->
      transport_answer w <> GRPC_ENDPOINT_PENDING ->
      (success <> 0%Z -> transport_answer w = GRPC_ENDPOINT_DONE) ->
      let '(w', o) :=
        match on_read fuel success w1 with
        | (w2, Returns r) =>
          if (r =? -1)%Z then (w2, @Aborted grpc_endpoint_op_status)
          else (after_unref w2, Returns (status_of r))
        | (w2, OutOfFuel) => (w2, OutOfFuel)
        | (w2, Aborted) => (w2, Aborted)
        end in
      exists cs,
        Forall (fun c => is_unprotect c = true) cs /\
        match o with
        | Returns GRPC_ENDPOINT_PENDING =>
          transport_answer w = GRPC_ENDPOINT_PENDING /\ cs = [] /\
          trace w' = trace w ++ [EvRef; EvWrappedRead GRPC_ENDPOINT_PENDING] /\
          ref (ep w') = (ref (ep w) + 1)%Z /\ freed w' = freed w
        | Returns status =>
          transport_answer w <> GRPC_ENDPOINT_PENDING /\
          (transport_answer w = GRPC_ENDPOINT_ERROR ->
           cs = [] /\ status = GRPC_ENDPOINT_ERROR) /\
          trace w' = trace w ++
                     [EvRef; EvWrappedRead (transport_answer w)] ++
                     flat_map locked cs ++ unref_events (ref (ep w) + 1) /\
          ref (ep w') = ref (ep w) /\
          (ref (ep w) <> 0%Z -> freed w' = freed w)
        | OutOfFuel =>
          transport_answer w = GRPC_ENDPOINT_DONE /\
          trace w' = trace w ++
                     [EvRef; EvWrappedRead GRPC_ENDPOINT_DONE] ++
                     flat_map locked cs
        | Aborted => False
        end).
    { intros success Hsucc Hnp Hdone.
      pose proof (on_read_calls fuel success w1 Hrb1) as H.
      destruct (on_read fuel success w1) as [w2 [r| |]].
      - destruct H as (cs & Ht2 & Hcs & Hk & Hr).
        destruct Hk as (_ & _ & _ & _ & _ & _ & _ & Hk8 & Hk9).
        assert (Hr01 : r = 0%Z \/ r = 1%Z) by (destruct Hr as [(-> & _)|(-> & _)]; auto).
        assert (Hrn : (r =? -1)%Z = false) by (destruct Hr01 as [-> | ->]; reflexivity).
        rewrite Hrn.
        assert (Hpost :
          transport_answer w <> GRPC_ENDPOINT_PENDING /\
          (transport_answer w = GRPC_ENDPOINT_ERROR ->
           cs = [] /\ status_of r = GRPC_ENDPOINT_ERROR) /\
          trace (after_unref w2) =
            trace w ++ [EvRef; EvWrappedRead (transport_answer w)] ++
            flat_map locked cs ++ unref_events (ref (ep w) + 1) /\
          ref (ep (after_unref w2)) = ref (ep w) /\
          (ref (ep w) <> 0%Z -> freed (after_unref w2) = freed w)).
        { split; [exact Hnp|]. split; [|split; [|split]].
          - intros He. apply Hsucc in He. subst success.
            destruct Hr as [(_ & Hs & _)|(-> & _ & [(_ & -> & _)|(Hs & _)])];
              try congruence. auto.
          - rewrite trace_after_unref, Ht2, Ht1, Hk8, Href1, <- !app_assoc.
            reflexivity.
          - destruct (after_unref_fields w2) as (_ & _ & _ & _ & Hu5 & _).
            rewrite Hu5, Hk8, Href1. lia.
          - intros Hnz.
            destruct (after_unref_fields w2) as (_ & _ & _ & _ & _ & Hu6 & _).
            rewrite Hu6, Hk9, Hfr1, Hk8, Href1.
            replace (ref (ep w) + 1 =? 1)%Z with false; [reflexivity|].
            symmetry. apply Z.eqb_neq. lia. }
        exists cs. split; [exact Hcs|].
        destruct Hr01 as [-> | ->]; cbn [status_of Z.eqb] in *; exact Hpost.
      - destruct H as (cs & Ht2 & Hcs & _ & Hs & _).
        exists cs. split; [exact Hcs|].
        rewrite (Hdone Hs) in *. split; [reflexivity|].
        rewrite Ht2, Ht1, <- app_assoc. reflexivity.
      - destruct H as (cs & _ & _ & _ & []). }
    rewrite Hst. destruct (transport_answer w) eqn:Hans.
    + apply (Himm 1%Z); [split; discriminate|discriminate|reflexivity].
    + exists []. split; [constructor|].
      split; [reflexivity|]. split; [reflexivity|].
      rewrite Ht1. auto.
    + apply (Himm 0%Z); [split; reflexivity|discriminate|congruence].
  - destruct (length (source_buffer (ep w)) =? 0) eqn:Hsrc.
    + apply Nat.eqb_eq, length_zero_iff_nil in Hsrc.
      set (w0 := swapped (read_started w cb)).
      pose proof (on_read_calls fuel 1 w0 eq_refl) as H.
      destruct (on_read fuel 1 w0) as [w2 o2].
      destruct H as (cs & Ht2 & Hcs & Hk & Hr).
      destruct Hk as (Hk1 & _ & _ & _ & Hk5 & _ & _ & Hk8 & Hk9).
      cbn in Ht2, Hk1, Hk5, Hk8, Hk9. rewrite Hsrc in Hk5.
      destruct o2 as [r| |]; [|destruct Hr as [_ Hr]|contradiction];
        (exists cs; split; [exact Hcs|]).
      * assert (Hr01 : r = 0%Z \/ r = 1%Z)
          by (destruct Hr as [(-> & _)|(-> & _)]; auto).
        repeat split; auto.
        -- destruct Hr01 as [-> | ->]; discriminate.
        -- discriminate.
        -- intros status _.
           destruct Hr as [(_ & _ & _ & Hs)|(_ & _ & [(Hs & _)|(_ & Hs & _)])];
             [exact Hs|discriminate|exact Hs].
      * repeat split; auto; discriminate.
    + apply Nat.eqb_neq in Hsrc.
      exists []. split; [constructor|]. cbn [flat_map].
      rewrite app_nil_r.
      do 4 (split; [reflexivity|]). split; [discriminate|].
      intros Hnil. rewrite Hnil in Hsrc. cbn in Hsrc. congruence.
Qed.

(** The trace of on_read_cb: the unprotect calls, the saved callback with
    the result of on_read, then the release of the reference of the
    read. *)
Lemma on_read_cb_trace fuel success w cb :
  read_buffer (ep w) = true ->
  read_cb (ep w) = Some cb ->
  let '(w', o) := on_read_cb fuel success w in
  exists cs,
    Forall (fun c => is_unprotect c = true) cs /\
    match o with
    | Returns _ =>
      exists r,
        trace w' = trace w ++ flat_map locked cs ++
                   EvClosure cb r :: unref_events (ref (ep w)) /\
        read_buffer (ep w') = false /\
        ref (ep w') = (ref (ep w) - 1)%Z /\
        freed w' = ((ref (ep w) =? 1)%Z || freed w) /\
        ((r = 1%Z /\ success <> 0%Z /\ Forall call_ok cs) \/
         (r = 0%Z /\ destination w' = [] /\
          ((success = 0%Z /\ cs = []) \/
           (success <> 0%Z /\
            exists pre c, cs = pre ++ [c] /\ Forall call_ok pre /\
                          tsi_ok (call_result c) = false))))
    | OutOfFuel => trace w' = trace w ++ flat_map locked cs
    | Aborted => False
    end.
Proof.
  intros Hrb Hcb. rewrite on_read_cb_eq.
  pose proof (on_read_calls fuel success w Hrb) as H.
  destruct (on_read fuel success w) as [w1 [r| |]].
  - destruct H as (cs & Ht & Hcs & Hk & Hr).
    destruct Hk as (_ & Hk2 & _ & _ & _ & _ & _ & Hk8 & Hk9).
    rewrite Hk2, Hcb. exists cs. split; [exact Hcs|]. exists r.
    match goal with |- context [after_unref ?x] =>
      pose proof (trace_after_unref x) as Htu;
      destruct (after_unref_fields x) as (_ & _ & Hu3 & Hu4 & Hu5 & Hu6 & _)
    end.
    cbn [ep ref freed trace read_buffer destination set_read_buffer] in *.
    split; [rewrite Htu, Ht, Hk8, <- !app_assoc; reflexivity|].
    split; [exact Hu3|]. split; [rewrite Hu5, Hk8; reflexivity|].
    split; [rewrite Hu6, Hk8, Hk9; reflexivity|].
    destruct Hr as [(-> & Hs & Hok & _)|(-> & Hd & Hcase)].
    + left. auto.
    + right. split; [reflexivity|]. split; [rewrite Hu4; exact Hd|].
      destruct Hcase as [(Hs & Hnil & _)|(Hs & _ & Hex)]; auto.
  - destruct H as (cs & Ht & Hcs & _). exists cs. auto.
  - destruct H as (cs & _ & _ & _ & []).
Qed.

(* ------------------------------------------------------------------ *)
(** ** Reads: leftover bytes, the transport, the callback              *)
(* ------------------------------------------------------------------ *)

(** X4: a read that finds leftover bytes (and, as in every session, an
    empty source list) is served from them alone: it never returns
    Pending and never stops at the assertion, its events are unprotect
    calls under the mutex and nothing else (no read of the wrapped
    transport, no reference taken or released, no callback), the wrapped
    endpoint, the count and the memory are as before, the leftover list
    is empty afterwards, and so is the source list once it returns. *)
Theorem leftover_read_is_synchronous fuel slices cb w :
  leftover_bytes (ep w) <> [] -> source_buffer (ep w) = [] ->
  let '(w', o) := endpoint_read fuel slices cb w in
  o <> Returns GRPC_ENDPOINT_PENDING /\ o <> Aborted /\
  trace_since w w' = flat_map locked (calls (trace_since w w')) /\
  Forall (fun c => is_unprotect c = true) (calls (trace_since w w')) /\
  wrapped_ep (ep w') = wrapped_ep (ep w) /\
  ref (ep w') = ref (ep w) /\ freed w' = freed w /\
  leftover_bytes (ep w') = [] /\
  (forall status, o = Returns status -> source_buffer (ep w') = []).
Proof.
  intros Hl Hsrc.
  pose proof (endpoint_read_trace fuel slices cb w) as H.
  destruct (endpoint_read fuel slices cb w) as [w' o].
  destruct H as (cs & Hcs & H).
  assert (Hlen : (length (leftover_bytes (ep w)) =? 0) = false).
  { apply Nat.eqb_neq. intros Hz. apply length_zero_iff_nil in Hz.
    contradiction. }
  rewrite Hlen in H.
  destruct H as (Ht & Hw & Hr & Hf & Hnp & Hrest).
  destruct (Hrest Hsrc) as (Hna & Hlo & Hso).
  rewrite (calls_of_run w w' cs Ht (Forall_is_unprotect_call _ Hcs)).
  rewrite (trace_since_app _ _ _ Ht).
  repeat split; auto.
Qed.

(** X5: a read that finds no leftover bytes takes a reference and reads
    the wrapped transport exactly once, before anything else.  It returns
    Pending exactly when the transport answers Pending, and then keeps
    the reference and does nothing more.  When the transport answers
    Error it returns Error without a single protector call and with an
    empty destination list.  Whenever it returns Done or Error the count
    is back to what it was. *)
Theorem transport_is_read_once fuel slices cb w :
  leftover_bytes (ep w) = [] ->
  let '(w', o) := endpoint_read fuel slices cb w in
  o <> Aborted /\
  (exists rest,
     trace_since w w' = EvRef :: EvWrappedRead (transport_answer w) :: rest /\
     Forall (fun e => is_wrapped_read e = false) rest) /\
  (o = Returns GRPC_ENDPOINT_PENDING <->
   transport_answer w = GRPC_ENDPOINT_PENDING) /\
  (o = Returns GRPC_ENDPOINT_PENDING ->
   trace_since w w' = [EvRef; EvWrappedRead GRPC_ENDPOINT_PENDING] /\
   ref (ep w') = (ref (ep w) + 1)%Z) /\
  (transport_answer w = GRPC_ENDPOINT_ERROR ->
   o = Returns GRPC_ENDPOINT_ERROR /\
   calls (trace_since w w') = [] /\ destination w' = []) /\
  (forall status,
     o = Returns status -> status <> GRPC_ENDPOINT_PENDING ->
     ref (ep w') = ref (ep w)).
Proof.
  intros Hl.
  pose proof (endpoint_read_trace fuel slices cb w) as H.
  pose proof (endpoint_read_summary fuel slices cb w) as Hsum.
  destruct (endpoint_read fuel slices cb w) as [w' o].
  destruct H as (cs & Hcs & H). rewrite Hl in H. cbn [length Nat.eqb] in H.
  destruct Hsum as ((h0 & cs0 & t0 & _ & _ & _ & _ & Hdst) & _).
  destruct o as [[| |]| |].
  - destruct H as (Hnp & Herr & Ht & Hr & _).
    split; [discriminate|].
    split.
    { exists (flat_map locked cs ++ unref_events (ref (ep w) + 1)).
      rewrite (trace_since_app _ _ _ Ht). split; [reflexivity|].
      apply Forall_app. split.
      - apply Forall_locked; [reflexivity|reflexivity|].
        revert Hcs. apply Forall_impl. intros [] ?; cbn in *; congruence.
      - unfold unref_events. destruct (_ =? 1)%Z; repeat constructor. }
    split; [split; [discriminate|contradiction]|].
    split; [discriminate|].
    split; [intros He; destruct (Herr He); discriminate|].
    intros status _ _. exact Hr.
  - destruct H as (Hans & -> & Ht & Hr & _).
    split; [discriminate|].
    split.
    { exists []. rewrite (trace_since_app _ _ _ Ht), Hans.
      split; [reflexivity|constructor]. }
    split; [split; auto|].
    split; [intros _; rewrite (trace_since_app _ _ _ Ht); auto|].
    split; [congruence|].
    intros status Heq Hn. congruence.
  - destruct H as (Hnp & Herr & Ht & Hr & _).
    split; [discriminate|].
    split.
    { exists (flat_map locked cs ++ unref_events (ref (ep w) + 1)).
      rewrite (trace_since_app _ _ _ Ht). split; [reflexivity|].
      apply Forall_app. split.
      - apply Forall_locked; [reflexivity|reflexivity|].
        revert Hcs. apply Forall_impl. intros [] ?; cbn in *; congruence.
      - unfold unref_events. destruct (_ =? 1)%Z; repeat constructor. }
    split; [split; [discriminate|contradiction]|].
    split; [discriminate|].
    split.
    { intros He. split; [reflexivity|].
      destruct (Herr He) as [-> _]. destruct Hdst as [Hd _].
      split; [|exact Hd].
      apply (calls_between w w'
               [EvRef; EvWrappedRead (transport_answer w)] []
               (unref_events (ref (ep w) + 1))).
      - exact Ht.
      - repeat constructor.
      - apply unref_events_quiet.
      - constructor. }
    intros status _ _. exact Hr.
  - destruct H as (Hans & Ht).
    split; [discriminate|].
    split.
    { exists (flat_map locked cs).
      rewrite (trace_since_app _ _ _ Ht), Hans. split; [reflexivity|].
      apply Forall_locked; [reflexivity|reflexivity|].
      revert Hcs. apply Forall_impl. intros [] ?; cbn in *; congruence. }
    split; [split; [discriminate|congruence]|].
    split; [discriminate|].
    split; [congruence|]. discriminate.
  - contradiction.
Qed.

(** X6: when the pending read completes, on_read_cb makes the unprotect
    calls, then invokes the saved callback once, and only then releases
    the reference of the read (so the endpoint can be torn down only
    after the callback); it leaves the destination pointer cleared.
    The callback is told 1 exactly when the transport succeeded and
    every unprotect call succeeded; it is told 0, with an empty
    destination list, after a transport error (no unprotect call made)
    or after a failed unprotect call (the last call made). *)
Theorem read_callback_reports_the_result fuel success w cb :
  read_buffer (ep w) = true -> read_cb (ep w) = Some cb ->
  let '(w', o) := on_read_cb fuel success w in
  o = Returns tt ->
  exists cs r,
    Forall (fun c => is_unprotect c = true) cs /\
    trace_since w w' =
      flat_map locked cs ++ EvClosure cb r :: unref_events (ref (ep w)) /\
    read_buffer (ep w') = false /\
    freed w' = ((ref (ep w) =? 1)%Z || freed w) /\
    ((r = 1%Z /\ success <> 0%Z /\ Forall call_ok cs) \/
     (r = 0%Z /\ destination w' = [] /\
      ((success = 0%Z /\ cs = []) \/
       (success <> 0%Z /\
        exists pre c, cs = pre ++ [c] /\ Forall call_ok pre /\
                      tsi_ok (call_result c) = false)))).
Proof.
  intros Hrb Hcb.
  pose proof (on_read_cb_trace fuel success w cb Hrb Hcb) as H.
  destruct (on_read_cb fuel success w) as [w' o].
  intros ->. destruct H as (cs & Hcs & r & Ht & Hrb' & _ & Hf & Hr).
  exists cs, r. split; [exact Hcs|].
  rewrite (trace_since_app _ _ _ Ht). auto.
Qed.

(** X7: the two directions work on disjoint parts of the endpoint.
    endpoint_write leaves the source list, the leftover list, the read
    staging buffer, the destination list and pointer and the saved read
    callback as they are; on_read leaves the write staging buffer, the
    output list, the wrapped endpoint, the count and the memory as they
    are.  What both may change is the protector and its mutex. *)
Theorem directions_work_on_disjoint_state fuel :
  (forall slices cb w,
     let '(w', _) := endpoint_write fuel slices cb w in
     source_buffer (ep w') = source_buffer (ep w) /\
     leftover_bytes (ep w') = leftover_bytes (ep w) /\
     read_staging_buffer (ep w') = read_staging_buffer (ep w) /\
     destination w' = destination w /\
     read_buffer (ep w') = read_buffer (ep w) /\
     read_cb (ep w') = read_cb (ep w)) /\
  (forall success w,
     read_buffer (ep w) = true ->
     let '(w', _) := on_read fuel success w in
     write_staging_buffer (ep w') = write_staging_buffer (ep w) /\
     output_buffer (ep w') = output_buffer (ep w) /\
     wrapped_ep (ep w') = wrapped_ep (ep w) /\
     write_cb (ep w') = write_cb (ep w) /\
     ref (ep w') = ref (ep w) /\
     freed w' = freed w).
Proof.
  split.
  - intros slices cb w.
    pose proof (endpoint_write_summary fuel slices cb w) as H.
    destruct (endpoint_write fuel slices cb w) as [w' o].
    destruct H as (_ & H1 & _ & H3 & H4 & H5 & H6 & H7 & _).
    repeat split; assumption.
  - intros success w Hrb.
    pose proof (on_read_calls fuel success w Hrb) as H.
    destruct (on_read fuel success w) as [w' o].
    destruct H as (cs & _ & _ & Hk & _).
    destruct Hk as (H1 & _ & H3 & _ & _ & H6 & H7 & H8 & H9).
    repeat split; assumption.
Qed.

(* ------------------------------------------------------------------ *)
(** ** Empty input                                                     *)
(* ------------------------------------------------------------------ *)

Lemma bytes_of_nil_inv slices :
  bytes_of slices = [] -> Forall (fun s => s = []) slices.
Proof.
  induction slices as [|s rest IH]; intros H; [constructor|].
  unfold bytes_of in H. cbn in H. apply app_eq_nil in H as [Hs Hr].
  constructor; [exact Hs|apply IH, Hr].
Qed.

Lemma endpoint_write_for_empty fuel slices : forall cur end_ res w,
  Forall (fun s => s = []) slices -> tsi_ok res = true ->
  endpoint_write_for fuel slices cur end_ res w =
  (w, Returns (cur, end_, res)).
Proof.
  induction slices as [|s rest IH]; intros cur end_ res w Hall Hres;
    [reflexivity|].
  inversion Hall as [|s' rest' Hs Hrest]; subst.
  cbn [endpoint_write_for]. unfold bind.
  rewrite endpoint_write_while_nil, Hres. cbn [negb].
  apply IH; assumption.
Qed.

Lemma on_read_for_empty fuel slices : forall cur end_ res w,
  Forall (fun s => s = []) slices -> tsi_ok res = true ->
  on_read_for fuel slices cur end_ false res w =
  (w, Returns (cur, end_, false, res)).
Proof.
  induction slices as [|s rest IH]; intros cur end_ res w Hall Hres;
    [reflexivity|].
  inversion Hall as [|s' rest' Hs Hrest]; subst.
  cbn [on_read_for]. unfold bind.
  rewrite on_read_while_nil, Hres. cbn [negb].
  apply IH; assumption.
Qed.

Lemma endpoint_write_while_inputs fuel : forall msg cur end_ res w,
  let '(w', _) := endpoint_write_while fuel msg cur end_ res w in
  exists cs,
    trace w' = trace w ++ flat_map locked cs /\
    Forall (fun c => is_protect c = true /\ 0 < message_size_of c) cs.
Proof.
  induction fuel as [|fuel IH]; intros msg cur end_ res w.
  - cbn [endpoint_write_while].
    destruct (0 <? length msg); exists []; cbn; rewrite app_nil_r;
      split; constructor.
  - rewrite endpoint_write_while_eq.
    destruct (0 <? length msg) eqn:Hm;
      [|exists []; cbn; rewrite app_nil_r; split; constructor].
    cbv zeta. apply Nat.ltb_lt in Hm. unfold after_protect.
    destruct (tsi_protect (protector (ep w)) msg (end_ - cur))
      as [[[r p] n] out].
    set (c := EvProtect (length msg) (end_ - cur) r n (length out)).
    assert (Hc : is_protect c = true /\ 0 < message_size_of c)
      by (cbn; auto).
    match goal with
    | |- context [sealed_write ?w0] => set (w1 := w0)
    end.
    destruct (negb (tsi_ok r)).
    + exists [c]. cbn [flat_map app]. rewrite app_nil_r.
      split; [reflexivity|]. constructor; [exact Hc|constructor].
    + destruct (cur + length out =? end_);
        match goal with
        | |- context [endpoint_write_while fuel ?m ?a ?b ?d ?x] =>
          specialize (IH m a b d x);
          destruct (endpoint_write_while fuel m a b d x) as [w' o]
        end;
        destruct IH as (cs & Ht & Hcs);
        exists (c :: cs); cbn [flat_map];
        (split; [rewrite Ht; cbn; rewrite <- !app_assoc; reflexivity|]);
        constructor; assumption.
Qed.

Lemma endpoint_write_for_inputs fuel slices : forall cur end_ res w,
  let '(w', _) := endpoint_write_for fuel slices cur end_ res w in
  exists cs,
    trace w' = trace w ++ flat_map locked cs /\
    Forall (fun c => is_protect c = true /\ 0 < message_size_of c) cs.
Proof.
  induction slices as [|plain rest IH]; intros cur end_ res w.
  - cbn. exists []. cbn. rewrite app_nil_r. split; constructor.
  - cbn [endpoint_write_for]; unfold bind.
    pose proof (endpoint_write_while_inputs fuel plain cur end_ res w) as Hw.
    destruct (endpoint_write_while fuel plain cur end_ res w)
      as [w1 [[[cur1 end1] r1]| |]]; try exact Hw.
    destruct Hw as (cs & Ht & Hcs).
    destruct (negb (tsi_ok r1)); unfold ret.
    + exists cs. auto.
    + specialize (IH cur1 end1 r1 w1).
      destruct (endpoint_write_for fuel rest cur1 end1 r1 w1) as [w' o].
      destruct IH as (cs' & Ht' & Hcs').
      exists (cs ++ cs'). rewrite flat_map_app, Ht', Ht, <- app_assoc.
      split; [reflexivity|apply Forall_app; split; assumption].
Qed.

(** X8: empty input.  No write ever hands protect an empty input: every
    protect call of endpoint_write is given at least one byte.  A write
    of no bytes (no slice, or empty slices only) therefore makes no
    protect call: its protector calls are flush calls, at least one.  A
    completed read whose source list holds no bytes makes no unprotect
    call at all, whatever the fuel, and succeeds: it returns 1, leaves
    the destination list and the read staging buffer as they are and
    empties the source list. *)
Theorem empty_input_makes_no_data_call fuel :
  (forall slices cb w,
     let '(w', o) := endpoint_write fuel slices cb w in
     Forall (fun c => is_protect c = true -> 0 < message_size_of c)
            (calls (trace_since w w'))) /\
  (forall slices cb w,
     bytes_of slices = [] ->
     let '(w', o) := endpoint_write fuel slices cb w in
     calls (trace_since w w') <> [] /\
     Forall (fun c => is_protect_flush c = true) (calls (trace_since w w'))) /\
  (forall success w,
     read_buffer (ep w) = true -> success <> 0%Z ->
     bytes_of (source_buffer (ep w)) = [] ->
     exists w',
       on_read fuel success w = (w', Returns 1%Z) /\
       trace w' = trace w /\
       destination w' = destination w /\
       read_staging_buffer (ep w') = read_staging_buffer (ep w) /\
       source_buffer (ep w') = []).
Proof.
  split; [|split].
  - intros slices cb w. rewrite endpoint_write_eq.
    pose proof (endpoint_write_for_inputs fuel slices 0
                  (length (write_staging_buffer (ep w))) TSI_OK
                  (reset_output w)) as Hfor.
    destruct (endpoint_write_for fuel slices 0
                (length (write_staging_buffer (ep w))) TSI_OK
                (reset_output w)) as [w1 o1].
    destruct Hfor as (cs & Ht & Hcs). cbn [reset_output trace] in Ht.
    assert (Hcall : Forall (fun c => is_call c = true) cs).
    { revert Hcs. apply Forall_impl. intros c [Hp _].
      destruct c; cbn in *; congruence. }
    assert (Hin : Forall (fun c => is_protect c = true -> 0 < message_size_of c)
                         cs).
    { revert Hcs. apply Forall_impl. intros c [_ Hm] _. exact Hm. }
    assert (Hstop : forall w',
              trace w' = trace w ++ flat_map locked cs ->
              Forall (fun c => is_protect c = true -> 0 < message_size_of c)
                     (calls (trace_since w w'))).
    { intros w' Ht'. rewrite (calls_of_run w w' cs Ht' Hcall). exact Hin. }
    destruct o1 as [[[cur end_] result]| |]; try (apply Hstop; exact Ht).
    destruct (tsi_ok result);
      [|apply Hstop; cbn [reset_output trace]; exact Ht].
    pose proof (endpoint_write_flush_summary fuel cur end_ w1) as Hfl.
    destruct (endpoint_write_flush fuel cur end_ w1) as [w2 o2].
    destruct Hfl as (_ & pre & c & Ht2 & Hpre & Hc & Ho).
    assert (Hfl : Forall (fun e => is_protect_flush e = true) (pre ++ [c])).
    { apply Forall_app. split; [|repeat constructor; exact Hc].
      revert Hpre. apply Forall_impl. intros e (He & _). exact He. }
    assert (Hall : Forall (fun c => is_call c = true) (cs ++ pre ++ [c]) /\
                   Forall (fun c => is_protect c = true ->
                                    0 < message_size_of c)
                          (cs ++ pre ++ [c])).
    { split; apply Forall_app; split; auto.
      - revert Hfl. apply Forall_impl. apply is_protect_flush_call.
      - revert Hfl. apply Forall_impl. intros [] ? ?; cbn in *; congruence. }
    destruct Hall as [Ha1 Ha2].
    assert (Ht3 : trace w2 = trace w ++ flat_map locked (cs ++ pre ++ [c]))
      by (rewrite Ht2, Ht, (flat_map_app _ cs), <- app_assoc; reflexivity).
    destruct o2 as [[[cur2 end2] r2]| |];
      [|rewrite (calls_of_run w w2 _ Ht3 Ha1); exact Ha2|contradiction].
    cbv zeta. destruct (tsi_ok r2).
    + rewrite (calls_between w _ [] (cs ++ pre ++ [c])
                 [EvWrappedWrite
                    (output_buffer (ep (write_split w2 cur2))) cb
                    (snd (wrapped_write
                            (wrapped_ep (ep (write_split w2 cur2)))
                            (output_buffer (ep (write_split w2 cur2)))
                            cb))]); auto.
      * cbn [after_wrapped_write trace app].
        rewrite trace_write_split, Ht3, <- app_assoc. reflexivity.
      * repeat constructor.
    + rewrite (calls_of_run w _ (cs ++ pre ++ [c])); auto.
      cbn [reset_output trace]. rewrite trace_write_split. exact Ht3.
  - intros slices cb w Hnil. rewrite endpoint_write_eq.
    rewrite (endpoint_write_for_empty fuel slices _ _ TSI_OK _
               (bytes_of_nil_inv _ Hnil) eq_refl).
    cbn [tsi_ok].
    pose proof (endpoint_write_flush_summary fuel 0
                  (length (write_staging_buffer (ep w))) (reset_output w))
      as H.
    destruct (endpoint_write_flush fuel 0
                (length (write_staging_buffer (ep w))) (reset_output w))
      as [w2 o2].
    destruct H as (_ & pre & c & Ht & Hpre & Hc & Ho).
    cbn [reset_output trace] in Ht.
    assert (Hfl : Forall (fun e => is_protect_flush e = true) (pre ++ [c])).
    { apply Forall_app. split; [|repeat constructor; exact Hc].
      revert Hpre. apply Forall_impl. intros e (He & _). exact He. }
    assert (Hcall : Forall (fun e => is_call e = true) (pre ++ [c])).
    { revert Hfl. apply Forall_impl. apply is_protect_flush_call. }
    assert (Hne : pre ++ [c] <> []) by (destruct pre; discriminate).
    destruct o2 as [[[cur2 end2] r2]| |]; [|
      rewrite (calls_of_run w w2 _ Ht Hcall); auto|contradiction].
    cbv zeta. destruct (tsi_ok r2).
    + rewrite (calls_between w _ [] (pre ++ [c])
                 [EvWrappedWrite
                    (output_buffer (ep (write_split w2 cur2))) cb
                    (snd (wrapped_write
                            (wrapped_ep (ep (write_split w2 cur2)))
                            (output_buffer (ep (write_split w2 cur2)))
                            cb))]); auto.
      * cbn [after_wrapped_write trace app].
        rewrite trace_write_split, Ht, <- app_assoc. reflexivity.
      * repeat constructor.
    + rewrite (calls_of_run w _ (pre ++ [c])); auto.
      cbn [reset_output trace]. rewrite trace_write_split. exact Ht.
  - intros success w Hrb Hs Hnil. rewrite on_read_eq by exact Hrb.
    apply Z.eqb_neq in Hs. rewrite Hs.
    rewrite (on_read_for_empty fuel _ _ _ TSI_OK _ (bytes_of_nil_inv _ Hnil)
               eq_refl).
    cbn [tsi_ok]. eexists. split; [reflexivity|]. cbn. auto.
Qed.

(* ------------------------------------------------------------------ *)
(** ** Tearing the endpoint down                                       *)
(* ------------------------------------------------------------------ *)

Lemma teardown_inv_extend w w' evs :
  trace w' = trace w ++ evs ->
  filter is_teardown evs = [] ->
  freed w' = freed w ->
  teardown_inv w -> teardown_inv w'.
Proof.
  unfold teardown_inv. intros Ht He Hf H.
  rewrite Ht, filter_app, He, app_nil_r, Hf. exact H.
Qed.

Lemma teardown_quiet_calls cs :
  Forall (fun c => is_unprotect c = true) cs ->
  filter is_teardown (flat_map locked cs) = [].
Proof.
  intros H. apply teardown_locked, Forall_is_unprotect_call, H.
Qed.

Lemma teardown_inv_unref w w' evs :
  trace w' = trace w ++ evs ++ unref_events (ref (ep w)) ->
  filter is_teardown evs = [] ->
  freed w' = ((ref (ep w) =? 1)%Z || freed w) ->
  freed w = false ->
  teardown_inv w -> teardown_inv w'.
Proof.
  unfold teardown_inv. intros Ht He Hf Hfr H.
  rewrite Ht, !filter_app, He, teardown_unref_events, H, Hf, Hfr.
  cbn. rewrite orb_false_r. reflexivity.
Qed.

Lemma api_step_teardown_inv fuel s c s' :
  session_inv s -> teardown_inv (sw s) ->
  api_step fuel s c = Some s' ->
  teardown_inv (sw s').
Proof.
  intros (Href & Hfr & Hpend & _) Hinv Hstep.
  destruct c as [slices cb|slices cb| | |received success];
    cbn [api_step] in Hstep.
  - destruct (read_pending s) eqn:Hp; [discriminate|].
    destruct (destroy_called s) eqn:Hd; [discriminate|].
    cbn [orb] in Hstep. cbn in Href.
    pose proof (endpoint_read_trace fuel slices cb (sw s)) as H.
    destruct (endpoint_read fuel slices cb (sw s)) as [w' [status| |]];
      try discriminate.
    inversion Hstep; subst s'; clear Hstep. cbn [sw].
    destruct H as (cs & Hcs & H).
    destruct (length (leftover_bytes (ep (sw s))) =? 0).
    + assert (Hdone :
        trace w' = trace (sw s) ++
                   [EvRef; EvWrappedRead (transport_answer (sw s))] ++
                   flat_map locked cs ++
                   unref_events (ref (ep (sw s)) + 1) ->
        (ref (ep (sw s)) <> 0%Z -> freed w' = freed (sw s)) ->
        teardown_inv w').
      { intros Ht Hf. eapply teardown_inv_extend; [exact Ht| |
          apply Hf; rewrite Href; discriminate|exact Hinv].
        rewrite !filter_app, (teardown_quiet_calls _ Hcs),
          teardown_unref_events, Href. reflexivity. }
      destruct status.
      * destruct H as (_ & _ & Ht & _ & Hf). auto.
      * destruct H as (_ & _ & Ht & _ & Hf).
        eapply teardown_inv_extend; [exact Ht|reflexivity|exact Hf|
                                     exact Hinv].
      * destruct H as (_ & _ & Ht & _ & Hf). auto.
    + destruct H as (Ht & _ & _ & Hf & _).
      eapply teardown_inv_extend; [exact Ht| |exact Hf|exact Hinv].
      apply teardown_quiet_calls, Hcs.
  - destruct (destroy_called s) eqn:Hd; [discriminate|].
    pose proof (endpoint_write_summary fuel slices cb (sw s)) as H.
    destruct (endpoint_write fuel slices cb (sw s)) as [w' [status| |]];
      try discriminate.
    inversion Hstep; subst s'; clear Hstep. cbn [sw].
    destruct H as (Hrun & _ & _ & _ & _ & _ & _ & _ & _ & Hf).
    inversion Hrun as [ps pre c st Hps Hpok Hpre Hc Ht
                      |pre c Hpre Hok Hc Hcf Ht Hout Hw|].
    + eapply teardown_inv_extend; [exact Ht| |exact Hf|exact Hinv].
      rewrite filter_app, teardown_locked; [reflexivity|].
      apply Forall_app. split; [apply Forall_is_protect_call, Hps|].
      apply Forall_app. split;
        [apply (proj1 (Forall_flush_again_call _ Hpre))|].
      constructor; [|constructor].
      apply is_protect_flush_call, Hc.
    + eapply teardown_inv_extend; [exact Ht| |exact Hf|exact Hinv].
      apply teardown_locked. apply Forall_app. split; [exact Hpre|].
      constructor; [exact Hc|constructor].
  - destruct (destroy_called s) eqn:Hd; [discriminate|].
    inversion Hstep; subst s'; clear Hstep. cbn [sw].
    eapply teardown_inv_extend; [reflexivity|reflexivity|reflexivity|
                                 exact Hinv].
  - destruct (destroy_called s) eqn:Hd; [discriminate|].
    inversion Hstep; subst s'; clear Hstep. cbn [sw].
    unfold endpoint_destroy. rewrite secure_endpoint_unref_eq. cbn [fst].
    destruct (after_unref_fields (sw s)) as (_ & _ & _ & _ & _ & Hu6 & _).
    apply (teardown_inv_unref (sw s) _ []); auto.
    + apply trace_after_unref.
    + rewrite Hfr, Href. destruct (read_pending s); reflexivity.
  - destruct (read_pending s) eqn:Hp; [|discriminate].
    destruct (Hpend eq_refl) as (Hrb & (cb & Hcb) & _).
    pose proof (on_read_cb_trace fuel success
                  (transport_delivers received (sw s)) cb Hrb Hcb) as H.
    destruct (on_read_cb fuel success (transport_delivers received (sw s)))
      as [w' [[]| |]]; try discriminate.
    inversion Hstep; subst s'; clear Hstep. cbn [sw].
    destruct H as (cs & Hcs & r & Ht & _ & _ & Hf & _).
    cbn [transport_delivers trace ep ref freed set_source_buffer] in Ht, Hf.
    apply (teardown_inv_unref (sw s) _
             (flat_map locked cs ++ [EvClosure cb r])); auto.
    + rewrite Ht, <- !app_assoc. reflexivity.
    + rewrite filter_app, (teardown_quiet_calls _ Hcs). reflexivity.
    + rewrite Hfr, Href. destruct (destroy_called s); reflexivity.
Qed.

(** X9: along every session that starts at grpc_secure_endpoint_create,
    the endpoint is torn down at most once: the events of destroy (the
    wrapped endpoint destroyed, the protector destroyed, the mutex
    destroyed, the memory freed) are in the trace exactly when the
    endpoint is freed, then once each and in this order; and the
    endpoint is freed exactly when destroy has been called and no read
    is pending. *)
Theorem endpoint_is_torn_down_once fuel p t leftover cs s :
  api_run fuel (api_create p t leftover) cs = Some s ->
  filter is_teardown (trace (sw s)) =
    (if freed (sw s)
     then [EvWrappedDestroy; EvProtectorDestroy; EvMuDestroy; EvFree]
     else []) /\
  freed (sw s) = destroy_called s && negb (read_pending s).
Proof.
  assert (Hrun : forall cs s0 s1,
            session_inv s0 -> teardown_inv (sw s0) ->
            api_run fuel s0 cs = Some s1 ->
            session_inv s1 /\ teardown_inv (sw s1)).
  { clear cs s. induction cs as [|c cs IH]; intros s0 s1 Hs Hst Hrun;
      cbn in Hrun.
    - inversion Hrun; subst; auto.
    - destruct (api_step fuel s0 c) as [s2|] eqn:Hstep; [|discriminate].
      destruct (api_step_inv _ _ _ _ Hs Hstep) as [Hs2 _].
      apply (IH s2 s1 Hs2); [|exact Hrun].
      apply (api_step_teardown_inv fuel s0 c s2 Hs Hst Hstep). }
  intros H.
  destruct (Hrun cs _ s (session_inv_create p t leftover) eq_refl H)
    as [(Href & Hfr & _) Hinv].
  split; [exact Hinv|].
  rewrite Hfr, Href.
  destruct (destroy_called s), (read_pending s); reflexivity.
Qed.

(* ------------------------------------------------------------------ *)
(** ** Assertions                                                      *)
(* ------------------------------------------------------------------ *)

(** X13: in every session that starts at grpc_secure_endpoint_create and
    follows the endpoint contract, no call stops at an assertion or at a
    NULL pointer: the two GPR_ASSERT of endpoint_read hold, and the
    destination pointer and the saved callback are set whenever on_read
    and call_read_cb go through them.  This holds for a read issued while
    none is pending and before destroy, for a write, and for the
    completion of the pending read, whatever the transport delivers. *)
Theorem assertions_never_fail fuel p t leftover cs s :
  api_run fuel (api_create p t leftover) cs = Some s ->
  (forall slices cb,
     read_pending s = false -> destroy_called s = false ->
     snd (endpoint_read fuel slices cb (sw s)) <> Aborted) /\
  (forall slices cb,
     snd (endpoint_write fuel slices cb (sw s)) <> Aborted) /\
  (forall received success,
     read_pending s = true ->
     snd (on_read_cb fuel success (transport_delivers received (sw s)))
       <> Aborted).
Proof.
  intros Hrun.
  destruct (api_run_inv fuel cs _ _ (session_inv_create p t leftover) Hrun)
    as [(_ & _ & Hpend & Hlo) _].
  split; [|split].
  - intros slices cb _ _.
    pose proof (endpoint_read_summary fuel slices cb (sw s)) as H.
    destruct (endpoint_read fuel slices cb (sw s)) as [w' o].
    destruct H as (_ & _ & _ & Hl & _). cbn. apply (Hl Hlo).
  - intros slices cb.
    pose proof (endpoint_write_summary fuel slices cb (sw s)) as H.
    destruct (endpoint_write fuel slices cb (sw s)) as [w' o].
    destruct H as [Hw _]. cbn. inversion Hw; discriminate.
  - intros received success Hp.
    destruct (Hpend Hp) as (Hrb & (cb & Hcb) & _).
    pose proof (on_read_cb_summary fuel success
                  (transport_delivers received (sw s)) cb Hrb Hcb) as H.
    destruct (on_read_cb fuel success (transport_delivers received (sw s)))
      as [w' o].
    cbn. destruct H as (cs' & _ & _ & Ho). intros ->. exact Ho.
Qed.

(* ------------------------------------------------------------------ *)
(** ** Matching protectors: leftover bytes and deliveries in pieces    *)
(* ------------------------------------------------------------------ *)

Lemma leftover_bytes_create p t leftover :
  leftover_bytes (ep (grpc_secure_endpoint_create p t leftover)) = leftover.
Proof.
  cbn. change leftover with ([] ++ leftover) at 2.
  generalize (@nil gpr_slice) as acc.
  induction leftover as [|s rest IH]; intros acc; cbn.
  - rewrite app_nil_r. reflexivity.
  - rewrite IH. unfold gpr_slice_buffer_add. rewrite <- app_assoc.
    reflexivity.
Qed.

Section Pieces.

Variable MP : matching_protectors PV.
Hypothesis capacity_positive : 0 < STAGING_BUFFER_SIZE.

(** on_read on a source list that holds only the first part of what is
    in flight: it delivers the front of the queue and leaves the
    protector ready for the rest. *)
Lemma on_read_partial w s wire q :
  0 < length (read_staging_buffer (ep w)) ->
  read_buffer (ep w) = true ->
  in_flight MP s (bytes_of (source_buffer (ep w)) ++ wire)
    (protector (ep w)) q ->
  drained MP (protector (ep w)) ->
  exists fuel0 w' q',
    (forall fuel, fuel0 <= fuel ->
       on_read fuel 1 w = (w', Returns 1%Z)) /\
    bytes_of (destination w') ++ q' = bytes_of (destination w) ++ q /\
    in_flight MP s wire (protector (ep w')) q' /\
    drained MP (protector (ep w')) /\
    0 < length (read_staging_buffer (ep w')) /\
    read_buffer (ep w') = true.
Proof.
  intros Hlen Hrb Hin Hdr.
  assert (Hok0 : read_cursor_ok w 0 (length (read_staging_buffer (ep w))))
    by (split; [reflexivity|split; [exact Hlen|exact Hrb]]).
  destruct (on_read_for_total MP capacity_positive (source_buffer (ep w)) q
              w 0 (length (read_staging_buffer (ep w))) s wire Hok0 Hin Hdr)
    as (f1 & w1 & cur1 & end1 & q1 & H1 & (Hl1 & Hlt1 & Hrb1) & Hpl & Hin1 &
        Hdr1).
  exists f1, (on_read_finish w1 cur1 TSI_OK), q1.
  assert (Hp : protector (ep (on_read_finish w1 cur1 TSI_OK)) =
               protector (ep w1))
    by (unfold on_read_finish; cbn; destruct (cur1 =? 0); reflexivity).
  split; [|split; [|split; [|split; [|split]]]].
  - intros fuel Hge. rewrite on_read_eq by exact Hrb.
    cbn [Z.eqb]. rewrite H1 by exact Hge. reflexivity.
  - rewrite bytes_of_on_read_finish, Hpl.
    unfold plain_of. cbn [firstn]. rewrite app_nil_r. reflexivity.
  - rewrite Hp. exact Hin1.
  - rewrite Hp. exact Hdr1.
  - unfold on_read_finish. cbn. destruct (cur1 =? 0); cbn; [lia|].
    rewrite length_skipn. lia.
  - unfold on_read_finish. cbn. destruct (cur1 =? 0); cbn; exact Hrb1.
Qed.

(** X10: the ciphertext of a write may reach the reader in two
    deliveries.  With matching protector instances and a positive
    staging capacity, the write returns once it has enough fuel; however
    its ciphertext is cut in two source lists, on_read on the first one
    succeeds, and on_read on the second one (run on any endpoint state
    that has the protector and the read staging buffer the first run
    left, a set destination pointer and an empty destination list, as
    after the callback and the next endpoint_read) succeeds too; the
    bytes of the two destination lists, in order, are the plaintext. *)
Theorem ciphertext_may_arrive_in_pieces (wS wR : world) slices cb :
  0 < length (write_staging_buffer (ep wS)) ->
  0 < length (read_staging_buffer (ep wR)) ->
  read_buffer (ep wR) = true ->
  destination wR = [] ->
  in_flight MP (protector (ep wS)) [] (protector (ep wR)) [] ->
  drained MP (protector (ep wR)) ->
  exists fuel0 wS' status,
    (forall fuel, fuel0 <= fuel ->
       endpoint_write fuel slices cb wS = (wS', Returns status)) /\
    forall src1 src2,
      bytes_of src1 ++ bytes_of src2 = bytes_of (output_buffer (ep wS')) ->
      exists fuel1 wR1,
        (forall fuel, fuel1 <= fuel ->
           on_read fuel 1 (transport_delivers src1 wR) =
             (wR1, Returns 1%Z)) /\
        forall wR1',
          protector (ep wR1') = protector (ep wR1) ->
          read_staging_buffer (ep wR1') = read_staging_buffer (ep wR1) ->
          read_buffer (ep wR1') = true ->
          destination wR1' = [] ->
          exists fuel2 wR2,
            (forall fuel, fuel2 <= fuel ->
               on_read fuel 1 (transport_delivers src2 wR1') =
                 (wR2, Returns 1%Z)) /\
            bytes_of (destination wR1) ++ bytes_of (destination wR2) =
              bytes_of slices.
Proof.
  intros HlenS HlenR Hrb Hdst Hin Hdr.
  destruct (endpoint_write_total MP capacity_positive slices cb wS
              (protector (ep wR)) HlenS Hin)
    as (f0 & wS' & status & Hw & _ & Hfl & Hin').
  exists f0, wS', status. split; [exact Hw|].
  intros src1 src2 Hsrc. rewrite <- Hsrc in Hin'.
  destruct (on_read_partial (transport_delivers src1 wR)
              (protector (ep wS')) (bytes_of src2) (bytes_of slices)
              HlenR Hrb Hin' Hdr)
    as (f1 & wR1 & q1 & H1 & Hpl1 & Hin1 & Hdr1 & Hlen1 & Hrb1).
  cbn [transport_delivers destination] in Hpl1.
  rewrite Hdst in Hpl1. cbn in Hpl1.
  exists f1, wR1. split; [exact H1|].
  intros wR1' Hp Hs Hrb' Hd'.
  destruct (on_read_total MP capacity_positive (transport_delivers src2 wR1')
              (protector (ep wS')) q1)
    as (f2 & wR2 & H2 & Hpl2).
  - cbn. rewrite Hs. exact Hlen1.
  - exact Hrb'.
  - cbn. rewrite Hp. exact Hin1.
  - exact Hfl.
  - cbn. rewrite Hp. exact Hdr1.
  - exists f2, wR2. split; [exact H2|].
    cbn [transport_delivers destination] in Hpl2.
    rewrite Hd' in Hpl2. cbn in Hpl2. rewrite Hpl2. exact Hpl1.
Qed.

(** X11: bytes left over from the handshake.  With matching protector
    instances and a positive staging capacity, let the ciphertext of a
    write be handed to grpc_secure_endpoint_create as leftover slices
    (at least one slice): the first endpoint_read on the new endpoint
    returns Done once it has enough fuel, its destination list holds the
    plaintext, and the wrapped transport has not been touched. *)
Theorem leftover_slices_are_read_first (wS : world) slices cb pR :
  0 < length (write_staging_buffer (ep wS)) ->
  in_flight MP (protector (ep wS)) [] pR [] ->
  drained MP pR ->
  exists fuel0 wS' status,
    (forall fuel, fuel0 <= fuel ->
       endpoint_write fuel slices cb wS = (wS', Returns status)) /\
    forall leftover t dst cb',
      leftover <> [] ->
      bytes_of leftover = bytes_of (output_buffer (ep wS')) ->
      exists fuel1 wR',
        (forall fuel, fuel1 <= fuel ->
           endpoint_read fuel dst cb'
             (grpc_secure_endpoint_create pR t leftover) =
             (wR', Returns GRPC_ENDPOINT_DONE)) /\
        bytes_of (destination wR') = bytes_of slices /\
        wrapped_ep (ep wR') = t /\
        leftover_bytes (ep wR') = [].
Proof.
  intros HlenS Hin Hdr.
  destruct (endpoint_write_total MP capacity_positive slices cb wS pR
              HlenS Hin)
    as (f0 & wS' & status & Hw & _ & Hfl & Hin').
  exists f0, wS', status. split; [exact Hw|].
  intros leftover t dst cb' Hne Hbytes. rewrite <- Hbytes in Hin'.
  set (w := grpc_secure_endpoint_create pR t leftover).
  set (w0 := swapped (read_started w cb')).
  assert (Hsrc : source_buffer (ep w0) = leftover)
    by (unfold w0, w; cbn; apply (leftover_bytes_create pR t leftover)).
  destruct (on_read_total MP capacity_positive w0 (protector (ep wS'))
              (bytes_of slices))
    as (f1 & wR' & H1 & Hpl).
  - cbn. rewrite gpr_slice_malloc_length. exact capacity_positive.
  - reflexivity.
  - rewrite Hsrc. exact Hin'.
  - exact Hfl.
  - exact Hdr.
  - exists f1, wR'.
    assert (Hrun : forall fuel, f1 <= fuel ->
              endpoint_read fuel dst cb' w =
              (wR', Returns GRPC_ENDPOINT_DONE)).
    { intros fuel Hge. rewrite endpoint_read_eq. cbv zeta.
      assert (Hlo : leftover_bytes (ep w) = leftover)
        by apply leftover_bytes_create.
      assert (Hsb : source_buffer (ep w) = []) by reflexivity.
      rewrite Hlo, Hsb.
      destruct leftover as [|l0 rest]; [contradiction|].
      cbn [length Nat.eqb negb].
      change (swapped (read_started w cb')) with w0.
      rewrite (H1 fuel Hge). reflexivity. }
    split; [exact Hrun|]. split; [exact Hpl|].
    pose proof (on_read_calls f1 1 w0 eq_refl) as Hc.
    rewrite (H1 f1 (Nat.le_refl _)) in Hc.
    destruct Hc as (cs & _ & _ & Hk & _).
    destruct Hk as (Hk1 & _ & _ & _ & Hk5 & _).
    split; [rewrite Hk1; reflexivity|rewrite Hk5; reflexivity].
Qed.

End Pieces.

End Endpoint.

(* ================================================================== *)
(** * Concrete runs                                                    *)
(* ================================================================== *)

(** A write of two bytes through a protector whose second protect call
    fails: the result is Error, the output list is empty and nothing
    reached the wrapped write. *)
Lemma crypto_failure_isolation_witness :
  let w := grpc_secure_endpoint_create 4 second_protect_fails
             pending_transport [] in
  let '(w', o) := endpoint_write 4 10 [[Byte.x01; Byte.x02]] 7 w in
  o = Returns GRPC_ENDPOINT_ERROR /\
  output_buffer (ep w') = [] /\
  Forall (fun e => is_wrapped_write e = false) (trace_since w w') /\
  wrapped_ep (ep w') = wrapped_ep (ep w) /\
  length (calls (trace_since w w')) = 2.
Proof.
  pose proof (crypto_failure_isolation (PV := scripted_protector_vtable)
                (TV := scripted_transport_vtable) 4 10 1
                (EvProtect 1 3 (CryptoFailure 3) 0 0) eq_refl)
    as (_ & _ & H).
  specialize (H [[Byte.x01; Byte.x02]] 7
                (grpc_secure_endpoint_create 4 second_protect_fails
                   pending_transport [])).
  cbv zeta.
  destruct (endpoint_write 4 10 [[Byte.x01; Byte.x02]] 7
              (grpc_secure_endpoint_create 4 second_protect_fails
                 pending_transport [])) as [w' o] eqn:Hrun.
  apply H. vm_compute in Hrun. inversion Hrun; subst. reflexivity.
Defined.

(** A read is pending when the application calls destroy: the count is
    1 and the endpoint is not freed. *)
Lemma pending_read_keeps_endpoint_alive_witness :
  exists s,
    api_run 4 10 (api_create 4 silent_protector pending_transport [])
      [CallRead [] 7; CallDestroy] = Some s /\
    read_pending s = true /\ destroy_called s = true /\
    ref (ep (sw s)) = 1%Z /\ freed (sw s) = false.
Proof.
  eexists. split; [vm_compute; reflexivity|].
  split; [reflexivity|]. split; [reflexivity|].
  match goal with
  | |- ref (ep (sw ?s)) = _ /\ _ =>
    destruct (pending_read_keeps_endpoint_alive (PV := scripted_protector_vtable)
                (TV := scripted_transport_vtable) 4 10 silent_protector
                pending_transport [] [CallRead [] 7; CallDestroy] s
                ltac:(vm_compute; reflexivity))
      as (Href & _ & Hp & _)
  end.
  split; [exact Href|]. apply Hp. reflexivity.
Defined.

(** A read of one byte next to a write of one byte, through
    [copy_protector]: the write takes the mutex first, the read makes its
    first call between the two calls of the write. *)
Lemma protector_calls_serialized_witness :
  let tr :=
    [(ReadDirection, EvRef);
     (WriteDirection, EvMuLock);
     (ReadDirection, EvWrappedRead GRPC_ENDPOINT_DONE);
     (WriteDirection, EvProtect 1 4 TSI_OK 1 1);
     (WriteDirection, EvMuUnlock);
     (ReadDirection, EvMuLock);
     (ReadDirection, EvUnprotect 1 4 TSI_OK 1 1);
     (ReadDirection, EvMuUnlock);
     (WriteDirection, EvMuLock);
     (WriteDirection, EvProtectFlush 3 TSI_OK 0 0);
     (WriteDirection, EvMuUnlock);
     (ReadDirection, EvMuLock);
     (WriteDirection, EvWrappedWrite [[Byte.x02]] 8 GRPC_ENDPOINT_DONE);
     (ReadDirection, EvUnprotect 0 3 TSI_OK 0 0);
     (ReadDirection, EvMuUnlock);
     (ReadDirection, EvUnref)] in
  well_locked (events_of ReadDirection tr) = true /\
  well_locked (events_of WriteDirection tr) = true /\
  serialized tr = true.
Proof.
  cbv zeta.
  apply (protector_calls_serialized (PV := copy_protector_vtable)
           (TV := scripted_transport_vtable) 4 10 (OpRead [] 7)
           (grpc_secure_endpoint_create 4 tt delivering_transport [])
           [[Byte.x02]] 8
           (grpc_secure_endpoint_create 4 tt delivering_transport []));
    vm_compute; reflexivity.
Defined.

(** A read is pending and the transport completes it with a failure,
    having left one byte in the source list: on_read returns with the
    byte still there. *)
Lemma transport_error_keeps_source :
  ~ completion_releases_source (PV := scripted_protector_vtable)
      source_staging_buffer_size 10 0
      (transport_delivers [[Byte.x01]]
         (fst (endpoint_read source_staging_buffer_size 10 [] 7
                 (grpc_secure_endpoint_create source_staging_buffer_size
                    silent_protector pending_transport [])))).
Proof.
  unfold completion_releases_source.
  set (w := transport_delivers [[Byte.x01]] _).
  assert (Hrb : read_buffer (ep w) = true) by (vm_compute; reflexivity).
  intros H.
  specialize (H _ _ (on_read_transport_failure source_staging_buffer_size
                       10 w Hrb)).
  vm_compute in H. discriminate H.
Defined.

(** The same completion, by the amended statement: on_read only empties
    the destination list. *)
Lemma read_completion_witness :
  let w := transport_delivers [[Byte.x01]]
             (fst (endpoint_read 4 10 [] 7
                     (grpc_secure_endpoint_create 4 silent_protector
                        pending_transport []))) in
  read_buffer (ep w) = true /\
  on_read 4 10 0 w = (reset_destination w, Returns 0%Z) /\
  source_buffer (ep (fst (on_read 4 10 1 w))) = [].
Proof.
  cbv zeta.
  set (w := transport_delivers [[Byte.x01]]
              (fst (endpoint_read 4 10 [] 7
                      (grpc_secure_endpoint_create 4 silent_protector
                         pending_transport [])))).
  destruct (read_completion (PV := scripted_protector_vtable) 4 10 0 w
              eq_refl) as [H0 _].
  destruct (read_completion (PV := scripted_protector_vtable) 4 10 1 w
              eq_refl) as [_ H1].
  split; [reflexivity|]. split; [apply H0; reflexivity|].
  destruct (on_read 4 10 1 w) as [w' [r| |]] eqn:Hrun.
  - apply (H1 ltac:(discriminate) w' r eq_refl).
  - vm_compute in Hrun. discriminate Hrun.
  - vm_compute in Hrun. discriminate Hrun.
Defined.

(** Five bytes in three slices, one of them empty, through the buffering
    protector with a staging capacity of 3: the write returns, and the
    read of its output, in any division into slices, delivers the five
    bytes. *)
Lemma write_then_read_round_trip_witness :
  let slices :=
    [[Byte.x01; Byte.x02; Byte.x03; Byte.x04]; []; [Byte.x05]] in
  let wS := grpc_secure_endpoint_create 3 empty_buffers pending_transport
              [] in
  let wR := fst (endpoint_read 3 10 [] 7 wS) in
  exists fuel0 wS' status,
    (forall fuel, fuel0 <= fuel ->
       endpoint_write 3 fuel slices 8 wS = (wS', Returns status)) /\
    (exists evs,
       trace wS' =
         evs ++ [EvWrappedWrite (output_buffer (ep wS')) 8 status]) /\
    forall source,
      bytes_of source = bytes_of (output_buffer (ep wS')) ->
      exists fuel1 wR',
        (forall fuel, fuel1 <= fuel ->
           on_read 3 fuel 1 (transport_delivers source wR) =
             (wR', Returns 1%Z)) /\
        bytes_of (destination wR') =
          [Byte.x01; Byte.x02; Byte.x03; Byte.x04; Byte.x05].
Proof.
  cbv zeta.
  apply (write_then_read_round_trip (TV := scripted_transport_vtable) 3
           buffering_protectors_match).
  - lia.
  - vm_compute. lia.
  - vm_compute. lia.
  - reflexivity.
  - reflexivity.
  - reflexivity.
  - reflexivity.
Defined.

(* ------------------------------------------------------------------ *)
(** ** Runs with a copying protector                                   *)
(* ------------------------------------------------------------------ *)

(** [copy_protector] keeps to the sizes it is given. *)
Lemma copy_protector_respects_sizes :
  respects_sizes (PV := copy_protector_vtable).
Proof.
  split; [|split].
  - intros s msg cap. cbn. split; [apply Nat.le_min_l|].
    rewrite length_firstn. apply Nat.le_min_l.
  - intros s cap. cbn. apply Nat.le_0_l.
  - intros s msg cap. cbn. split; [apply Nat.le_min_l|].
    rewrite length_firstn. apply Nat.le_min_l.
Defined.


(** A session created with five leftover bytes in two slices, a copying
    protector and staging buffers of four bytes: the first read returns
    Done, its events are unprotect calls that consumed the five bytes
    between them, the destination list holds the bytes they wrote, and
    the leftover list and the source list are empty.  And a first read
    that finds one leftover byte and fails in unprotect: the leftover
    list is empty afterwards. *)
Lemma leftover_bytes_consumed_once_witness :
  (let s := api_create (P := copy_protector) 4 tt pending_transport
              [[Byte.x01; Byte.x02; Byte.x03]; [Byte.x04; Byte.x05]] in
   let '(w', o) := endpoint_read 4 10 [] 7 (sw s) in
   o = Returns GRPC_ENDPOINT_DONE /\
   leftover_bytes (ep w') = [] /\ source_buffer (ep w') = [] /\
   exists cs,
     trace_since (sw s) w' = flat_map locked cs /\
     processed_sum cs = 5 /\
     length (bytes_of (destination w')) = written_sum cs) /\
  exists s,
    api_run 4 10
      (api_create 4 first_unprotect_fails pending_transport [[Byte.x01]])
      [CallRead [] 7] = Some s /\
    leftover_bytes (ep (sw s)) = [] /\ read_pending s = false.
Proof.
  split.
  - cbv zeta.
    set (s := api_create (P := copy_protector) 4 tt pending_transport
                [[Byte.x01; Byte.x02; Byte.x03]; [Byte.x04; Byte.x05]]).
    destruct (leftover_bytes_consumed_once (PV := copy_protector_vtable)
                (TV := scripted_transport_vtable) 4 10 tt pending_transport
                [[Byte.x01; Byte.x02; Byte.x03]; [Byte.x04; Byte.x05]] [] s
                eq_refl)
      as (_ & _ & H).
    destruct (endpoint_read 4 10 [] 7 (sw s)) as [w' o] eqn:Hrun.
    assert (Ho : o = Returns GRPC_ENDPOINT_DONE)
      by (vm_compute in Hrun; inversion Hrun; reflexivity).
    subst o.
    destruct (H [] 7 w' GRPC_ENDPOINT_DONE ltac:(discriminate) Hrun)
      as (Hl & Hs & cs & Ht & _ & _ & _ & Hacc).
    destruct (Hacc copy_protector_respects_sizes ltac:(lia) eq_refl)
      as [Hp Hw].
    split; [reflexivity|]. split; [exact Hl|]. split; [exact Hs|].
    exists cs. split; [exact Ht|]. split; [exact Hp|exact Hw].
  - eexists. split; [vm_compute; reflexivity|].
    split; [|reflexivity].
    match goal with
    | |- leftover_bytes (ep (sw ?s)) = _ =>
      destruct (leftover_bytes_consumed_once (PV := scripted_protector_vtable)
                  (TV := scripted_transport_vtable) 4 10 first_unprotect_fails
                  pending_transport [[Byte.x01]] [CallRead [] 7] s
                  ltac:(vm_compute; reflexivity))
        as (Hl & _)
    end.
    exact Hl.
Defined.

(** Five bytes written through a copying protector with staging buffers
    of four bytes: five bytes reach the wrapped transport, all five were
    consumed by protect calls. *)
Lemma write_sends_what_the_protector_wrote_witness :
  let w := grpc_secure_endpoint_create (P := copy_protector) 4 tt
             delivering_transport [] in
  let w' := fst (endpoint_write 4 10
                   [[Byte.x01; Byte.x02; Byte.x03]; [Byte.x04; Byte.x05]]
                   7 w) in
  length (bytes_of (output_buffer (ep w'))) =
    written_sum (calls (trace_since w w')) /\
  processed_sum (calls (trace_since w w')) = 5.
Proof.
  cbv zeta.
  set (w := grpc_secure_endpoint_create (P := copy_protector) 4 tt
              delivering_transport []).
  pose proof (write_sends_what_the_protector_wrote
                (PV := copy_protector_vtable)
                (TV := scripted_transport_vtable) 4
                copy_protector_respects_sizes ltac:(lia) 10
                [[Byte.x01; Byte.x02; Byte.x03]; [Byte.x04; Byte.x05]] 7 w
                ltac:(unfold staging_in_bounds; cbn; lia)) as H.
  destruct (endpoint_write 4 10
              [[Byte.x01; Byte.x02; Byte.x03]; [Byte.x04; Byte.x05]] 7 w)
    as [w' o] eqn:Hrun.
  cbn [fst].
  destruct (H (output_buffer (ep w')) 7 GRPC_ENDPOINT_DONE)
    as (_ & Hlen & Hproc).
  - vm_compute in Hrun. inversion Hrun; subst w' o. vm_compute.
    repeat (first [left; reflexivity|right]).
  - split; [exact Hlen|exact Hproc].
Defined.

(** Three bytes delivered to a pending read through a copying protector:
    on_read succeeds and its destination list holds as many bytes as the
    unprotect calls wrote. *)
Lemma read_delivers_what_the_protector_wrote_witness :
  let w := transport_delivers [[Byte.x01; Byte.x02; Byte.x03]]
             (fst (endpoint_read 4 10 [] 7
                     (grpc_secure_endpoint_create (P := copy_protector) 4 tt
                        pending_transport []))) in
  let w' := fst (on_read 4 10 1 w) in
  length (bytes_of (destination w')) =
    length (bytes_of (destination w)) +
    written_sum (calls (trace_since w w')) /\
  processed_sum (calls (trace_since w w')) = 3.
Proof.
  cbv zeta.
  set (w := transport_delivers [[Byte.x01; Byte.x02; Byte.x03]]
              (fst (endpoint_read 4 10 [] 7
                      (grpc_secure_endpoint_create (P := copy_protector) 4 tt
                         pending_transport [])))).
  destruct (read_delivers_what_the_protector_wrote
              (PV := copy_protector_vtable)
              (TV := scripted_transport_vtable) 4
              copy_protector_respects_sizes ltac:(lia) 10) as [H _].
  specialize (H 1%Z w eq_refl ltac:(discriminate)
                ltac:(unfold staging_in_bounds; cbn; lia)).
  destruct (on_read 4 10 1 w) as [w' o] eqn:Hrun.
  cbn [fst]. apply H.
  vm_compute in Hrun. inversion Hrun; subst w' o. reflexivity.
Defined.

(** A session with a copying protector: a write of five bytes, then a
    read that completes at once with one byte.  Every protector call was
    offered between one and four bytes. *)
Lemma protector_capacity_in_bounds_witness :
  exists s,
    api_run 4 10
      (api_create (P := copy_protector) 4 tt delivering_transport [])
      [CallWrite [[Byte.x01; Byte.x02; Byte.x03; Byte.x04; Byte.x05]] 7;
       CallRead [] 8] = Some s /\
    Forall (capacity_in_bounds 4) (calls (trace (sw s))) /\
    length (calls (trace (sw s))) = 5.
Proof.
  eexists. split; [vm_compute; reflexivity|].
  match goal with
  | |- Forall _ (calls (trace (sw ?s))) /\ _ =>
    destruct (protector_capacity_in_bounds (PV := copy_protector_vtable)
                (TV := scripted_transport_vtable) 4
                copy_protector_respects_sizes ltac:(lia) 10 tt
                delivering_transport []
                [CallWrite
                   [[Byte.x01; Byte.x02; Byte.x03; Byte.x04; Byte.x05]] 7;
                 CallRead [] 8] s
                ltac:(vm_compute; reflexivity))
      as (Hcaps & _)
  end.
  split; [exact Hcaps|reflexivity].
Defined.

(** The same write: the two slices handed to the wrapped transport hold
    four bytes and one byte. *)
Lemma slices_handed_over_are_in_bounds_witness :
  let w := grpc_secure_endpoint_create (P := copy_protector) 4 tt
             delivering_transport [] in
  let w' := fst (endpoint_write 4 10
                   [[Byte.x01; Byte.x02; Byte.x03; Byte.x04; Byte.x05]]
                   7 w) in
  Forall (staging_in_bounds 4) (output_buffer (ep w')) /\
  map (@length gpr_uint8) (output_buffer (ep w')) = [4; 1].
Proof.
  cbv zeta.
  set (w := grpc_secure_endpoint_create (P := copy_protector) 4 tt
              delivering_transport []).
  destruct (slices_handed_over_are_in_bounds
              (PV := copy_protector_vtable)
              (TV := scripted_transport_vtable) 4
              copy_protector_respects_sizes ltac:(lia) 10) as [H _].
  specialize (H [[Byte.x01; Byte.x02; Byte.x03; Byte.x04; Byte.x05]] 7 w
                ltac:(unfold staging_in_bounds; cbn; lia)).
  destruct (endpoint_write 4 10
              [[Byte.x01; Byte.x02; Byte.x03; Byte.x04; Byte.x05]] 7 w)
    as [w' o] eqn:Hrun.
  cbn [fst]. vm_compute in Hrun. inversion Hrun; subst w' o.
  split; [|reflexivity].
  apply (H _ 7 GRPC_ENDPOINT_DONE). vm_compute.
  repeat (first [left; reflexivity|right]).
Defined.

(* ------------------------------------------------------------------ *)
(** ** Runs with scripted collaborators                                *)
(* ------------------------------------------------------------------ *)

(** An endpoint created with one leftover byte: its first read is served
    from it, returns Done and leaves the transport alone. *)
Lemma leftover_read_is_synchronous_witness :
  let w := grpc_secure_endpoint_create 4 silent_protector pending_transport
             [[Byte.x01]] in
  let '(w', o) := endpoint_read 4 10 [] 7 w in
  o = Returns GRPC_ENDPOINT_DONE /\
  wrapped_ep (ep w') = pending_transport /\
  ref (ep w') = 1%Z /\
  leftover_bytes (ep w') = [] /\ source_buffer (ep w') = [].
Proof.
  cbv zeta.
  set (w := grpc_secure_endpoint_create 4 silent_protector pending_transport
              [[Byte.x01]]).
  pose proof (leftover_read_is_synchronous (PV := scripted_protector_vtable)
                (TV := scripted_transport_vtable) 4 10 [] 7 w
                ltac:(discriminate) eq_refl) as H.
  destruct (endpoint_read 4 10 [] 7 w) as [w' o] eqn:Hrun.
  destruct H as (_ & _ & _ & _ & Hw & Hr & _ & Hl & Hs).
  assert (Ho : o = Returns GRPC_ENDPOINT_DONE)
    by (vm_compute in Hrun; inversion Hrun; reflexivity).
  split; [exact Ho|]. split; [exact Hw|]. split; [exact Hr|].
  split; [exact Hl|]. apply (Hs GRPC_ENDPOINT_DONE Ho).
Defined.

(** An endpoint without leftover bytes on a transport that fails at
    once: the read asks the transport once, returns Error, makes no
    protector call and leaves the count at one. *)
Lemma transport_is_read_once_witness :
  let w := grpc_secure_endpoint_create 4 silent_protector failing_transport
             [] in
  let '(w', o) := endpoint_read 4 10 [] 7 w in
  o = Returns GRPC_ENDPOINT_ERROR /\
  calls (trace_since w w') = [] /\ destination w' = [] /\
  ref (ep w') = 1%Z.
Proof.
  cbv zeta.
  set (w := grpc_secure_endpoint_create 4 silent_protector failing_transport
              []).
  pose proof (transport_is_read_once (PV := scripted_protector_vtable)
                (TV := scripted_transport_vtable) 4 10 [] 7 w eq_refl) as H.
  destruct (endpoint_read 4 10 [] 7 w) as [w' o] eqn:Hrun.
  destruct H as (_ & _ & _ & _ & Herr & Href).
  destruct (Herr eq_refl) as (Ho & Hc & Hd).
  split; [exact Ho|]. split; [exact Hc|]. split; [exact Hd|].
  apply (Href GRPC_ENDPOINT_ERROR Ho). discriminate.
Defined.

(** A pending read completed with one byte through a protector whose
    first unprotect call fails: the callback is told 0 and sees an empty
    destination list. *)
Lemma read_callback_reports_the_result_witness :
  let w := transport_delivers [[Byte.x01]]
             (fst (endpoint_read 4 10 [] 7
                     (grpc_secure_endpoint_create 4 first_unprotect_fails
                        pending_transport []))) in
  let w' := fst (on_read_cb 4 10 1 w) in
  filter is_any_closure (trace_since w w') = [EvClosure 7 0] /\
  destination w' = [] /\ read_buffer (ep w') = false.
Proof.
  cbv zeta.
  set (w := transport_delivers [[Byte.x01]]
              (fst (endpoint_read 4 10 [] 7
                      (grpc_secure_endpoint_create 4 first_unprotect_fails
                         pending_transport [])))).
  pose proof (read_callback_reports_the_result
                (PV := scripted_protector_vtable)
                (TV := scripted_transport_vtable) 4 10 1 w 7
                eq_refl eq_refl) as H.
  destruct (on_read_cb 4 10 1 w) as [w' o] eqn:Hrun.
  cbn [fst].
  destruct H as (cs & r & _ & _ & Hrb & _ & Hr).
  - vm_compute in Hrun. inversion Hrun; reflexivity.
  - split; [vm_compute in Hrun; inversion Hrun; subst w' o; reflexivity|].
    split; [|exact Hrb].
    destruct Hr as [(_ & _ & Hok)|(_ & Hd & _)]; [|exact Hd].
    vm_compute in Hrun. inversion Hrun; subst w' o. reflexivity.
Defined.

(** A pending read completed with one byte: on_read leaves the write
    side and the wrapped endpoint as they are. *)
Lemma directions_work_on_disjoint_state_witness :
  let w := transport_delivers [[Byte.x01]]
             (fst (endpoint_read 4 10 [] 7
                     (grpc_secure_endpoint_create 4 silent_protector
                        pending_transport []))) in
  let w' := fst (on_read 4 10 1 w) in
  write_staging_buffer (ep w') = write_staging_buffer (ep w) /\
  output_buffer (ep w') = output_buffer (ep w) /\
  wrapped_ep (ep w') = wrapped_ep (ep w).
Proof.
  cbv zeta.
  set (w := transport_delivers [[Byte.x01]]
              (fst (endpoint_read 4 10 [] 7
                      (grpc_secure_endpoint_create 4 silent_protector
                         pending_transport [])))).
  destruct (directions_work_on_disjoint_state
              (PV := scripted_protector_vtable)
              (TV := scripted_transport_vtable) 4 10) as [_ H].
  specialize (H 1%Z w eq_refl).
  destruct (on_read 4 10 1 w) as [w' o].
  cbn [fst]. destruct H as (H1 & H2 & H3 & _). auto.
Defined.

(** A write of two empty slices: one flush call, no protect call. *)
Lemma empty_input_makes_no_data_call_witness :
  let w := grpc_secure_endpoint_create 4 silent_protector pending_transport
             [] in
  let w' := fst (endpoint_write 4 10 [[]; []] 7 w) in
  Forall (fun c => is_protect_flush c = true) (calls (trace_since w w')) /\
  length (calls (trace_since w w')) = 1.
Proof.
  cbv zeta.
  set (w := grpc_secure_endpoint_create 4 silent_protector pending_transport
              []).
  destruct (empty_input_makes_no_data_call
              (PV := scripted_protector_vtable)
              (TV := scripted_transport_vtable) 4 10) as (_ & H & _).
  specialize (H [[]; []] 7 w eq_refl).
  destruct (endpoint_write 4 10 [[]; []] 7 w) as [w' o] eqn:Hrun.
  cbn [fst]. destruct H as [_ Hf]. split; [exact Hf|].
  vm_compute in Hrun. inversion Hrun; subst w' o. reflexivity.
Defined.

(** A session in which destroy is called while a read is pending: the
    endpoint is torn down when the read completes, once. *)
Lemma endpoint_is_torn_down_once_witness :
  exists s,
    api_run 4 10 (api_create 4 silent_protector pending_transport [])
      [CallRead [] 7; CallDestroy; ReadCompletes [[Byte.x01]] 1] = Some s /\
    freed (sw s) = true /\
    filter is_teardown (trace (sw s)) =
      [EvWrappedDestroy; EvProtectorDestroy; EvMuDestroy; EvFree].
Proof.
  eexists. split; [vm_compute; reflexivity|].
  match goal with
  | |- freed (sw ?s) = true /\ _ =>
    destruct (endpoint_is_torn_down_once (PV := scripted_protector_vtable)
                (TV := scripted_transport_vtable) 4 10 silent_protector
                pending_transport []
                [CallRead [] 7; CallDestroy; ReadCompletes [[Byte.x01]] 1] s
                ltac:(vm_compute; reflexivity))
      as (Ht & Hf)
  end.
  split; [exact Hf|exact Ht].
Defined.

(** A session with a pending read: its completion does not stop at an
    assertion. *)
Lemma assertions_never_fail_witness :
  exists s,
    api_run 4 10 (api_create 4 silent_protector pending_transport [])
      [CallRead [] 7] = Some s /\
    read_pending s = true /\
    snd (on_read_cb 4 10 1 (transport_delivers [[Byte.x01]] (sw s)))
      <> @Aborted unit.
Proof.
  eexists. split; [vm_compute; reflexivity|].
  split; [reflexivity|].
  match goal with
  | |- snd (on_read_cb _ _ _ (transport_delivers _ (sw ?s))) <> _ =>
    destruct (assertions_never_fail (PV := scripted_protector_vtable)
                (TV := scripted_transport_vtable) 4 10 silent_protector
                pending_transport [] [CallRead [] 7] s
                ltac:(vm_compute; reflexivity))
      as (_ & _ & H)
  end.
  apply H. reflexivity.
Defined.

(* ------------------------------------------------------------------ *)
(** ** Runs with a buffering protector                                 *)
(* ------------------------------------------------------------------ *)

(** Five bytes written through a buffering protector with staging
    buffers of three bytes, the ciphertext cut in two deliveries. *)
Lemma ciphertext_may_arrive_in_pieces_witness :
  let slices :=
    [[Byte.x01; Byte.x02; Byte.x03; Byte.x04]; []; [Byte.x05]] in
  let wS := grpc_secure_endpoint_create 3 empty_buffers pending_transport
              [] in
  let wR := fst (endpoint_read 3 10 [] 7 wS) in
  exists fuel0 wS' status,
    (forall fuel, fuel0 <= fuel ->
       endpoint_write 3 fuel slices 8 wS = (wS', Returns status)) /\
    forall src1 src2,
      bytes_of src1 ++ bytes_of src2 = bytes_of (output_buffer (ep wS')) ->
      exists fuel1 wR1,
        (forall fuel, fuel1 <= fuel ->
           on_read 3 fuel 1 (transport_delivers src1 wR) =
             (wR1, Returns 1%Z)) /\
        forall wR1' : @world buffering_protector scripted_transport,
          protector (ep wR1') = protector (ep wR1) ->
          read_staging_buffer (ep wR1') = read_staging_buffer (ep wR1) ->
          read_buffer (ep wR1') = true ->
          destination wR1' = [] ->
          exists fuel2 wR2,
            (forall fuel, fuel2 <= fuel ->
               on_read 3 fuel 1 (transport_delivers src2 wR1') =
                 (wR2, Returns 1%Z)) /\
            bytes_of (destination wR1) ++ bytes_of (destination wR2) =
              [Byte.x01; Byte.x02; Byte.x03; Byte.x04; Byte.x05].
Proof.
  cbv zeta.
  apply (ciphertext_may_arrive_in_pieces (TV := scripted_transport_vtable) 3
           buffering_protectors_match).
  - lia.
  - vm_compute. lia.
  - vm_compute. lia.
  - reflexivity.
  - reflexivity.
  - reflexivity.
  - reflexivity.
Defined.

(** The same write, its ciphertext handed to a new endpoint as leftover
    slices. *)
Lemma leftover_slices_are_read_first_witness :
  let slices :=
    [[Byte.x01; Byte.x02; Byte.x03; Byte.x04]; []; [Byte.x05]] in
  let wS := grpc_secure_endpoint_create 3 empty_buffers pending_transport
              [] in
  exists fuel0 wS' status,
    (forall fuel, fuel0 <= fuel ->
       endpoint_write 3 fuel slices 8 wS = (wS', Returns status)) /\
    forall leftover t dst cb',
      leftover <> [] ->
      bytes_of leftover = bytes_of (output_buffer (ep wS')) ->
      exists fuel1 wR',
        (forall fuel, fuel1 <= fuel ->
           endpoint_read 3 fuel dst cb'
             (grpc_secure_endpoint_create 3 empty_buffers t leftover) =
             (wR', Returns GRPC_ENDPOINT_DONE)) /\
        bytes_of (destination wR') =
          [Byte.x01; Byte.x02; Byte.x03; Byte.x04; Byte.x05] /\
        wrapped_ep (ep wR') = t /\
        leftover_bytes (ep wR') = [].
Proof.
  cbv zeta.
  apply (leftover_slices_are_read_first (TV := scripted_transport_vtable) 3
           buffering_protectors_match).
  - lia.
  - vm_compute. lia.
  - reflexivity.
  - reflexivity.
Defined.
